(** * adk-go: events, sessions, agents and the runner

    A shallow embedding of the Go packages [events], [sessions], [models],
    [agents] and [runners], and the properties of the event stream, the
    session store and the backend registry that are proved about them. *)

From Stdlib Require Import ZArith String Ascii List Bool Lia.
From stdpp Require Import base option gmap strings list fin_maps.

Open Scope string_scope.
Open Scope list_scope.

(** Go's [interface{}] values that the session state can hold.  The code
    only ever inspects a value by a type assertion to [bool] (the loop
    agent) and stores [string]s (the output key); the other constructors
    stand for every other dynamic type. *)
Inductive Value : Type :=
| VNil
| VBool (b : bool)
| VInt (z : Z)
| VString (s : string).

#[global] Instance Value_eq_dec : EqDecision Value.
Proof. solve_decision. Defined.

(** Go's [(T, error)] results. *)
Inductive Result (A : Type) : Type :=
| Ok (a : A)
| Err (msg : string).
Arguments Ok {A} a.
Arguments Err {A} msg.

(** ** Package events *)
Module events.

Record Part := mkPart { Text : string }.

Record Content := mkContent { Role : string; Parts : list Part }.

Record EventActions := mkEventActions {
  TransferToAgent : string;
  Escalate : bool;
  SkipSummarization : bool;
  StateDelta : gmap string Value;
  ArtifactDelta : gmap string Value;
  RequestedAuthConfigs : list Value
}.

Record Event := mkEvent {
  ID : string;
  InvocationID : string;
  Timestamp : Z;
  Author : string;
  Content_ : option Content;        (* *Content, nil = None *)
  Branch : string;
  IsFinalResponse : bool;
  Actions : EventActions;
  LongRunningToolIDs : list string
}.

(** The zero value [EventActions{}]. *)
Definition EventActions_zero : EventActions :=
  mkEventActions "" false false ∅ ∅ [].

(** [NewEvent]: the id comes from [uuid.New()] and the timestamp from
    [time.Now()]; both are passed in by the caller of the model. *)
Definition NewEvent (uuid : string) (now : Z) : Event :=
  mkEvent uuid "" now "" None "" false EventActions_zero [].

Definition NewEventWithID (id : string) (now : Z) : Event :=
  mkEvent id "" now "" None "" false EventActions_zero [].

Definition IsFinalized (e : Event) : bool := IsFinalResponse e.

(** Field updates [e.Author = a], [e.Content = c]. *)
Definition set_Author (a : string) (e : Event) : Event :=
  mkEvent (ID e) (InvocationID e) (Timestamp e) a (Content_ e) (Branch e)
          (IsFinalResponse e) (Actions e) (LongRunningToolIDs e).

Definition set_Content (c : option Content) (e : Event) : Event :=
  mkEvent (ID e) (InvocationID e) (Timestamp e) (Author e) c (Branch e)
          (IsFinalResponse e) (Actions e) (LongRunningToolIDs e).

Definition set_IsFinalResponse (b : bool) (e : Event) : Event :=
  mkEvent (ID e) (InvocationID e) (Timestamp e) (Author e) (Content_ e)
          (Branch e) b (Actions e) (LongRunningToolIDs e).

Definition set_SkipSummarization (b : bool) (e : Event) : Event :=
  let a := Actions e in
  mkEvent (ID e) (InvocationID e) (Timestamp e) (Author e) (Content_ e)
          (Branch e) (IsFinalResponse e)
          (mkEventActions (TransferToAgent a) (Escalate a) b (StateDelta a)
                          (ArtifactDelta a) (RequestedAuthConfigs a))
          (LongRunningToolIDs e).

End events.

(** ** Package sessions *)
Module sessions.
Import events.

(** The [data] map of a [State]; the [sync.RWMutex] next to it makes
    each method one critical section, so a method is one function
    here.  The interleaving of the lock operations themselves is the
    subject of module [state_locking] below. *)
Abbreviation StateMap := (gmap string Value).

Definition State_Get (key : string) (s : StateMap) : option Value := s !! key.

Definition State_Set (key : string) (value : Value) (s : StateMap) : StateMap :=
  <[key := value]> s.

(** [Update] ranges over the [updates] map; the list is the order in
    which the Go runtime happens to visit its entries. *)
Definition State_Update (updates : list (string * Value)) (s : StateMap) : StateMap :=
  fold_left (fun d kv => <[kv.1 := kv.2]> d) updates s.

(** Pointers to [State] and [Session] objects are addresses into the
    two object tables of the heap. *)
Definition StatePtr := nat.
Definition SessionPtr := nat.

Record Session := mkSession {
  ID : string;
  AppName : string;
  UserID : string;
  State : StatePtr;                 (* *State *)
  Events : list Event;
  LastUpdateTime : Z
}.

(** The Go heap as far as the session package uses it, with the
    process clock: [tick] counts the calls made so far to the two
    external sources [time.Now] and [uuid.New]. *)
Record Heap := mkHeap {
  tick : nat;
  next_ptr : nat;
  state_objs : gmap nat (gmap string Value);
  session_objs : gmap nat Session
}.

Record InMemorySessionService := mkService {
  sessions : gmap string SessionPtr      (* map[string]*Session *)
}.

Section WithClock.
(** The external sources: the [n]-th call of the process returns
    [time_Now n], respectively [uuid_New n]. *)
Variable time_Now : nat -> Z.
Variable uuid_New : nat -> string.

Definition bump (h : Heap) : Heap :=
  mkHeap (S (tick h)) (next_ptr h) (state_objs h) (session_objs h).

Definition alloc_state (d : gmap string Value) (h : Heap) : StatePtr * Heap :=
  (next_ptr h,
   mkHeap (tick h) (S (next_ptr h)) (<[next_ptr h := d]> (state_objs h))
          (session_objs h)).

Definition alloc_session (s : Session) (h : Heap) : SessionPtr * Heap :=
  (next_ptr h,
   mkHeap (tick h) (S (next_ptr h)) (state_objs h)
          (<[next_ptr h := s]> (session_objs h))).

Definition store_session (p : SessionPtr) (s : Session) (h : Heap) : Heap :=
  mkHeap (tick h) (next_ptr h) (state_objs h) (<[p := s]> (session_objs h)).

Definition store_state (p : StatePtr) (d : gmap string Value) (h : Heap) : Heap :=
  mkHeap (tick h) (next_ptr h) (<[p := d]> (state_objs h)) (session_objs h).

(** [NewState] and [NewStateWithData] (which copies its argument). *)
Definition NewState (h : Heap) : StatePtr * Heap := alloc_state ∅ h.

Definition NewStateWithData (data : gmap string Value) (h : Heap) : StatePtr * Heap :=
  alloc_state data h.

Definition NewSession (appName userID sessionID : string)
    (initialState : option (gmap string Value)) (h : Heap) : SessionPtr * Heap :=
  let '(sessionID, h) :=
    if String.eqb sessionID "" then (uuid_New (tick h), bump h)
    else (sessionID, h) in
  let '(state, h) :=
    match initialState with
    | Some d => NewStateWithData d h
    | None => NewState h
    end in
  let now := time_Now (tick h) in
  alloc_session (mkSession sessionID appName userID state [] now) (bump h).

(** [AddEvent] on a [Session] reached through its pointer. *)
Definition Session_AddEvent (p : SessionPtr) (event : Event) (h : Heap) : Heap :=
  match session_objs h !! p with
  | Some s =>
      store_session p
        (mkSession (ID s) (AppName s) (UserID s) (State s)
                   (Events s ++ [event]) (time_Now (tick h)))
        (bump h)
  | None => h
  end.

Definition Session_GetEvents (p : SessionPtr) (h : Heap) : list Event :=
  match session_objs h !! p with
  | Some s => Events s
  | None => []
  end.

Definition sessionKey (appName userID sessionID : string) : string :=
  (appName +:+ ":") +:+ userID +:+ ":" +:+ sessionID.

Definition CreateSession (s : InMemorySessionService) (h : Heap)
    (appName userID sessionID : string)
    (initialState : option (gmap string Value))
  : InMemorySessionService * Heap * Result SessionPtr :=
  let '(session, h) := NewSession appName userID sessionID initialState h in
  let key := sessionKey appName userID sessionID in
  (mkService (<[key := session]> (sessions s)), h, Ok session).

(** [GetSession]: a missing session is [(nil, nil)], here [Ok None]. *)
Definition GetSession (s : InMemorySessionService)
    (appName userID sessionID : string) : Result (option SessionPtr) :=
  let key := sessionKey appName userID sessionID in
  match sessions s !! key with
  | None => Ok None
  | Some session => Ok (Some session)
  end.

Definition DeleteSession (s : InMemorySessionService)
    (appName userID sessionID : string)
  : InMemorySessionService * option string :=
  let key := sessionKey appName userID sessionID in
  (mkService (delete key (sessions s)), None).

(** The test of the loop body of [ListSessions]:
    [len(key) > len(prefix) && key[:len(prefix)] == prefix]. *)
Definition key_matches (prefix key : string) : bool :=
  (String.length prefix <? String.length key)%nat
  && String.eqb (substring 0 (String.length prefix) key) prefix.

(** [ListSessions] ranges over the map; [map_to_list] fixes one of
    the orders the runtime may choose. *)
Definition ListSessions (s : InMemorySessionService) (appName userID : string)
  : Result (list SessionPtr) :=
  let prefix := (appName +:+ ":") +:+ userID +:+ ":" in
  Ok (map snd
        (filter (fun kv => key_matches prefix kv.1 = true)
                (map_to_list (sessions s)))).

(** [AppendEvent]: the returned [option string] is the [error]. *)
Definition AppendEvent (s : InMemorySessionService) (h : Heap)
    (appName userID sessionID : string) (event : Event)
  : InMemorySessionService * Heap * option string :=
  let key := sessionKey appName userID sessionID in
  match sessions s !! key with
  | None => (s, h, None)
  | Some session => (s, Session_AddEvent session event h, None)
  end.

Definition ListEvents (s : InMemorySessionService) (h : Heap)
    (appName userID sessionID : string) : Result (option (list Event)) :=
  let key := sessionKey appName userID sessionID in
  match sessions s !! key with
  | None => Ok None
  | Some session => Ok (Some (Session_GetEvents session h))
  end.

Definition CloseSession (s : InMemorySessionService)
    (appName userID sessionID : string) : option string := None.

End WithClock.

End sessions.

(** ** Package tools, as far as the agents build requests from it *)
Module tools.

(** What a [Tool] answers to [GetName], [GetDescription] and
    [IsLongRunning]; no tool is ever run by the agents (see
    [hasToolCalls]). *)
Record Tool := mkTool {
  Name : string;
  Description : string;
  IsLongRunning_ : bool
}.

Definition NewBaseTool (name description : string) (isLongRunning : bool) : Tool :=
  mkTool name description isLongRunning.

(** [NewAgentTool], from the agent's name and description. *)
Definition NewAgentTool (agentName agentDescription : string) : Tool :=
  NewBaseTool ("transfer_to_" +:+ agentName) ("Transfer to " +:+ agentDescription) false.

End tools.

(** ** Package models *)
Module models.
Import events.

(** The [float32] fields are kept as their bit patterns. *)
Record GenerateContentConfig := mkConfig {
  Temperature : option Z;
  MaxOutputTokens : option Z;
  TopP : option Z;
  TopK : option Z
}.

Record LLMRequest := mkRequest {
  Contents : list Content;
  Config : option GenerateContentConfig;
  Tools : list tools.Tool
}.

(** A non-nil [LLM] interface value: the address of the object behind
    it, which is its identity, and its methods.  The stream a backend
    returns is the list of events it sends before closing its
    channel; an [Err] is its synchronous failure. *)
Record LLM := mkLLM {
  llm_addr : nat;
  GetModelName : string;
  GenerateContentAsync : LLMRequest -> Result (list Event)
}.

(** The event of [GeminiLLM.GenerateContentAsync]; [uuid] and [now]
    stand for what [events.NewEvent] draws from its two external
    sources, and are fixed for a handle. *)
Definition GeminiLLM_GenerateContentAsync (modelName uuid : string) (now : Z)
    (request : LLMRequest) : Result (list Event) :=
  let event := NewEvent uuid now in
  let event := set_Author modelName event in
  let event :=
    set_Content
      (Some (mkContent "model" [mkPart ("Mock response from " +:+ modelName)]))
      event in
  let event := set_IsFinalResponse true event in
  Ok [event].

(** [NewGeminiLLM], allocated at [addr]. *)
Definition NewGeminiLLM (uuid : string) (now : Z) (modelName : string) (addr : nat) : LLM :=
  mkLLM addr modelName (GeminiLLM_GenerateContentAsync modelName uuid now).

(** A factory [func(string) LLM]: from the model name and the next
    free address to the interface value it returns ([None] is a nil
    interface). *)
Definition Factory := string -> nat -> option LLM.

Record LLMRegistry := mkRegistry {
  models_ : gmap string Factory;            (* models *)
  instances : gmap string (option LLM)
}.

(** The package state: [defaultRegistry], the allocator, and the log
    of the factory invocations made so far (model type, model name). *)
Record World := mkWorld {
  defaultRegistry : LLMRegistry;
  next_llm : nat;
  factory_calls : list (string * string)
}.

Definition Register (modelType : string) (factory : Factory) (w : World) : World :=
  mkWorld (mkRegistry (<[modelType := factory]> (models_ (defaultRegistry w)))
                      (instances (defaultRegistry w)))
          (next_llm w) (factory_calls w).

Definition NewLLM (modelName : string) (w : World) : Result (option LLM) * World :=
  match instances (defaultRegistry w) !! modelName with
  | Some instance => (Ok instance, w)
  | None =>
      if (6 <=? String.length modelName)%nat
         && String.eqb (substring 0 6 modelName) "gemini"
      then
        let modelType := "gemini" in
        match models_ (defaultRegistry w) !! modelType with
        | None => (Err ("no factory registered for model type: " +:+ modelType), w)
        | Some factory =>
            let instance := factory modelName (next_llm w) in
            (Ok instance,
             mkWorld (mkRegistry (models_ (defaultRegistry w))
                                 (<[modelName := instance]> (instances (defaultRegistry w))))
                     (S (next_llm w))
                     (factory_calls w ++ [(modelType, modelName)]))
        end
      else (Err ("unsupported model: " +:+ modelName), w)
  end.

Definition Resolve (modelName : string) (w : World) : Result (option LLM) * World :=
  NewLLM modelName w.

(** The package state after [init]: the gemini factory registered. *)
Definition init (uuid : string) (now : Z) : World :=
  Register "gemini" (fun modelName addr => Some (NewGeminiLLM uuid now modelName addr))
           (mkWorld (mkRegistry ∅ ∅) 0 []).

(** Calls into the package, for runs of several of them. *)
Inductive Call : Type :=
| CallRegister (modelType : string) (factory : Factory)
| CallNewLLM (modelName : string).

Definition do_call (c : Call) (w : World) : World :=
  match c with
  | CallRegister t f => Register t f w
  | CallNewLLM m => (NewLLM m w).2
  end.

Definition do_calls (cs : list Call) (w : World) : World :=
  fold_left (fun w c => do_call c w) cs w.

(** The factory invocations made so far for one model name. *)
Definition calls_for (modelName : string) (w : World) : list (string * string) :=
  filter (fun c => c.2 = modelName) (factory_calls w).

End models.

(** ** Package agents *)
Module agents.
Import events.

(** [InvocationContext] holds a [Session] by value: a copy of the
    fields, whose [State] is still the pointer of the original. *)
Record InvocationContext := mkInvocationContext {
  Session : sessions.Session
}.

(** A callback, a [func] from the context pointer to [error]: what it
    does to the session state that it reaches through the context, and
    the error it returns. *)
Definition Callback := gmap string Value -> gmap string Value * option string.

(** The body of an agent's goroutine, up to the [close] of its event
    channel.  The channel is unbuffered: a [Send] is completed by the
    receive of the consumer, and a goroutine whose consumer stops
    receiving stays blocked at its next send.  A run takes the steps
    between two sends when the later event is asked for; the steps
    that a blocked goroutine has taken on its way to the send that is
    never received are left out.  State operations are those on
    [invocationCtx.Session.State]. *)
Inductive Proc : Type :=
| Close
| Send (event : Event) (k : Proc)
| StateGet (key : string) (k : option Value -> Proc)
| StateSet (key : string) (value : Value) (k : Proc)
| Invoke (cb : Callback) (k : option string -> Proc)
| ModelsResolve (modelName : string) (k : Result (option models.LLM) -> Proc).

(** What a goroutine acts on: the session state and the model registry. *)
Record Env := mkEnv {
  state : gmap string Value;
  llms : models.World
}.

(** The effects of a run, in the order in which they happen. *)
Inductive Act : Type :=
| ActSend (event : Event)
| ActStateSet (key : string) (value : Value)
| ActCallback (err : option string)
| ActResolve (modelName : string).

(** Running a goroutine to the close of its channel, every event
    being received. *)
Fixpoint exec (p : Proc) (env : Env) : list Act * Env :=
  match p with
  | Close => ([], env)
  | Send e k =>
      let '(t, env') := exec k env in (ActSend e :: t, env')
  | StateGet key k => exec (k (sessions.State_Get key (state env))) env
  | StateSet key v k =>
      let '(t, env') :=
        exec k (mkEnv (sessions.State_Set key v (state env)) (llms env)) in
      (ActStateSet key v :: t, env')
  | Invoke cb k =>
      let '(st, err) := cb (state env) in
      let '(t, env') := exec (k err) (mkEnv st (llms env)) in
      (ActCallback err :: t, env')
  | ModelsResolve m k =>
      let '(r, w) := models.Resolve m (llms env) in
      let '(t, env') := exec (k r) (mkEnv (state env) w) in
      (ActResolve m :: t, env')
  end.

(** The events of a trace: what the consumer of the channel receives. *)
Fixpoint sent (t : list Act) : list Event :=
  match t with
  | [] => []
  | ActSend e :: t' => e :: sent t'
  | _ :: t' => sent t'
  end.

(** The [Agent] interface, as far as the combinators and the runner
    call it: [RunAsync] returns the goroutine behind the channel, or
    an error. *)
Record Agent := mkAgent {
  GetName : string;
  GetDescription : string;
  RunAsync : InvocationContext -> Result Proc;
  RunLive : InvocationContext -> Result Proc
}.

(** [BaseAgent] without its [ParentAgent] back-reference; the lookups
    in the hierarchy are not part of the embedding. *)
Record BaseAgent := mkBaseAgent {
  Name : string;
  Description : string;
  SubAgents : list Agent;
  BeforeAgentCallback : option Callback;
  AfterAgentCallback : option Callback
}.

Definition NewBaseAgent (name description : string) : BaseAgent :=
  mkBaseAgent name description [] None None.

Definition AddSubAgent (subAgent : Agent) (a : BaseAgent) : BaseAgent :=
  mkBaseAgent (Name a) (Description a) (SubAgents a ++ [subAgent])
              (BeforeAgentCallback a) (AfterAgentCallback a).

(** [BaseAgent.RunAsync]: an already closed channel. *)
Definition BaseAgent_RunAsync (a : BaseAgent) (invocationCtx : InvocationContext)
  : Result Proc := Ok Close.

Definition BaseAgent_RunLive (a : BaseAgent) (invocationCtx : InvocationContext)
  : Result Proc := BaseAgent_RunAsync a invocationCtx.

(** [if cb != nil { if err := cb(invocationCtx); err != nil { return } }]
    followed by [next]; the [return] runs the deferred [close]. *)
Definition guarded (cb : option Callback) (next : Proc) : Proc :=
  match cb with
  | None => next
  | Some f =>
      Invoke f (fun err => match err with Some _ => Close | None => next end)
  end.

(** [for event := range subEventChan { eventChan <- event }], then
    [next]: the steps of the sub-agent's goroutine, each of its sends
    received and sent on. *)
Fixpoint forward (sub : Proc) (next : Proc) : Proc :=
  match sub with
  | Close => next
  | Send e k => Send e (forward k next)
  | StateGet key k => StateGet key (fun v => forward (k v) next)
  | StateSet key v k => StateSet key v (forward k next)
  | Invoke cb k => Invoke cb (fun err => forward (k err) next)
  | ModelsResolve m k => ModelsResolve m (fun r => forward (k r) next)
  end.

(** *** SequentialAgent *)
Record SequentialAgent := mkSequentialAgent { seq_BaseAgent : BaseAgent }.

(** The loop over [a.SubAgents]; an error of [RunAsync] is the
    [continue]. *)
Definition run_sub_agents (subAgents : list Agent)
    (invocationCtx : InvocationContext) (next : Proc) : Proc :=
  fold_right
    (fun subAgent rest =>
       match RunAsync subAgent invocationCtx with
       | Err _ => rest
       | Ok subEventChan => forward subEventChan rest
       end)
    next subAgents.

Definition SequentialAgent_goroutine (a : SequentialAgent)
    (invocationCtx : InvocationContext) : Proc :=
  guarded (BeforeAgentCallback (seq_BaseAgent a))
    (run_sub_agents (SubAgents (seq_BaseAgent a)) invocationCtx
       (guarded (AfterAgentCallback (seq_BaseAgent a)) Close)).

Definition SequentialAgent_RunAsync (a : SequentialAgent)
    (invocationCtx : InvocationContext) : Result Proc :=
  Ok (SequentialAgent_goroutine a invocationCtx).

Definition NewSequentialAgent (name : string) (subAgents : list Agent) : SequentialAgent :=
  mkSequentialAgent
    (fold_left (fun b s => AddSubAgent s b) subAgents
               (NewBaseAgent name "Sequential execution agent")).

Definition SequentialAgent_Agent (a : SequentialAgent) : Agent :=
  mkAgent (Name (seq_BaseAgent a)) (Description (seq_BaseAgent a))
          (SequentialAgent_RunAsync a) (BaseAgent_RunLive (seq_BaseAgent a)).

(** *** LoopAgent *)
Record LoopAgent := mkLoopAgent {
  loop_BaseAgent : BaseAgent;
  MaxIterations : Z
}.

(** [shouldExitLoop], on the value that [State.Get("exit_loop")]
    returned: the flag exists, is a [bool], and is true. *)
Definition exit_flag (v : option Value) : bool :=
  match v with
  | Some (VBool true) => true
  | _ => false
  end.

Definition shouldExitLoop (k : bool -> Proc) : Proc :=
  StateGet "exit_loop" (fun v => k (exit_flag v)).

Definition shouldExitLoopFromEvent (event : Event) : bool :=
  SkipSummarization (Actions event).

(** A sub-agent's goroutine from which the loop agent has stopped
    receiving.  Nothing cancels it: it runs on, as it does between
    two sends that are received, as far as its next send, which
    blocks for ever since nobody receives from its channel any more,
    or to the close of its channel.  Its steps are placed in the trace
    where [forward] places the steps that follow a send, right after
    that send; [next] is what the loop agent does afterwards.  (Where
    the sub-agent itself forwards the events of sub-agents of its own,
    each goroutine in between takes one more event before it blocks,
    and the goroutines below it run on that much further: of those
    steps the model has the ones up to the first send.) *)
Fixpoint abandoned (sub next : Proc) : Proc :=
  match sub with
  | Close => next
  | Send _ _ => next
  | StateGet key k => StateGet key (fun v => abandoned (k v) next)
  | StateSet key v k => StateSet key v (abandoned k next)
  | Invoke cb k => Invoke cb (fun err => abandoned (k err) next)
  | ModelsResolve m k => ModelsResolve m (fun r => abandoned (k r) next)
  end.

(** The inner [for event := range subEventChan] of the loop agent:
    after each send the event is tested, and [goto exitLoop] leaves
    the sub-agent's channel undrained. *)
Fixpoint forward_until_exit (sub next exitLoop : Proc) : Proc :=
  match sub with
  | Close => next
  | Send e k =>
      Send e (if shouldExitLoopFromEvent e then abandoned k exitLoop
              else forward_until_exit k next exitLoop)
  | StateGet key k => StateGet key (fun v => forward_until_exit (k v) next exitLoop)
  | StateSet key v k => StateSet key v (forward_until_exit k next exitLoop)
  | Invoke cb k => Invoke cb (fun err => forward_until_exit (k err) next exitLoop)
  | ModelsResolve m k => ModelsResolve m (fun r => forward_until_exit (k r) next exitLoop)
  end.

Definition loop_sub_agents (subAgents : list Agent)
    (invocationCtx : InvocationContext) (next exitLoop : Proc) : Proc :=
  fold_right
    (fun subAgent rest =>
       match RunAsync subAgent invocationCtx with
       | Err _ => rest
       | Ok subEventChan => forward_until_exit subEventChan rest exitLoop
       end)
    next subAgents.

(** The outer [for] with [remaining] iterations still to go; both the
    [break] and the end of the loop reach the label [exitLoop]. *)
Fixpoint loop_iterations (remaining : nat) (subAgents : list Agent)
    (invocationCtx : InvocationContext) (exitLoop : Proc) : Proc :=
  match remaining with
  | O => exitLoop
  | S n =>
      shouldExitLoop (fun exit =>
        if exit then exitLoop
        else loop_sub_agents subAgents invocationCtx
               (loop_iterations n subAgents invocationCtx exitLoop) exitLoop)
  end.

Definition LoopAgent_goroutine (a : LoopAgent) (invocationCtx : InvocationContext) : Proc :=
  guarded (BeforeAgentCallback (loop_BaseAgent a))
    (loop_iterations (Z.to_nat (MaxIterations a)) (SubAgents (loop_BaseAgent a))
       invocationCtx
       (guarded (AfterAgentCallback (loop_BaseAgent a)) Close)).

Definition LoopAgent_RunAsync (a : LoopAgent) (invocationCtx : InvocationContext)
  : Result Proc :=
  Ok (LoopAgent_goroutine a invocationCtx).

Definition NewLoopAgent (name : string) (subAgents : list Agent) (maxIterations : Z)
  : LoopAgent :=
  mkLoopAgent
    (fold_left (fun b s => AddSubAgent s b) subAgents
               (NewBaseAgent name "Loop execution agent"))
    maxIterations.

Definition LoopAgent_Agent (a : LoopAgent) : Agent :=
  mkAgent (Name (loop_BaseAgent a)) (Description (loop_BaseAgent a))
          (LoopAgent_RunAsync a) (BaseAgent_RunLive (loop_BaseAgent a)).

(** *** LlmAgent *)
Definition IncludeContentsDefault : string := "default".
Definition IncludeContentsNone : string := "none".

(** The fields that some method reads; the schemas, examples, code
    executor, planner, transfer switches and tool callbacks are only
    ever stored. *)
Record LlmAgent := mkLlmAgent {
  llm_BaseAgent : BaseAgent;
  Model : string;
  Instruction : string;
  GlobalInstruction : string;
  GenerateContentConfig : option models.GenerateContentConfig;
  OutputKey : string;
  IncludeContents : string;
  Tools : list tools.Tool;
  BeforeModelCallback : option Callback;
  AfterModelCallback : option Callback;
  llm : option models.LLM
}.

Definition NewLlmAgent (name model instruction : string) : LlmAgent :=
  mkLlmAgent (NewBaseAgent name "") model instruction "" None ""
             IncludeContentsDefault [] None None None.

Definition SetOutputKey (outputKey : string) (a : LlmAgent) : LlmAgent :=
  mkLlmAgent (llm_BaseAgent a) (Model a) (Instruction a) (GlobalInstruction a)
             (GenerateContentConfig a) outputKey (IncludeContents a) (Tools a)
             (BeforeModelCallback a) (AfterModelCallback a) (llm a).

Definition set_llm (l : option models.LLM) (a : LlmAgent) : LlmAgent :=
  mkLlmAgent (llm_BaseAgent a) (Model a) (Instruction a) (GlobalInstruction a)
             (GenerateContentConfig a) (OutputKey a) (IncludeContents a) (Tools a)
             (BeforeModelCallback a) (AfterModelCallback a) l.

(** [GetCanonicalModel] as a method: the handle it returns (nil is
    [None]), the agent with its [llm] field as the call leaves it, and
    the registry. *)
Definition GetCanonicalModel (a : LlmAgent) (w : models.World)
  : option models.LLM * LlmAgent * models.World :=
  match llm a with
  | Some l => (Some l, a, w)
  | None =>
      match models.Resolve (Model a) w with
      | (Err _, w') => (None, a, w')
      | (Ok l, w') => (l, set_llm l a, w')
      end
  end.

(** The same call inside the goroutine of [RunAsync].  The write to
    [a.llm] is not kept from one [RunAsync] of a value to the next: a
    later run resolves through the registry again. *)
Definition getCanonicalModel (a : LlmAgent) (k : option models.LLM -> Proc) : Proc :=
  match llm a with
  | Some l => k (Some l)
  | None =>
      ModelsResolve (Model a)
        (fun r => match r with Err _ => k None | Ok l => k l end)
  end.

Definition GetCanonicalInstruction (a : LlmAgent) : string :=
  if negb (String.eqb (GlobalInstruction a) "")
  then GlobalInstruction a +:+ String "010" (String "010" "") +:+ Instruction a
  else Instruction a.

Definition GetCanonicalTools (a : LlmAgent) : list tools.Tool :=
  Tools a ++
  map (fun subAgent => tools.NewAgentTool (GetName subAgent) (GetDescription subAgent))
      (SubAgents (llm_BaseAgent a)).

Definition buildContents (a : LlmAgent) (invocationCtx : InvocationContext)
  : list Content :=
  (let instruction := GetCanonicalInstruction a in
   if negb (String.eqb instruction "")
   then [mkContent "system" [mkPart instruction]] else [])
  ++ omap Content_ (sessions.Events (Session invocationCtx)).

Definition buildLLMRequest (a : LlmAgent) (invocationCtx : InvocationContext)
  : models.LLMRequest :=
  models.mkRequest
    (if String.eqb (IncludeContents a) IncludeContentsDefault
     then buildContents a invocationCtx
     else [mkContent "system" [mkPart (GetCanonicalInstruction a)]])
    (GenerateContentConfig a)
    (GetCanonicalTools a).

Definition hasToolCalls (event : Event) : bool := false.

Definition processToolCalls (event : Event) : Result (list Event) := Ok [].

Definition storeOutputInSession (a : LlmAgent) (event : Event) (next : Proc) : Proc :=
  match Content_ event with
  | Some c =>
      match Parts c with
      | part :: _ => StateSet (OutputKey a) (VString (Text part)) next
      | [] => next
      end
  | None => next
  end.

(** The test in front of [storeOutputInSession]. *)
Definition stores_output (a : LlmAgent) (event : Event) : bool :=
  negb (String.eqb (OutputKey a) "")
  && IsFinalResponse event
  && match Content_ event with Some _ => true | None => false end.

(** [for event := range responseEventChan], then [next]. *)
Fixpoint process_events (a : LlmAgent) (responseEvents : list Event) (next : Proc) : Proc :=
  match responseEvents with
  | [] => next
  | event :: rest =>
      if hasToolCalls event then
        match processToolCalls event with
        | Err _ => process_events a rest next
        | Ok toolEvents =>
            fold_right Send (process_events a rest next) toolEvents
        end
      else
        let forwardEvent := Send event (process_events a rest next) in
        if stores_output a event
        then storeOutputInSession a event forwardEvent
        else forwardEvent
  end.

Definition LlmAgent_goroutine (a : LlmAgent) (invocationCtx : InvocationContext) : Proc :=
  guarded (BeforeAgentCallback (llm_BaseAgent a))
    (guarded (BeforeModelCallback a)
       (getCanonicalModel a (fun l =>
          match l with
          | None => Close
          | Some llm =>
              let request := buildLLMRequest a invocationCtx in
              match models.GenerateContentAsync llm request with
              | Err _ => Close
              | Ok responseEventChan =>
                  process_events a responseEventChan
                    (guarded (AfterModelCallback a)
                       (guarded (AfterAgentCallback (llm_BaseAgent a)) Close))
              end
          end))).

Definition LlmAgent_RunAsync (a : LlmAgent) (invocationCtx : InvocationContext)
  : Result Proc :=
  Ok (LlmAgent_goroutine a invocationCtx).

Definition LlmAgent_Agent (a : LlmAgent) : Agent :=
  mkAgent (Name (llm_BaseAgent a)) (Description (llm_BaseAgent a))
          (LlmAgent_RunAsync a) (BaseAgent_RunLive (llm_BaseAgent a)).

End agents.

(** ** Package runners *)
Module runners.
Import events sessions.

(** The runner with its in-memory session service; the memory and
    artifact services are never called. *)
Record Runner := mkRunner {
  Agent : agents.Agent;
  AppName : string
}.

(** What a run acts on: the session service and the heap behind it,
    and the model registry of the agents. *)
Record World := mkWorld {
  SessionService : InMemorySessionService;
  heap : Heap;
  llms : models.World
}.

(** The calls a run makes, in order: [session.AddEvent] on the
    runner's own pointer, [SessionService.AppendEvent],
    [Agent.RunAsync], and the send on the output channel. *)
Inductive RunnerAct : Type :=
| RAddEvent (event : Event)
| RAppendEvent (event : Event)
| RAgentRunAsync
| ROutput (event : Event).

(** What the caller receives from the output channel. *)
Fixpoint observed (t : list RunnerAct) : list Event :=
  match t with
  | [] => []
  | ROutput e :: t' => e :: observed t'
  | _ :: t' => observed t'
  end.

(** The [State] object behind a pointer. *)
Definition state_at (sp : StatePtr) (h : Heap) : gmap string Value :=
  default ∅ (state_objs h !! sp).

Section WithClock.
Variable time_Now : nat -> Z.
Variable uuid_New : nat -> string.

Definition getOrCreateSession (r : Runner) (userID sessionID : string) (w : World)
  : Result SessionPtr * World :=
  match GetSession (SessionService w) (AppName r) userID sessionID with
  | Err e => (Err e, w)
  | Ok (Some session) => (Ok session, w)
  | Ok None =>
      let '(s, h, res) :=
        CreateSession time_Now uuid_New (SessionService w) (heap w)
                      (AppName r) userID sessionID None in
      (res, mkWorld s h (llms w))
  end.

(** The goroutine of [RunAsync] against the goroutine [p] of the
    root agent: each event received is passed to [AppendEvent] and
    then sent on; the steps of the agent in between act on the
    state object [sp] of the invocation context and on the
    registry. *)
Fixpoint relay (r : Runner) (userID sessionID : string) (sp : StatePtr)
    (p : agents.Proc) (w : World) : list RunnerAct * World :=
  match p with
  | agents.Close => ([], w)
  | agents.Send event k =>
      let '(s, h, _) :=
        AppendEvent time_Now (SessionService w) (heap w)
                    (AppName r) userID sessionID event in
      let '(t, w') := relay r userID sessionID sp k (mkWorld s h (llms w)) in
      (RAppendEvent event :: ROutput event :: t, w')
  | agents.StateGet key k =>
      relay r userID sessionID sp
            (k (State_Get key (state_at sp (heap w)))) w
  | agents.StateSet key v k =>
      relay r userID sessionID sp k
            (mkWorld (SessionService w)
                     (store_state sp (State_Set key v (state_at sp (heap w))) (heap w))
                     (llms w))
  | agents.Invoke cb k =>
      let '(st, err) := cb (state_at sp (heap w)) in
      relay r userID sessionID sp (k err)
            (mkWorld (SessionService w) (store_state sp st (heap w)) (llms w))
  | agents.ModelsResolve m k =>
      let '(res, mw) := models.Resolve m (llms w) in
      relay r userID sessionID sp (k res)
            (mkWorld (SessionService w) (heap w) mw)
  end.

(** The user event of [RunAsync] and its two appends. *)
Definition add_user_message (r : Runner) (userID sessionID : string)
    (session : SessionPtr) (newMessage : Content) (w : World)
  : list RunnerAct * World :=
  let h := heap w in
  let userEvent := NewEvent (uuid_New (tick h)) (time_Now (S (tick h))) in
  let h := bump (bump h) in
  let userEvent := set_Author "user" userEvent in
  let userEvent := set_Content (Some newMessage) userEvent in
  let h := Session_AddEvent time_Now session userEvent h in
  let '(s, h, _) :=
    AppendEvent time_Now (SessionService w) h (AppName r) userID sessionID userEvent in
  ([RAddEvent userEvent; RAppendEvent userEvent], mkWorld s h (llms w)).

(** [RunAsync]: the error, or the events the caller receives when
    it drains the output channel; the calls made; the world
    afterwards. *)
Definition RunAsync (r : Runner) (userID sessionID : string)
    (newMessage : option Content) (w : World)
  : Result (list Event) * list RunnerAct * World :=
  match getOrCreateSession r userID sessionID w with
  | (Err e, w) => (Err ("failed to get or create session: " +:+ e), [], w)
  | (Ok session, w) =>
      let '(t0, w) :=
        match newMessage with
        | Some m => add_user_message r userID sessionID session m w
        | None => ([], w)
        end in
      match session_objs (heap w) !! session with
      | None => (Err "invalid memory address or nil pointer dereference", t0, w)
      | Some s =>
          let invocationCtx := agents.mkInvocationContext s in
          match agents.RunAsync (Agent r) invocationCtx with
          | Err e => (Err ("failed to run agent: " +:+ e), t0 ++ [RAgentRunAsync], w)
          | Ok eventChan =>
              let '(t, w') := relay r userID sessionID (State s) eventChan w in
              (Ok (observed t), t0 ++ RAgentRunAsync :: t, w')
          end
      end
  end.

End WithClock.

End runners.

(** ** Goroutines calling the methods of one State

    The methods of [State] one lock operation and one map access at a
    time, for the interleavings of several goroutines on the same
    object. *)
Module state_locking.
Import sessions.

(** A call of [Get], [Set] or [Update]; the list of an [Update] is its
    [updates] map in the order in which the [range] visits it. *)
Inductive Method : Type :=
| Get (key : string)
| Set_ (key : string) (value : Value)
| Update (updates : list (string * Value)).

Inductive Instr : Type :=
| RLock
| RUnlock
| Lock
| Unlock
| Read (key : string)
| Write (key : string) (value : Value).

(** The body of each method; the deferred unlock runs last. *)
Definition body (m : Method) : list Instr :=
  match m with
  | Get key => [RLock; Read key; RUnlock]
  | Set_ key value => [Lock; Write key value; Unlock]
  | Update updates => Lock :: map (fun kv => Write kv.1 kv.2) updates ++ [Unlock]
  end.

(** A goroutine: the method it is in, what is left of its body, and
    the calls it will make afterwards. *)
Record Thread := mkThread {
  running : option Method;
  code : list Instr;
  todo : list Method
}.

(** [sync.RWMutex]: held for writing, and the number of read holds. *)
Record RWMutex := mkRWMutex {
  writer : bool;
  readers : nat
}.

(** The [State] object and its callers.  [history] lists the [Set] and
    [Update] calls that have released the lock, in that order, and
    [returned] what every [Get] has read so far: (goroutine, key,
    value). *)
Record Config := mkConfig {
  data : gmap string Value;
  mu : RWMutex;
  threads : list Thread;
  history : list Method;
  returned : list (nat * string * option Value)
}.

(** One step of goroutine [i], [None] when it has nothing left to do
    or is blocked on the lock.  [RLock] waits while the lock is held
    for writing, [Lock] while it is held at all.  (Go also makes a new
    [RLock] wait behind a waiting [Lock]; that only takes
    interleavings away, so what holds in every configuration reached
    here holds in every configuration reached there.  Module
    [state_progress] has the lock with that waiting, for what is
    about a goroutine being able to go on.) *)
Definition step (i : nat) (c : Config) : option Config :=
  match threads c !! i with
  | None => None
  | Some th =>
      match code th with
      | [] =>
          match todo th with
          | [] => None
          | m :: ms =>
              Some (mkConfig (data c) (mu c)
                             (<[i := mkThread (Some m) (body m) ms]> (threads c))
                             (history c) (returned c))
          end
      | ins :: rest =>
          let ts := <[i := mkThread (running th) rest (todo th)]> (threads c) in
          match ins with
          | RLock =>
              if writer (mu c) then None
              else Some (mkConfig (data c) (mkRWMutex false (S (readers (mu c)))) ts
                                  (history c) (returned c))
          | RUnlock =>
              Some (mkConfig (data c)
                             (mkRWMutex (writer (mu c)) (Nat.pred (readers (mu c)))) ts
                             (history c) (returned c))
          | Lock =>
              if writer (mu c) || negb (readers (mu c) =? 0)%nat then None
              else Some (mkConfig (data c) (mkRWMutex true (readers (mu c))) ts
                                  (history c) (returned c))
          | Unlock =>
              Some (mkConfig (data c) (mkRWMutex false (readers (mu c))) ts
                             (history c ++ match running th with
                                           | Some m => [m]
                                           | None => []
                                           end)
                             (returned c))
          | Read key =>
              Some (mkConfig (data c) (mu c) ts (history c)
                             (returned c ++ [(i, key, State_Get key (data c))]))
          | Write key value =>
              Some (mkConfig (State_Set key value (data c)) (mu c) ts
                             (history c) (returned c))
          end
      end
  end.

(** A schedule names the goroutine of each step. *)
Fixpoint run (schedule : list nat) (c : Config) : option Config :=
  match schedule with
  | [] => Some c
  | i :: rest =>
      match step i c with
      | Some c' => run rest c'
      | None => None
      end
  end.

Definition initial (init : gmap string Value) (programs : list (list Method)) : Config :=
  mkConfig init (mkRWMutex false 0) (map (mkThread None []) programs) [] [].

(** A whole call, as module [sessions] has it. *)
Definition apply (m : Method) (d : gmap string Value) : gmap string Value :=
  match m with
  | Get _ => d
  | Set_ key value => State_Set key value d
  | Update updates => State_Update updates d
  end.

Definition apply_all (ms : list Method) (d : gmap string Value) : gmap string Value :=
  fold_left (fun d m => apply m d) ms d.

(** *** The lock invariant *)

Definition holds_r (th : Thread) : bool :=
  match code th with
  | Read _ :: _ | RUnlock :: _ => true
  | _ => false
  end.

Definition holds_w (th : Thread) : bool :=
  match code th with
  | Write _ _ :: _ | Unlock :: _ => true
  | _ => false
  end.

Definition count_r (ts : list Thread) : nat :=
  length (filter (fun th => holds_r th = true) ts).

(** Code between [Lock] and the end of a writing method. *)
Fixpoint write_section (c : list Instr) : bool :=
  match c with
  | [Unlock] => true
  | Write _ _ :: rest => write_section rest
  | _ => false
  end.

Fixpoint apply_code (c : list Instr) (d : gmap string Value) : gmap string Value :=
  match c with
  | [] => d
  | Write key value :: rest => apply_code rest (State_Set key value d)
  | _ :: rest => apply_code rest d
  end.

(** Where a goroutine can be in its method: [d] is the map, [committed]
    the map as the completed calls have left it. *)
Definition thread_inv (d committed : gmap string Value) (th : Thread) : Prop :=
  match code th with
  | [] => True
  | RLock :: rest => exists key, rest = [Read key; RUnlock]
  | Read _ :: rest => rest = [RUnlock]
  | RUnlock :: rest => rest = []
  | Lock :: rest =>
      exists m, running th = Some m /\ write_section rest = true
                /\ forall d', apply_code rest d' = apply m d'
  | Write _ _ :: _ | Unlock :: _ =>
      exists m, running th = Some m /\ write_section (code th) = true
                /\ apply_code (code th) d = apply m committed
  end.

(** At most one goroutine is in a write section. *)
Definition unique_w (ts : list Thread) : Prop :=
  forall i j th th',
    ts !! i = Some th -> ts !! j = Some th' ->
    holds_w th = true -> holds_w th' = true -> i = j.

Definition Inv (init : gmap string Value) (c : Config) : Prop :=
  let committed := apply_all (history c) init in
  (forall i th, threads c !! i = Some th -> thread_inv (data c) committed th)
  /\ readers (mu c) = count_r (threads c)
  /\ (writer (mu c) = false ->
      (forall i th, threads c !! i = Some th -> holds_w th = false)
      /\ data c = committed)
  /\ (writer (mu c) = true -> readers (mu c) = 0%nat)
  /\ unique_w (threads c)
  /\ Forall (fun r => exists n, (n <= length (history c))%nat
                                /\ r.2 = apply_all (take n (history c)) init !! r.1.2)
            (returned c).

(** Every call in the history, under way or still to be made is one
    of the calls [all] of the programs. *)
Definition from_programs (all : list Method) (c : Config) : Prop :=
  Forall (fun m => m ∈ all) (history c)
  /\ forall i th, threads c !! i = Some th ->
                  (forall m, running th = Some m -> m ∈ all)
                  /\ Forall (fun m => m ∈ all) (todo th).

End state_locking.

(** ** The combinators as the specification words them

    Reference definitions, written from the sentences of the
    specification and not from the code, against which the goroutines
    of module [agents] are compared. *)
Module spec.
Import events agents.

(** "Each child's full output stream": every child is run on its
    own, to the close of its channel, one after the other; a child
    whose [RunAsync] returns an error has the empty stream. *)
Fixpoint children_streams (children : list Agent) (ctx : InvocationContext)
    (env : Env) : list (list Act) * Env :=
  match children with
  | [] => ([], env)
  | c :: cs =>
      match RunAsync c ctx with
      | Err _ =>
          let '(ts, env') := children_streams cs ctx env in ([] :: ts, env')
      | Ok p =>
          let '(t, env1) := exec p env in
          let '(ts, env2) := children_streams cs ctx env1 in
          (t :: ts, env2)
      end
  end.

(** "One pass over all children, in sequential-combinator fashion". *)
Definition full_pass (children : list Agent) (ctx : InvocationContext)
    (env : Env) : list Act * Env :=
  let '(ts, env') := children_streams children ctx env in (concat ts, env').

(** "Exactly K full passes over the children". *)
Fixpoint full_passes (K : nat) (children : list Agent) (ctx : InvocationContext)
    (env : Env) : list Act * Env :=
  match K with
  | O => ([], env)
  | S K' =>
      let '(t, env1) := full_pass children ctx env in
      let '(t', env2) := full_passes K' children ctx env1 in
      (t ++ t', env2)
  end.

(** "No exit signal ever set" over K passes: at the start of each
    pass the state does not hold the exit flag, and no event of the
    pass requests the exit. *)
Fixpoint no_exit_signal (K : nat) (children : list Agent) (ctx : InvocationContext)
    (env : Env) : Prop :=
  match K with
  | O => True
  | S K' =>
      exit_flag (state env !! "exit_loop") = false
      /\ Forall (fun e => shouldExitLoopFromEvent e = false)
                (sent (full_pass children ctx env).1)
      /\ no_exit_signal K' children ctx (full_pass children ctx env).2
  end.

(** "The first text part of the final response event": the text that
    a finished turn leaves under the output key, if any. *)
Definition final_text (e : Event) : option string :=
  if IsFinalResponse e then
    match Content_ e with
    | Some c =>
        match Parts c with
        | part :: _ => Some (Text part)
        | [] => None
        end
    | None => None
    end
  else None.

(** "Write its text into session state, then forward the event": the
    state writes and sends that one backend event gives rise to. *)
Definition turn_trace (outputKey : string) (e : Event) : list Act :=
  match final_text e with
  | Some text => [ActStateSet outputKey (VString text); ActSend e]
  | None => [ActSend e]
  end.

(** The state after the turns of a backend stream. *)
Definition after_turns (outputKey : string) (evs : list Event) (env : Env) : Env :=
  fold_left
    (fun env e =>
       match final_text e with
       | Some text => mkEnv (<[outputKey := VString text]> (state env)) (llms env)
       | None => env
       end)
    evs env.

End spec.

(** ** Traces and invariants

    What the properties below say about a run: the callback in front
    of a goroutine, projections of traces, and the invariant of the
    session store. *)
Module traces.
Import events agents.

(** A callback in front of a run: its entry in the trace, the
    environment it leaves, and whether the run goes on ([false] when
    the callback returned an error). *)
Definition run_before (cb : option Callback) (env : Env) : list Act * Env * bool :=
  match cb with
  | None => ([], env, true)
  | Some f =>
      let '(st, err) := f (state env) in
      ([ActCallback err], mkEnv st (llms env),
       match err with Some _ => false | None => true end)
  end.

(** The state writes and sends of a trace. *)
Fixpoint writes_and_sends (t : list Act) : list Act :=
  match t with
  | [] => []
  | ActSend e :: t' => ActSend e :: writes_and_sends t'
  | ActStateSet k v :: t' => ActStateSet k v :: writes_and_sends t'
  | _ :: t' => writes_and_sends t'
  end.

(** Does some state write follow some send in the trace? *)
Fixpoint has_write (t : list Act) : bool :=
  match t with
  | [] => false
  | ActStateSet _ _ :: _ => true
  | _ :: t' => has_write t'
  end.

Fixpoint write_after_send (t : list Act) : bool :=
  match t with
  | [] => false
  | ActSend _ :: t' => has_write t'
  | _ :: t' => write_after_send t'
  end.


(** Every pointer in the table of the session service points to a
    session on the heap. *)
Definition store_wf (s : sessions.InMemorySessionService) (h : sessions.Heap) : Prop :=
  forall key p, sessions.sessions s !! key = Some p ->
                is_Some (sessions.session_objs h !! p).

(** The persisted event list of a session, empty while the store
    does not hold the session. *)
Definition persisted (w : runners.World) (appName userID sessionID : string)
  : list Event :=
  match sessions.ListEvents (runners.SessionService w) (runners.heap w)
                            appName userID sessionID with
  | Ok (Some l) => l
  | _ => []
  end.

(** In a trace of the runner, every send on the output channel comes
    right after the [AppendEvent] of the same event. *)
Definition appended_first (t : list runners.RunnerAct) : Prop :=
  forall t1 e t2,
    t = t1 ++ runners.ROutput e :: t2 ->
    exists t0, t1 = t0 ++ [runners.RAppendEvent e].

(** The state of a session of the store, empty for a session that the
    store does not hold (it is created with an empty state). *)
Definition session_state (w : runners.World) (appName userID sessionID : string)
  : gmap string Value :=
  match sessions.sessions (runners.SessionService w)
          !! sessions.sessionKey appName userID sessionID with
  | Some p =>
      match sessions.session_objs (runners.heap w) !! p with
      | Some s => runners.state_at (sessions.State s) (runners.heap w)
      | None => ∅
      end
  | None => ∅
  end.

(** What the root agent produces: the events that its goroutine sends
    when it runs on the state of the session and on the registry of
    the world in which the run starts. *)
Definition produced (proc : agents.Proc) (w : runners.World)
    (appName userID sessionID : string) : list Event :=
  agents.sent
    (agents.exec proc
       (agents.mkEnv (session_state w appName userID sessionID) (runners.llms w))).1.

(** The calls of the relaying goroutine for a list of events: each
    event is passed to [AppendEvent] and then sent on. *)
Definition relayed (evs : list Event) : list runners.RunnerAct :=
  flat_map (fun e => [runners.RAppendEvent e; runners.ROutput e]) evs.

End traces.

(** ** Concrete stores, agents and runs used by the examples below *)
Module fixtures.
Import events sessions.

Definition time0 : nat -> Z := fun n => Z.of_nat n.
Definition uuid0 : nat -> string := fun n => "uuid-" +:+ String (ascii_of_nat (65 + n)) "".

Definition empty_service : InMemorySessionService := mkService ∅.
Definition empty_heap : Heap := mkHeap 0 0 ∅ ∅.

(** The store after [CreateSession("a", "b:c", "d", nil)]. *)
Definition colon_store : InMemorySessionService * Heap :=
  (CreateSession time0 uuid0 empty_service empty_heap "a" "b:c" "d" None).1.

(** The store after [CreateSession("a", "b", "", nil)]. *)
Definition anonymous_store : InMemorySessionService * Heap :=
  (CreateSession time0 uuid0 empty_service empty_heap "a" "b" "" None).1.

(** The store of the repository's list test: two sessions of one user
    and one of another. *)
Definition three_sessions : InMemorySessionService * Heap :=
  let '(s1, h1, _) :=
    CreateSession time0 uuid0 empty_service empty_heap
                  "test_app" "test_user" "session1" None in
  let '(s2, h2, _) :=
    CreateSession time0 uuid0 s1 h1 "test_app" "test_user" "session2" None in
  let '(s3, h3, _) :=
    CreateSession time0 uuid0 s2 h2 "test_app" "other_user" "session3" None in
  (s3, h3).

(** The registry after [init], an agent on a gemini model, and a
    run of other calls into the registry. *)
Definition registry0 : models.World := models.init "uuid-m" 3.

Definition flash_agent : agents.LlmAgent :=
  agents.NewLlmAgent "assistant" "gemini-2.0-flash" "Answer.".

Definition flash_llm : models.LLM :=
  models.NewGeminiLLM "uuid-m" 3 "gemini-2.0-flash" 0.

Definition other_calls : list models.Call :=
  [models.CallNewLLM "gemini-1.5-pro";
   models.CallRegister "gemini" (fun _ _ => None);
   models.CallNewLLM "gemini-2.0-flash";
   models.CallNewLLM "gpt"].

Definition session0 : sessions.Session := sessions.mkSession "s1" "app" "u1" 0 [] 0.
Definition ctx0 : agents.InvocationContext := agents.mkInvocationContext session0.
Definition env0 : agents.Env := agents.mkEnv ∅ registry0.

Definition hello : Event :=
  set_Content (Some (mkContent "model" [mkPart "hello"]))
              (set_Author "bot" (NewEventWithID "e1" 7)).

Definition bye : Event :=
  set_SkipSummarization true
    (set_Content (Some (mkContent "model" [mkPart "bye"]))
                 (set_Author "bot" (NewEventWithID "e2" 8))).

(** Agents of the caller's own: one that sends [hello], one that
    sends [bye] (which requests the loop exit) and then [hello], and
    one whose [RunAsync] returns an error. *)
Definition speaker : agents.Agent :=
  agents.mkAgent "speaker" "" (fun _ => Ok (agents.Send hello agents.Close))
                 (fun _ => Ok agents.Close).

Definition leaver : agents.Agent :=
  agents.mkAgent "leaver" ""
    (fun _ => Ok (agents.Send bye (agents.Send hello agents.Close)))
    (fun _ => Ok agents.Close).

Definition broken : agents.Agent :=
  agents.mkAgent "broken" "" (fun _ => Err "boom") (fun _ => Err "boom").

Definition deny : agents.Callback := fun st => (st, Some "denied").

Definition sequential_ok : agents.SequentialAgent :=
  agents.NewSequentialAgent "seq" [speaker; broken; speaker].

Definition sequential_denied : agents.SequentialAgent :=
  agents.mkSequentialAgent
    (agents.mkBaseAgent "seq" "" [speaker] (Some deny) None).

Definition loop_ok : agents.LoopAgent :=
  agents.NewLoopAgent "loop" [speaker; broken] 2.

Definition loop_denied : agents.LoopAgent :=
  agents.mkLoopAgent (agents.mkBaseAgent "loop" "" [speaker] (Some deny) None) 1.

Definition loop_leaving : agents.LoopAgent :=
  agents.NewLoopAgent "loop" [speaker; leaver; speaker] 3.

(** An agent that sends [bye], then writes to the state, and would
    then send [hello]; a callback that writes to the state; and a loop
    agent over the former with the latter as its after-agent
    callback. *)
Definition late_writer : agents.Agent :=
  agents.mkAgent "late_writer" ""
    (fun _ => Ok (agents.Send bye
                    (agents.StateSet "after" (VBool true)
                       (agents.Send hello agents.Close))))
    (fun _ => Ok agents.Close).

Definition mark_done : agents.Callback :=
  fun st => (<["done" := VBool true]> st, None).

Definition loop_abandoning : agents.LoopAgent :=
  agents.mkLoopAgent
    (agents.mkBaseAgent "loop" "" [speaker; late_writer; speaker] None (Some mark_done))
    3.

Definition keyed_agent : agents.LlmAgent :=
  agents.SetOutputKey "answer" flash_agent.

(** An [Update] of two keys next to a goroutine that reads them. *)
Definition old_state : gmap string Value :=
  {[ "k1" := VInt 0; "k2" := VInt 0 ]}.

Definition two_goroutines : list (list state_locking.Method) :=
  [[state_locking.Update [("k1", VInt 1); ("k2", VInt 2)]];
   [state_locking.Get "k1"; state_locking.Get "k2"]].

(** A schedule of [two_goroutines]: goroutine 1 is inside [Get("k1")],
    holding the read lock, when goroutine 0 calls [Update]; the
    [Update] takes the lock after that [Get] has returned and before
    goroutine 1 calls [Get("k2")]. *)
Definition update_between_reads : list nat :=
  [1; 1; 0; 1; 1; 0; 0; 0; 0; 1; 1; 1; 1]%nat.

(** A runner on [speaker] over an empty store, and a message. *)
Definition runner0 : runners.Runner := runners.mkRunner speaker "app".

(** An agent of the caller's own that sends the first event of the
    session it is given, and a runner on it. *)
Definition echo : agents.Agent :=
  agents.mkAgent "echo" ""
    (fun ctx => match sessions.Events (agents.Session ctx) with
                | e :: _ => Ok (agents.Send e agents.Close)
                | [] => Ok agents.Close
                end)
    (fun _ => Ok agents.Close).

Definition echo_runner : runners.Runner := runners.mkRunner echo "app".

Definition world0 : runners.World :=
  runners.mkWorld empty_service empty_heap registry0.

Definition question : Content := mkContent "user" [mkPart "hi"].

Definition user_event : Event :=
  set_Content (Some question) (set_Author "user" (NewEvent "uuid-B" 2)).

(** The event of the gemini backend of [registry0]. *)
Definition mock_event : Event :=
  set_IsFinalResponse true
    (set_Content
       (Some (mkContent "model" [mkPart "Mock response from gemini-2.0-flash"]))
       (set_Author "gemini-2.0-flash" (NewEvent "uuid-m" 3))).

End fixtures.

(** ** Runs of calls into the session service *)
Module service_calls.
Import events sessions.

(** A name without the separator of [sessionKey]. *)
Fixpoint no_colon (s : string) : bool :=
  match s with
  | "" => true
  | String c rest => negb (Ascii.eqb c ":") && no_colon rest
  end.

(** The calls of the service that change it. *)
Inductive ServiceCall : Type :=
| CallCreateSession (appName userID sessionID : string)
                    (initialState : option (gmap string Value))
| CallDeleteSession (appName userID sessionID : string)
| CallAppendEvent (appName userID sessionID : string) (event : Event).

Section WithClock.
Variable time_Now : nat -> Z.
Variable uuid_New : nat -> string.

Definition do_call (c : ServiceCall) (sh : InMemorySessionService * Heap)
  : InMemorySessionService * Heap :=
  match c with
  | CallCreateSession a u i st =>
      (CreateSession time_Now uuid_New sh.1 sh.2 a u i st).1
  | CallDeleteSession a u i => ((DeleteSession sh.1 a u i).1, sh.2)
  | CallAppendEvent a u i e => (AppendEvent time_Now sh.1 sh.2 a u i e).1
  end.

Definition do_calls (cs : list ServiceCall) (sh : InMemorySessionService * Heap)
  : InMemorySessionService * Heap :=
  fold_left (fun sh c => do_call c sh) cs sh.

(** [AppendEvent] of each event of a list in turn. *)
Definition append_all (appName userID sessionID : string) (es : list Event)
    (sh : InMemorySessionService * Heap) : InMemorySessionService * Heap :=
  fold_left (fun sh e => (AppendEvent time_Now sh.1 sh.2 appName userID sessionID e).1)
            es sh.

End WithClock.

(** [NewInMemorySessionService] on a heap with nothing allocated. *)
Definition new_store : InMemorySessionService * Heap :=
  (mkService ∅, mkHeap 0 0 ∅ ∅).

(** The table holds each pointer once, and only allocated ones. *)
Definition store_ok (s : InMemorySessionService) (h : Heap) : Prop :=
  (forall key p, sessions.sessions s !! key = Some p ->
                 (p < next_ptr h)%nat /\ is_Some (session_objs h !! p))
  /\ (forall k1 k2 p, sessions.sessions s !! k1 = Some p ->
                      sessions.sessions s !! k2 = Some p -> k1 = k2).

End service_calls.

(** ** Registries reached from [init] by resolutions *)
Module registry_runs.
Import models.

Definition gemini_factory (uuid : string) (now : Z) : Factory :=
  fun modelName addr => Some (NewGeminiLLM uuid now modelName addr).

(** A run of [NewLLM] calls from the state that [init] leaves. *)
Definition resolve_all (uuid : string) (now : Z) (names : list string) : World :=
  do_calls (map CallNewLLM names) (init uuid now).

(** The gemini factory is the registered one, and every cached
    instance is a gemini handle of its own name at an address of its
    own, below the allocator. *)
Definition gemini_inv (uuid : string) (now : Z) (w : World) : Prop :=
  models_ (defaultRegistry w) !! "gemini" = Some (gemini_factory uuid now)
  /\ (forall m l, instances (defaultRegistry w) !! m = Some l ->
                  exists a, (a < next_llm w)%nat
                            /\ l = Some (NewGeminiLLM uuid now m a))
  /\ (forall m1 m2 l1 l2,
        instances (defaultRegistry w) !! m1 = Some (Some l1) ->
        instances (defaultRegistry w) !! m2 = Some (Some l2) ->
        llm_addr l1 = llm_addr l2 -> m1 = m2).

End registry_runs.

(** ** More reference definitions for the agents *)
Module agents_ref.
Import events agents.

(** The goroutine of [K] passes over the sub-agents without any test
    of an exit, one pass being the loop of the sequential agent. *)
Fixpoint pass_procs (K : nat) (subAgents : list Agent) (ctx : InvocationContext) : Proc :=
  match K with
  | O => Close
  | S K' => run_sub_agents subAgents ctx (pass_procs K' subAgents ctx)
  end.

(** The stream that the backend of an agent answers with, if the
    model resolves to a handle and the handle returns a stream. *)
Definition backend_stream (a : LlmAgent) (ctx : InvocationContext) (w : models.World)
  : option (list Event) :=
  match (GetCanonicalModel a w).1.1 with
  | Some l =>
      match models.GenerateContentAsync l (buildLLMRequest a ctx) with
      | Ok evs => Some evs
      | Err _ => None
      end
  | None => None
  end.

(** The entry of the trace for the resolution of the model, made only
    when the agent holds no handle yet. *)
Definition resolve_act (a : LlmAgent) : list Act :=
  match llm a with
  | None => [ActResolve (Model a)]
  | Some _ => []
  end.

End agents_ref.

(** ** The other entry points of the runner *)
Module runner_calls.
Import events sessions runners.

Section WithClock.
Variable time_Now : nat -> Z.
Variable uuid_New : nat -> string.

(** [Run]: the channel of [RunAsync] drained, the last event received
    kept; nil ([None]) when the channel closes without an event. *)
Definition Run (r : Runner) (userID sessionID : string)
    (newMessage : option Content) (w : World)
  : Result (option Event) * list RunnerAct * World :=
  match RunAsync time_Now uuid_New r userID sessionID newMessage w with
  | (Err e, t, w') => (Err e, t, w')
  | (Ok eventChan, t, w') => (Ok (last eventChan), t, w')
  end.

(** [RunLive]: as [RunAsync] without a message, on the [RunLive] of
    the root agent.  The trace holds the calls of the relaying
    goroutine. *)
Definition RunLive (r : Runner) (userID sessionID : string) (w : World)
  : Result (list Event) * list RunnerAct * World :=
  match getOrCreateSession time_Now uuid_New r userID sessionID w with
  | (Err e, w) => (Err ("failed to get or create session: " +:+ e), [], w)
  | (Ok session, w) =>
      match session_objs (heap w) !! session with
      | None => (Err "invalid memory address or nil pointer dereference", [], w)
      | Some s =>
          let invocationCtx := agents.mkInvocationContext s in
          match agents.RunLive (Agent r) invocationCtx with
          | Err e => (Err ("failed to run agent in live mode: " +:+ e), [], w)
          | Ok eventChan =>
              let '(t, w') := relay time_Now r userID sessionID (State s) eventChan w in
              (Ok (observed t), t, w')
          end
      end
  end.

End WithClock.

End runner_calls.

(** ** ParallelAgent *)
Module parallel.
Import events agents traces.

Record ParallelAgent := mkParallelAgent { par_BaseAgent : BaseAgent }.

Definition NewParallelAgent (name : string) (subAgents : list Agent) : ParallelAgent :=
  mkParallelAgent
    (fold_left (fun b s => AddSubAgent s b) subAgents
               (NewBaseAgent name "Parallel execution agent")).

(** One step of a goroutine: the effect it has, what is left of it,
    and the environment afterwards; a goroutine that has closed its
    channel makes no step.  The steps are those of [exec]. *)
Definition step (p : Proc) (env : Env) : option (list Act * Proc * Env) :=
  match p with
  | Close => None
  | Send e k => Some ([ActSend e], k, env)
  | StateGet key k => Some ([], k (sessions.State_Get key (state env)), env)
  | StateSet key v k =>
      Some ([ActStateSet key v], k,
            mkEnv (sessions.State_Set key v (state env)) (llms env))
  | Invoke cb k =>
      let '(st, err) := cb (state env) in
      Some ([ActCallback err], k err, mkEnv st (llms env))
  | ModelsResolve m k =>
      let '(r, w) := models.Resolve m (llms env) in
      Some ([ActResolve m], k r, mkEnv (state env) w)
  end.

(** The goroutines started by the loop over [a.SubAgents], one for
    each sub-agent: each forwards what its sub-agent sends to the one
    channel of the parallel agent; the goroutine of a sub-agent whose
    [RunAsync] returns an error is done at once. *)
Definition forwarders (subAgents : list Agent) (invocationCtx : InvocationContext)
  : list Proc :=
  map (fun subAgent =>
         match RunAsync subAgent invocationCtx with
         | Err _ => Close
         | Ok subEventChan => subEventChan
         end)
      subAgents.

(** The runs of the started goroutines up to [wg.Wait] returning:
    at each step any one of them that is not done makes its next
    step, and the wait ends when all are done. *)
Inductive interleave : list Proc -> Env -> list Act -> Env -> Prop :=
| interleave_done (ps : list Proc) (env : Env) :
    Forall (fun p => p = Close) ps ->
    interleave ps env [] env
| interleave_step (ps : list Proc) (env : Env) (i : nat) (p p' : Proc)
    (acts t : list Act) (env1 env2 : Env) :
    ps !! i = Some p ->
    step p env = Some (acts, p', env1) ->
    interleave (<[i := p']> ps) env1 t env2 ->
    interleave ps env (acts ++ t) env2.

(** The goroutine of [RunAsync]: the before-agent callback, the
    sub-agents side by side, the after-agent callback. *)
Definition ParallelAgent_run (a : ParallelAgent) (invocationCtx : InvocationContext)
    (env : Env) (t : list Act) (env' : Env) : Prop :=
  let '(tb, env0, ok) := run_before (BeforeAgentCallback (par_BaseAgent a)) env in
  if ok then
    exists tc env1,
      interleave (forwarders (SubAgents (par_BaseAgent a)) invocationCtx) env0 tc env1
      /\ t = tb ++ tc ++ (run_before (AfterAgentCallback (par_BaseAgent a)) env1).1.1
      /\ env' = (run_before (AfterAgentCallback (par_BaseAgent a)) env1).1.2
  else t = tb /\ env' = env0.

(** A goroutine that only sends the events of a list. *)
Definition stream_proc (evs : list Event) : Proc := fold_right Send Close evs.

(** A sub-agent whose channel carries a fixed list of events (none
    when its [RunAsync] returns an error). *)
Definition child_stream (invocationCtx : InvocationContext)
    (subAgent : Agent) (evs : list Event) : Prop :=
  match RunAsync subAgent invocationCtx with
  | Ok p => p = stream_proc evs
  | Err _ => evs = []
  end.

End parallel.

(** ** The agent hierarchy of [BaseAgent] *)
Module hierarchy.
Import events agents.

(** The lookups by name, which module [agents] leaves out, on the
    tree of agents itself.  An agent with the agents below it: the
    name and description of its [BaseAgent], the [RunAsync] of the
    type that embeds it, and its [SubAgents].  The lookups are the
    methods of [BaseAgent], which every agent type of the package
    inherits unchanged; the [ParentAgent] back-references are not
    modelled. *)
#[warnings="-register-all"]
Inductive Node : Type :=
| mkNode (name description : string) (run : InvocationContext -> Result Proc)
         (subAgents : list Node).

Definition node_name (n : Node) : string :=
  match n with mkNode name _ _ _ => name end.

Definition node_run (n : Node) : InvocationContext -> Result Proc :=
  match n with mkNode _ _ run _ => run end.

Definition node_subs (n : Node) : list Node :=
  match n with mkNode _ _ _ subAgents => subAgents end.

(** The receiver of a [BaseAgent] method handed out as an [Agent]:
    the embedded [BaseAgent] itself, whose [RunAsync] is the base
    implementation. *)
Definition as_base (n : Node) : Node :=
  match n with
  | mkNode name description _ subAgents =>
      mkNode name description (fun _ => Ok Close) subAgents
  end.

(** [FindAgent]; nil is [None]. *)
Fixpoint FindAgent (n : Node) (name : string) : option Node :=
  match n with
  | mkNode nm _ _ subAgents =>
      if String.eqb nm name then Some (as_base n)
      else
        (fix search (l : list Node) : option Node :=
           match l with
           | [] => None
           | subAgent :: rest =>
               match FindAgent subAgent name with
               | Some found => Some found
               | None => search rest
               end
           end) subAgents
  end.

(** [FindSubAgent]: the direct sub-agents only. *)
Definition FindSubAgent (n : Node) (name : string) : option Node :=
  List.find (fun subAgent => String.eqb (node_name subAgent) name) (node_subs n).

(** The agents of a tree, an agent before the agents below it, the
    sub-agents in list order. *)
Fixpoint flatten (n : Node) : list Node :=
  match n with
  | mkNode _ _ _ subAgents =>
      n :: (fix go (l : list Node) : list Node :=
              match l with
              | [] => []
              | subAgent :: rest => flatten subAgent ++ go rest
              end) subAgents
  end.

End hierarchy.

(** ** Package artifacts: the in-memory service *)
Module artifacts.

Record ArtifactVersion := mkArtifactVersion {
  Version : Z;
  Data : list Byte.byte;
  Timestamp : Z;
  Metadata : gmap string Value
}.

(** The service: for each key its versions, oldest first.  A stored
    version is never written to again by the service. *)
Record InMemoryArtifactService := mkArtifactService {
  artifacts_ : gmap string (list ArtifactVersion)
}.

Definition NewInMemoryArtifactService : InMemoryArtifactService :=
  mkArtifactService ∅.

(** [SaveArtifact], which always returns a nil error; [now] is the
    reading of the clock. *)
Definition SaveArtifact (now : Z) (key : string) (data : list Byte.byte)
    (metadata : gmap string Value) (a : InMemoryArtifactService)
  : InMemoryArtifactService :=
  let versions := default [] (artifacts_ a !! key) in
  let newVersion :=
    mkArtifactVersion (Z.of_nat (length versions) + 1)%Z data now metadata in
  mkArtifactService (<[key := versions ++ [newVersion]]> (artifacts_ a)).

Definition LoadArtifact (key : string) (a : InMemoryArtifactService)
  : Result (list Byte.byte) :=
  match artifacts_ a !! key with
  | Some versions =>
      match last versions with
      | Some latestVersion => Ok (Data latestVersion)
      | None => Err ("artifact not found: " +:+ key)
      end
  | None => Err ("artifact not found: " +:+ key)
  end.

(** [DeleteArtifact], which always returns a nil error. *)
Definition DeleteArtifact (key : string) (a : InMemoryArtifactService)
  : InMemoryArtifactService :=
  mkArtifactService (delete key (artifacts_ a)).

(** [ListArtifactKeys]: the keys of the map, in no order that the
    language fixes. *)
Definition ListArtifactKeys (a : InMemoryArtifactService) : list string :=
  (map_to_list (artifacts_ a)).*1.

Definition ListVersions (key : string) (a : InMemoryArtifactService)
  : Result (list ArtifactVersion) :=
  match artifacts_ a !! key with
  | Some versions => Ok versions
  | None => Err ("artifact not found: " +:+ key)
  end.

(** The calls that change the service, and a run of them. *)
Inductive ArtifactCall : Type :=
| CallSaveArtifact (now : Z) (key : string) (data : list Byte.byte)
                   (metadata : gmap string Value)
| CallDeleteArtifact (key : string).

Definition do_call (c : ArtifactCall) (a : InMemoryArtifactService)
  : InMemoryArtifactService :=
  match c with
  | CallSaveArtifact now key data metadata => SaveArtifact now key data metadata a
  | CallDeleteArtifact key => DeleteArtifact key a
  end.

Definition do_calls (cs : list ArtifactCall) (a : InMemoryArtifactService)
  : InMemoryArtifactService :=
  fold_left (fun a c => do_call c a) cs a.

(** Every key has at least one version, and the versions of a key
    are numbered from 1 in the order in which they were saved. *)
Definition numbered (a : InMemoryArtifactService) : Prop :=
  forall key versions,
    artifacts_ a !! key = Some versions ->
    versions <> []
    /\ forall i v, versions !! i = Some v -> Version v = (Z.of_nat i + 1)%Z.

End artifacts.

(** ** Progress of the goroutines on one [State] *)
Module state_progress.
Import sessions state_locking.

(** Every goroutine has returned from its last call. *)
Definition finished (c : Config) : Prop :=
  forall i th, threads c !! i = Some th -> code th = [] /\ todo th = [].

(** The lock as [sync.RWMutex] has it, with the waiting that
    [state_locking.step] leaves out.  [announced] is the goroutine
    that is inside [Lock] past the mutex of the writers, or holds the
    lock for writing: from there to its [Unlock] every other [Lock]
    waits, and so does every new [RLock].  [blocked] lists the
    goroutines that wait inside [RLock]; the [Unlock] lets them all
    in, ahead of the next [Lock]. *)
Record Strict := mkStrict {
  base : Config;
  announced : option nat;
  blocked : list nat
}.

Definition is_blocked (i : nat) (c : Strict) : bool :=
  existsb (Nat.eqb i) (blocked c).

(** A goroutine that waited inside [RLock] returns from it with the
    read lock. *)
Definition release1 (b : Config) (j : nat) : Config :=
  match threads b !! j with
  | Some th =>
      match code th with
      | RLock :: _ => default b (step j b)
      | _ => b
      end
  | None => b
  end.

Definition release (js : list nat) (b : Config) : Config :=
  fold_left release1 js b.

(** One step of goroutine [i], [None] when it has nothing left to do
    or waits.  [RLock] with a writer announced only joins the waiting
    readers.  [Lock] announces itself when no writer is announced, and
    then takes the lock once no reader holds it. *)
Definition strict_step (i : nat) (c : Strict) : option Strict :=
  if is_blocked i c then None
  else
    match threads (base c) !! i with
    | None => None
    | Some th =>
        match code th with
        | RLock :: _ =>
            match announced c with
            | Some _ => Some (mkStrict (base c) (announced c) (i :: blocked c))
            | None =>
                match step i (base c) with
                | Some b => Some (mkStrict b None (blocked c))
                | None => None
                end
            end
        | Lock :: _ =>
            match announced c with
            | None => Some (mkStrict (base c) (Some i) (blocked c))
            | Some j =>
                if Nat.eqb i j then
                  match step i (base c) with
                  | Some b => Some (mkStrict b (Some i) (blocked c))
                  | None => None
                  end
                else None
            end
        | Unlock :: _ =>
            match step i (base c) with
            | Some b => Some (mkStrict (release (blocked c) b) None [])
            | None => None
            end
        | _ =>
            match step i (base c) with
            | Some b => Some (mkStrict b (announced c) (blocked c))
            | None => None
            end
        end
    end.

Fixpoint strict_run (schedule : list nat) (c : Strict) : option Strict :=
  match schedule with
  | [] => Some c
  | i :: rest =>
      match strict_step i c with
      | Some c' => strict_run rest c'
      | None => None
      end
  end.

Definition strict_initial (init : gmap string Value) (programs : list (list Method))
  : Strict :=
  mkStrict (initial init programs) None [].

(** The waiting readers are at their [RLock]; the announced goroutine
    is at its [Lock] while the lock is not held for writing, or is
    inside its writing method; with no goroutine announced the lock is
    not held for writing and no reader waits. *)
Definition strict_inv (c : Strict) : Prop :=
  (forall i, In i (blocked c) ->
             exists th rest, threads (base c) !! i = Some th /\ code th = RLock :: rest)
  /\ match announced c with
     | None => writer (mu (base c)) = false /\ blocked c = []
     | Some j =>
         exists th, threads (base c) !! j = Some th
                    /\ (((exists rest, code th = Lock :: rest)
                         /\ writer (mu (base c)) = false)
                        \/ holds_w th = true)
     end.

End state_progress.

(** ** Concrete inputs for the instances at the end *)
Module more_fixtures.
Import events sessions fixtures.

(** The store after [CreateSession("app", "u1", "s1", nil)], and the
    session it holds. *)
Definition one_session : InMemorySessionService * Heap :=
  (CreateSession time0 uuid0 empty_service empty_heap "app" "u1" "s1" None).1.

Definition session_s1 : Session := mkSession "s1" "app" "u1" 0 [] 0.

Definition two_creates : list service_calls.ServiceCall :=
  [service_calls.CallCreateSession "app" "u1" "s1" None;
   service_calls.CallCreateSession "app" "u2" "s2" None].

Definition two_updates : list (string * Value) := [("k1", VInt 1); ("k2", VInt 2)].

Definition pro_llm : models.LLM := models.NewGeminiLLM "uuid-m" 3 "gemini-1.5-pro" 1.

(** An agent for a model that no factory serves. *)
Definition unknown_agent : agents.LlmAgent :=
  agents.NewLlmAgent "assistant" "gpt-4" "Answer.".

Definition idle_loop : agents.LoopAgent := agents.NewLoopAgent "loop" [speaker] 0.

(** An agent of the caller's own whose live mode sends [hello]. *)
Definition live_speaker : agents.Agent :=
  agents.mkAgent "live" "" (fun _ => Ok agents.Close)
                 (fun _ => Ok (agents.Send hello agents.Close)).

Definition live_runner : runners.Runner := runners.mkRunner live_speaker "app".

Definition sequential_runner : runners.Runner :=
  runners.mkRunner (agents.SequentialAgent_Agent sequential_ok) "app".

Definition parallel_ok : parallel.ParallelAgent :=
  parallel.NewParallelAgent "par" [speaker; broken; speaker].

(** A root that sends [hello] with two sub-agents that do the same. *)
Definition small_tree : hierarchy.Node :=
  hierarchy.mkNode "root" "" (fun _ => Ok (agents.Send hello agents.Close))
    [hierarchy.mkNode "a" "" (fun _ => Ok (agents.Send hello agents.Close)) [];
     hierarchy.mkNode "b" "" (fun _ => Ok (agents.Send hello agents.Close)) []].

Definition two_saves : list artifacts.ArtifactCall :=
  [artifacts.CallSaveArtifact 1 "report" [Byte.x01] ∅;
   artifacts.CallSaveArtifact 2 "report" [Byte.x02] ∅].

(** The goroutines of [two_goroutines] when the first is past the
    [Lock] of its [Update]. *)
Definition writing_config : state_locking.Config :=
  default (state_locking.initial old_state two_goroutines)
          (state_locking.run [0; 0]%nat (state_locking.initial old_state two_goroutines)).

Definition writing_thread : state_locking.Thread :=
  state_locking.mkThread
    (Some (state_locking.Update two_updates))
    [state_locking.Write "k1" (VInt 1); state_locking.Write "k2" (VInt 2);
     state_locking.Unlock]
    [].

Definition waiting_thread : state_locking.Thread :=
  state_locking.mkThread None [] [state_locking.Get "k1"; state_locking.Get "k2"].

(** An [Update] next to two readers, and the configuration in which
    goroutine 1 holds the read lock, goroutine 0 is inside [Lock]
    waiting for it, and goroutine 2 waits inside [RLock] behind
    goroutine 0. *)
Definition three_goroutines : list (list state_locking.Method) :=
  [[state_locking.Update two_updates];
   [state_locking.Get "k1"];
   [state_locking.Get "k2"]].

Definition writer_waits : list nat := [1; 1; 0; 0; 2; 2]%nat.

Definition waiting_config : state_progress.Strict :=
  default (state_progress.strict_initial old_state three_goroutines)
          (state_progress.strict_run writer_waits
             (state_progress.strict_initial old_state three_goroutines)).

End more_fixtures.

(** * Properties *)

(** ** The session store *)
Section SessionStore.
Import events sessions.
Variable time_Now : nat -> Z.
Variable uuid_New : nat -> string.

(** C10.  Appending to a session that the store does not hold (for
    which [GetSession] answers nil) returns a nil error and leaves the
    service table and the heap exactly as they were. *)
Theorem AppendEvent_missing_session
    (s : InMemorySessionService) (h : Heap)
    (appName userID sessionID : string) (event : Event) :
  GetSession s appName userID sessionID = Ok None ->
  AppendEvent time_Now s h appName userID sessionID event = (s, h, None).
Proof.
  unfold GetSession, AppendEvent.
  destruct (sessions s !! sessionKey appName userID sessionID) as [p|] eqn:Hk.
  - intros Hget. discriminate Hget.
  - intros _. reflexivity.
Qed.

(** The events of a missing session stay missing after the append. *)
Lemma AppendEvent_missing_ListEvents
    (s : InMemorySessionService) (h : Heap)
    (appName userID sessionID : string) (event : Event) :
  GetSession s appName userID sessionID = Ok None ->
  let '(s', h', _) := AppendEvent time_Now s h appName userID sessionID event in
  ListEvents s' h' appName userID sessionID = Ok None.
Proof.
  intros Hget. unfold GetSession in Hget. unfold AppendEvent, ListEvents.
  destruct (sessions s !! sessionKey appName userID sessionID) eqn:Hk;
    [discriminate | simpl; rewrite Hk; reflexivity].
Qed.

Lemma append_nil_l (s : string) : "" +:+ s = s.
Proof. reflexivity. Qed.

Lemma append_cons (a : ascii) (s t : string) :
  String a s +:+ t = String a (s +:+ t).
Proof. reflexivity. Qed.

(** The test of [ListSessions] holds of a key exactly when the key is
    the prefix followed by at least one more byte. *)
Lemma key_matches_spec (prefix key : string) :
  key_matches prefix key = true <->
  exists rest, rest <> "" /\ key = prefix +:+ rest.
Proof.
  unfold key_matches. rewrite andb_true_iff, Nat.ltb_lt, String.eqb_eq.
  revert key. induction prefix as [|a p IH]; intros key.
  - setoid_rewrite append_nil_l. destruct key as [|b k]; simpl.
    + split; [lia | intros (rest & Hne & Heq); congruence].
    + split; [intros _; exists (String b k); split; [discriminate | reflexivity] | ].
      intros _. split; [lia | reflexivity].
  - setoid_rewrite append_cons. destruct key as [|b k]; simpl.
    + split; [lia | intros (rest & _ & Heq); discriminate Heq].
    + split.
      * intros [Hlen Hsub]. injection Hsub as -> Hsub.
        destruct (proj1 (IH k)) as (rest & Hne & ->); [split; [lia | exact Hsub] | ].
        exists rest. split; [exact Hne | reflexivity].
      * intros (rest & Hne & Heq). injection Heq as -> ->.
        destruct (proj2 (IH (p +:+ rest))) as [Hlen Hsub]; [by exists rest | ].
        split; [lia | by rewrite Hsub].
Qed.

(** [ListSessions] returns the pointers stored under the matching keys. *)
Lemma ListSessions_spec (s : InMemorySessionService) (appName userID : string)
    (p : SessionPtr) :
  (exists l, ListSessions s appName userID = Ok l /\ p ∈ l) <->
  exists key, sessions s !! key = Some p
              /\ key_matches ((appName +:+ ":") +:+ userID +:+ ":") key = true.
Proof.
  unfold ListSessions. split.
  - intros (l & Hl & Hin). injection Hl as <-.
    apply list_elem_of_fmap in Hin as ([key q] & -> & Hin).
    apply list_elem_of_filter in Hin as [Hm Hin].
    apply elem_of_map_to_list in Hin. exists key. split; assumption.
  - intros (key & Hk & Hm). eexists. split; [reflexivity | ].
    apply list_elem_of_fmap. exists (key, p). split; [reflexivity | ].
    apply list_elem_of_filter. split; [exact Hm | ].
    by apply elem_of_map_to_list.
Qed.

End SessionStore.

Section SessionStoreExamples.
Import events sessions fixtures.

(** The repository's own tests of the store and of the exit flag. *)
Example ListSessions_two_of_three :
  exists l, ListSessions three_sessions.1 "test_app" "test_user" = Ok l
            /\ length l = 2%nat.
Proof. eexists. split; vm_compute; reflexivity. Qed.

Example AppendEvent_then_ListEvents :
  let '(s, h, _) :=
    AppendEvent time0 three_sessions.1 three_sessions.2
                "test_app" "test_user" "session1" hello in
  ListEvents s h "test_app" "test_user" "session1" = Ok (Some [hello]).
Proof. vm_compute. reflexivity. Qed.

Example exit_flag_values :
  agents.exit_flag (State_Get "exit_loop" ∅) = false
  /\ agents.exit_flag (State_Get "exit_loop" (State_Set "exit_loop" (VBool true) ∅)) = true
  /\ agents.exit_flag (State_Get "exit_loop" (State_Set "exit_loop" (VBool false) ∅)) = false
  /\ agents.exit_flag (State_Get "exit_loop" (State_Set "exit_loop" (VString "true") ∅))
     = false.
Proof. repeat split; vm_compute; reflexivity. Qed.

Lemma AppendEvent_missing_session_witness :
  GetSession empty_service "a" "b" "d" = Ok None /\
  AppendEvent time0 empty_service empty_heap "a" "b" "d" hello
  = (empty_service, empty_heap, None).
Proof.
  split; [vm_compute; reflexivity | ].
  apply (AppendEvent_missing_session time0 empty_service empty_heap "a" "b" "d" hello).
  vm_compute; reflexivity.
Defined.

(** C9.  [ListSessions] at the two stores where it departs from the
    claim.  After [CreateSession("a", "b:c", "d", nil)] the list for
    user ["b"] of application ["a"] holds the session of user
    ["b:c"]: the key ["a:b:c:d"] begins with the prefix ["a:b:"].
    After [CreateSession("a", "b", "", nil)] the list for user ["b"]
    is empty although the session is stored under the key ["a:b:"],
    which is the prefix itself. *)
Theorem ListSessions_prefix_collision :
  (exists p sess,
      ListSessions colon_store.1 "a" "b" = Ok [p]
      /\ session_objs colon_store.2 !! p = Some sess
      /\ AppName sess = "a" /\ UserID sess = "b:c")
  /\ (exists p sess,
      GetSession anonymous_store.1 "a" "b" "" = Ok (Some p)
      /\ session_objs anonymous_store.2 !! p = Some sess
      /\ AppName sess = "a" /\ UserID sess = "b"
      /\ ListSessions anonymous_store.1 "a" "b" = Ok []).
Proof.
  split.
  - exists 1%nat, (mkSession "d" "a" "b:c" 0%nat [] 0).
    split; [vm_compute; reflexivity | ].
    split; [vm_compute; reflexivity | ].
    split; reflexivity.
  - exists 1%nat, (mkSession "uuid-A" "a" "b" 0%nat [] 1).
    split; [vm_compute; reflexivity | ].
    split; [vm_compute; reflexivity | ].
    split; [reflexivity | ].
    split; [reflexivity | vm_compute; reflexivity].
Qed.

End SessionStoreExamples.

(** ** The model registry *)
Section ModelRegistry.
Import models agents.

Lemma NewLLM_instance (m : string) (w w1 : World) (l : option LLM) :
  NewLLM m w = (Ok l, w1) -> instances (defaultRegistry w1) !! m = Some l.
Proof.
  unfold NewLLM.
  destruct (instances (defaultRegistry w) !! m) as [i|] eqn:Hi.
  - intros [= <- <-]. exact Hi.
  - destruct (_ && _); [ | discriminate].
    destruct (models_ (defaultRegistry w) !! "gemini") as [f|]; [ | discriminate].
    intros [= <- <-]. simpl. apply lookup_insert_eq.
Qed.

Lemma NewLLM_hit (m : string) (w : World) (l : option LLM) :
  instances (defaultRegistry w) !! m = Some l -> NewLLM m w = (Ok l, w).
Proof. intros Hi. unfold NewLLM. rewrite Hi. reflexivity. Qed.

(** A cached instance survives every call into the package, and no
    call invokes a factory for its name. *)
Lemma do_call_keeps_instance (m : string) (l : option LLM) (c : Call) (w : World) :
  instances (defaultRegistry w) !! m = Some l ->
  instances (defaultRegistry (do_call c w)) !! m = Some l
  /\ calls_for m (do_call c w) = calls_for m w.
Proof.
  intros Hi. destruct c as [t f | m']; simpl.
  - split; [exact Hi | reflexivity].
  - unfold NewLLM.
    destruct (instances (defaultRegistry w) !! m') as [i|] eqn:Hm'; simpl.
    + split; [exact Hi | reflexivity].
    + destruct (_ && _); simpl; [ | split; [exact Hi | reflexivity]].
      destruct (models_ (defaultRegistry w) !! "gemini") as [f|]; simpl;
        [ | split; [exact Hi | reflexivity]].
      assert (m' <> m) as Hne by (intros ->; congruence).
      split.
      * rewrite lookup_insert_ne; [exact Hi | exact Hne].
      * unfold calls_for; simpl. rewrite filter_app, filter_cons_False, filter_nil.
        -- apply app_nil_r.
        -- simpl. exact Hne.
Qed.

Lemma do_calls_keeps_instance (m : string) (l : option LLM) (cs : list Call) (w : World) :
  instances (defaultRegistry w) !! m = Some l ->
  instances (defaultRegistry (do_calls cs w)) !! m = Some l
  /\ calls_for m (do_calls cs w) = calls_for m w.
Proof.
  revert w. induction cs as [|c cs IH]; intros w Hi; simpl.
  - split; [exact Hi | reflexivity].
  - destruct (do_call_keeps_instance m l c w Hi) as [Hi' Hc].
    destruct (IH _ Hi') as [Hi'' Hc'].
    split; [exact Hi'' | congruence].
Qed.

(** Once [Resolve] has answered for a name, it answers the same
    handle after any further calls into the package, without changing
    the registry and hence without a factory invocation. *)
Lemma Resolve_cached (m : string) (w w1 : World) (l : option LLM) (cs : list Call) :
  Resolve m w = (Ok l, w1) ->
  Resolve m (do_calls cs w1) = (Ok l, do_calls cs w1)
  /\ calls_for m (do_calls cs w1) = calls_for m w1.
Proof.
  unfold Resolve. intros Hr. apply NewLLM_instance in Hr.
  destruct (do_calls_keeps_instance m l cs w1 Hr) as [Hi Hc].
  split; [by apply NewLLM_hit | exact Hc].
Qed.

(** C7.  After a first call of [GetCanonicalModel] that returned a
    handle, a second call on the same agent returns that very handle,
    whatever calls into the registry were made in between, and leaves
    the registry as it found it.  When the first call went through
    the registry, [models.Resolve] of the agent's model name returns
    the same handle too, again without touching the registry, and the
    calls in between have invoked no factory for that name. *)
Theorem GetCanonicalModel_idempotent
    (a a1 : LlmAgent) (w w1 : World) (l : LLM) (cs : list Call) :
  GetCanonicalModel a w = (Some l, a1, w1) ->
  let w2 := do_calls cs w1 in
  GetCanonicalModel a1 w2 = (Some l, a1, w2)
  /\ Model a1 = Model a
  /\ (llm a = None ->
      Resolve (Model a) w2 = (Ok (Some l), w2)
      /\ calls_for (Model a) w2 = calls_for (Model a) w1).
Proof.
  intros H w2. unfold GetCanonicalModel in H.
  destruct (llm a) as [l0|] eqn:Hl.
  - injection H as -> -> ->.
    split; [ | split; [reflexivity | discriminate]].
    unfold GetCanonicalModel. rewrite Hl. reflexivity.
  - destruct (Resolve (Model a) w) as [[r|e] w'] eqn:Hr; [ | discriminate].
    injection H as -> <- <-.
    split; [reflexivity | split; [reflexivity | intros _]].
    exact (Resolve_cached _ _ _ _ cs Hr).
Qed.

End ModelRegistry.

Section ModelRegistryExamples.
Import models agents fixtures.

Example GetCanonicalModel_first :
  GetCanonicalModel flash_agent registry0
  = (Some flash_llm, set_llm (Some flash_llm) flash_agent,
     (Resolve "gemini-2.0-flash" registry0).2).
Proof. vm_compute. reflexivity. Qed.

Lemma GetCanonicalModel_idempotent_witness :
  GetCanonicalModel flash_agent registry0
  = (Some flash_llm, set_llm (Some flash_llm) flash_agent,
     (Resolve "gemini-2.0-flash" registry0).2)
  /\ (let w2 := do_calls other_calls (Resolve "gemini-2.0-flash" registry0).2 in
      GetCanonicalModel (set_llm (Some flash_llm) flash_agent) w2
      = (Some flash_llm, set_llm (Some flash_llm) flash_agent, w2)
      /\ Model (set_llm (Some flash_llm) flash_agent) = Model flash_agent
      /\ (llm flash_agent = None ->
          Resolve (Model flash_agent) w2 = (Ok (Some flash_llm), w2)
          /\ calls_for (Model flash_agent) w2
             = calls_for (Model flash_agent) (Resolve "gemini-2.0-flash" registry0).2)).
Proof.
  split; [vm_compute; reflexivity | ].
  apply (GetCanonicalModel_idempotent flash_agent _ registry0 _ flash_llm other_calls).
  vm_compute; reflexivity.
Defined.

(** The factory ran once for the model, in the first call. *)
Example factory_ran_once :
  calls_for "gemini-2.0-flash"
    (do_calls other_calls (Resolve "gemini-2.0-flash" registry0).2)
  = [("gemini", "gemini-2.0-flash")].
Proof. vm_compute. reflexivity. Qed.

End ModelRegistryExamples.

(** ** Goroutines and their traces *)
Section Goroutines.
Import events agents spec traces.

Lemma sent_app (t1 t2 : list Act) : sent (t1 ++ t2) = sent t1 ++ sent t2.
Proof.
  induction t1 as [|a t1 IH]; [reflexivity | ].
  destruct a; simpl; rewrite IH; reflexivity.
Qed.

Lemma sent_concat (ts : list (list Act)) : sent (concat ts) = concat (map sent ts).
Proof.
  induction ts as [|t ts IH]; [reflexivity | ].
  simpl. rewrite sent_app, IH. reflexivity.
Qed.

(** Forwarding a sub-agent and going on is the run of the sub-agent
    followed by the run of what comes next. *)
Lemma exec_forward (sub next : Proc) (env : Env) :
  exec (forward sub next) env
  = let '(t1, env1) := exec sub env in
    let '(t2, env2) := exec next env1 in
    (t1 ++ t2, env2).
Proof.
  revert env.
  induction sub as [ | e k IH | key k IH | key v k IH | cb k IH | m k IH]; intros env; simpl.
  - destruct (exec next env) as [t2 env2]. reflexivity.
  - rewrite IH. destruct (exec k env) as [t1 env1].
    destruct (exec next env1) as [t2 env2]. reflexivity.
  - apply IH.
  - rewrite IH. destruct (exec k _) as [t1 env1].
    destruct (exec next env1) as [t2 env2]. reflexivity.
  - destruct (cb (state env)) as [st err]. rewrite IH.
    destruct (exec (k err) _) as [t1 env1].
    destruct (exec next env1) as [t2 env2]. reflexivity.
  - destruct (models.Resolve m (llms env)) as [r w]. rewrite IH.
    destruct (exec (k r) _) as [t1 env1].
    destruct (exec next env1) as [t2 env2]. reflexivity.
Qed.

Lemma exec_guarded (cb : option Callback) (next : Proc) (env : Env) :
  exec (guarded cb next) env
  = let '(tb, env0, ok) := run_before cb env in
    if ok then let '(t, env') := exec next env0 in (tb ++ t, env')
    else (tb, env0).
Proof.
  destruct cb as [f|]; simpl.
  - destruct (f (state env)) as [st [msg|]]; simpl; [reflexivity | ].
    destruct (exec next _) as [t env']. reflexivity.
  - destruct (exec next env) as [t env']. reflexivity.
Qed.

(** A callback at the end of a goroutine: whatever it returns, the
    channel is closed next. *)
Lemma exec_guarded_Close (cb : option Callback) (env : Env) :
  exec (guarded cb Close) env = (run_before cb env).1.
Proof.
  rewrite exec_guarded. destruct (run_before cb env) as [[tb env0] ok].
  destruct ok; simpl; [rewrite app_nil_r | ]; reflexivity.
Qed.

Lemma sent_run_before (cb : option Callback) (env : Env) :
  sent (run_before cb env).1.1 = [].
Proof.
  destruct cb as [f|]; simpl; [ | reflexivity].
  destruct (f (state env)) as [st err]. reflexivity.
Qed.

(** The loop over the sub-agents is the run of each of them in turn. *)
Lemma exec_run_sub_agents (subAgents : list Agent) (ctx : InvocationContext)
    (next : Proc) (env : Env) :
  exec (run_sub_agents subAgents ctx next) env
  = let '(ts, env1) := children_streams subAgents ctx env in
    let '(t2, env2) := exec next env1 in
    (concat ts ++ t2, env2).
Proof.
  revert env. induction subAgents as [|c cs IH]; intros env; simpl.
  - destruct (exec next env) as [t2 env2]. reflexivity.
  - destruct (RunAsync c ctx) as [p | msg].
    + rewrite exec_forward. destruct (exec p env) as [t env1].
      fold (run_sub_agents cs ctx next). rewrite IH.
      destruct (children_streams cs ctx env1) as [ts env2].
      destruct (exec next env2) as [t2 env3]. simpl.
      rewrite app_assoc. reflexivity.
    + fold (run_sub_agents cs ctx next). rewrite IH.
      destruct (children_streams cs ctx env) as [ts env2].
      destruct (exec next env2) as [t2 env3]. reflexivity.
Qed.

(** C3, as amended.  The channel of a sequential agent carries, when
    its before-agent callback is absent or returns no error, exactly
    the concatenation in list order of what each sub-agent sends on
    its own channel, a sub-agent whose [RunAsync] returns an error
    counting for nothing and not stopping the others; when the
    callback returns an error the channel carries nothing. *)
Theorem SequentialAgent_concatenation (a : SequentialAgent)
    (ctx : InvocationContext) (env : Env) :
  exists p,
    SequentialAgent_RunAsync a ctx = Ok p
    /\ sent (exec p env).1
       = let '(_, env0, ok) := run_before (BeforeAgentCallback (seq_BaseAgent a)) env in
         if ok
         then concat (map sent (children_streams (SubAgents (seq_BaseAgent a)) ctx env0).1)
         else [].
Proof.
  exists (SequentialAgent_goroutine a ctx). split; [reflexivity | ].
  unfold SequentialAgent_goroutine. rewrite exec_guarded.
  pose proof (sent_run_before (BeforeAgentCallback (seq_BaseAgent a)) env) as Hb.
  destruct (run_before _ env) as [[tb env0] ok]. simpl in Hb.
  destruct ok; simpl; [ | exact Hb].
  rewrite exec_run_sub_agents.
  destruct (children_streams _ ctx env0) as [ts env1]. rewrite exec_guarded_Close.
  pose proof (sent_run_before (AfterAgentCallback (seq_BaseAgent a)) env1) as Ha.
  destruct (run_before _ env1) as [[ta env2] ok']. simpl in *.
  rewrite !sent_app, Hb, Ha, sent_concat, app_nil_r. reflexivity.
Qed.

(** *** The loop agent *)

(** While no event of the sub-agent requests the exit, the loop
    agent forwards it as the sequential agent does. *)
Lemma forward_until_exit_quiet (sub next exitLoop : Proc) (env : Env) :
  Forall (fun e => shouldExitLoopFromEvent e = false) (sent (exec sub env).1) ->
  exec (forward_until_exit sub next exitLoop) env = exec (forward sub next) env.
Proof.
  revert env.
  induction sub as [ | e k IH | key k IH | key v k IH | cb k IH | m k IH]; intros env; simpl.
  - reflexivity.
  - destruct (exec k env) as [t1 env1] eqn:Hk. simpl. intros Hq.
    apply Forall_cons in Hq as [He Hq]. rewrite He.
    rewrite IH; [reflexivity | rewrite Hk; exact Hq].
  - apply IH.
  - destruct (exec k _) as [t1 env1] eqn:Hk. simpl. intros Hq.
    rewrite IH; [reflexivity | rewrite Hk; exact Hq].
  - destruct (cb (state env)) as [st err].
    destruct (exec (k err) _) as [t1 env1] eqn:Hk. simpl. intros Hq.
    rewrite IH; [reflexivity | rewrite Hk; exact Hq].
  - destruct (models.Resolve m (llms env)) as [r w].
    destruct (exec (k r) _) as [t1 env1] eqn:Hk. simpl. intros Hq.
    rewrite IH; [reflexivity | rewrite Hk; exact Hq].
Qed.

Lemma loop_sub_agents_quiet (subAgents : list Agent) (ctx : InvocationContext)
    (next exitLoop : Proc) (env : Env) :
  Forall (fun e => shouldExitLoopFromEvent e = false)
         (sent (full_pass subAgents ctx env).1) ->
  exec (loop_sub_agents subAgents ctx next exitLoop) env
  = exec (run_sub_agents subAgents ctx next) env.
Proof.
  unfold full_pass. revert env.
  induction subAgents as [|c cs IH]; intros env; simpl; [reflexivity | ].
  fold (loop_sub_agents cs ctx next exitLoop). fold (run_sub_agents cs ctx next).
  destruct (RunAsync c ctx) as [p | msg].
  - destruct (exec p env) as [t env1] eqn:Hp.
    destruct (children_streams cs ctx env1) as [ts env2] eqn:Hcs. simpl.
    rewrite sent_app. intros Hq. apply Forall_app in Hq as [Hq1 Hq2].
    rewrite forward_until_exit_quiet; [ | rewrite Hp; exact Hq1].
    rewrite !exec_forward, Hp. rewrite IH; [reflexivity | ].
    rewrite Hcs. exact Hq2.
  - destruct (children_streams cs ctx env) as [ts env2] eqn:Hcs. simpl.
    intros Hq. apply IH. rewrite Hcs. exact Hq.
Qed.

Lemma exec_full_pass (subAgents : list Agent) (ctx : InvocationContext)
    (next : Proc) (env : Env) :
  exec (run_sub_agents subAgents ctx next) env
  = let '(t, env1) := full_pass subAgents ctx env in
    let '(t2, env2) := exec next env1 in
    (t ++ t2, env2).
Proof.
  rewrite exec_run_sub_agents. unfold full_pass.
  destruct (children_streams subAgents ctx env) as [ts env1]. reflexivity.
Qed.

(** With no exit signal, [remaining] iterations are [remaining] full
    passes, and the label [exitLoop] is reached after the last. *)
Lemma loop_iterations_quiet (remaining : nat) (subAgents : list Agent)
    (ctx : InvocationContext) (exitLoop : Proc) (env : Env) :
  no_exit_signal remaining subAgents ctx env ->
  exec (loop_iterations remaining subAgents ctx exitLoop) env
  = let '(t, env1) := full_passes remaining subAgents ctx env in
    let '(t2, env2) := exec exitLoop env1 in
    (t ++ t2, env2).
Proof.
  revert env. induction remaining as [|n IH]; intros env; simpl.
  - intros _. destruct (exec exitLoop env) as [t2 env2]. reflexivity.
  - intros (Hflag & Hq & Hrest). unfold sessions.State_Get. rewrite Hflag.
    rewrite loop_sub_agents_quiet; [ | exact Hq].
    rewrite exec_full_pass.
    destruct (full_pass subAgents ctx env) as [t env1]. simpl in Hrest.
    rewrite IH; [ | exact Hrest].
    destruct (full_passes n subAgents ctx env1) as [t' env2].
    destruct (exec exitLoop env2) as [t2 env3].
    rewrite app_assoc. reflexivity.
Qed.

(** C4, as amended.  When the before-agent callback of a loop agent
    is absent or returns no error, and over K = MaxIterations passes
    (none when MaxIterations is negative) the state never holds the
    exit flag at the start of a pass and no event requests the exit,
    then the goroutine of [RunAsync] performs exactly K full passes
    over the sub-agents in order, then the after-agent callback, and
    closes its channel; [RunAsync] itself returns no error. *)
Theorem LoopAgent_full_passes (a : LoopAgent) (ctx : InvocationContext)
    (env env0 : Env) (tb : list Act) :
  let children := SubAgents (loop_BaseAgent a) in
  let K := Z.to_nat (MaxIterations a) in
  run_before (BeforeAgentCallback (loop_BaseAgent a)) env = (tb, env0, true) ->
  no_exit_signal K children ctx env0 ->
  exists p,
    LoopAgent_RunAsync a ctx = Ok p
    /\ exec p env
       = let '(t, env1) := full_passes K children ctx env0 in
         let '(ta, env2, _) := run_before (AfterAgentCallback (loop_BaseAgent a)) env1 in
         (tb ++ t ++ ta, env2).
Proof.
  intros children K Hb Hq.
  exists (LoopAgent_goroutine a ctx). split; [reflexivity | ].
  unfold LoopAgent_goroutine. rewrite exec_guarded, Hb.
  fold children K. rewrite loop_iterations_quiet; [ | exact Hq].
  destruct (full_passes K children ctx env0) as [t env1].
  rewrite exec_guarded_Close.
  destruct (run_before _ env1) as [[ta env2] ok]. reflexivity.
Qed.

(** What is left of an abandoned goroutine sends nothing. *)
Lemma sent_abandoned (sub : Proc) (env : Env) :
  sent (exec (abandoned sub Close) env).1 = [].
Proof.
  revert env.
  induction sub as [ | e k IH | key k IH | key v k IH | cb k IH | m k IH];
    intros env; simpl; try reflexivity.
  - apply IH.
  - specialize (IH (mkEnv (sessions.State_Set key v (state env)) (llms env))).
    destruct (exec (abandoned k Close) _) as [t env']. exact IH.
  - destruct (cb (state env)) as [st err].
    specialize (IH err (mkEnv st (llms env))).
    destruct (exec (abandoned (k err) Close) _) as [t env']. exact IH.
  - destruct (models.Resolve m (llms env)) as [r w].
    specialize (IH r (mkEnv (state env) w)).
    destruct (exec (abandoned (k r) Close) _) as [t env']. exact IH.
Qed.

Lemma exec_abandoned (sub next : Proc) (env : Env) :
  exec (abandoned sub next) env
  = let '(t, env1) := exec (abandoned sub Close) env in
    let '(t2, env2) := exec next env1 in
    (t ++ t2, env2).
Proof.
  revert env.
  induction sub as [ | e k IH | key k IH | key v k IH | cb k IH | m k IH];
    intros env; simpl.
  - destruct (exec next env) as [t2 env2]. reflexivity.
  - destruct (exec next env) as [t2 env2]. reflexivity.
  - apply IH.
  - rewrite IH. destruct (exec (abandoned k Close) _) as [t env1].
    destruct (exec next env1) as [t2 env2]. reflexivity.
  - destruct (cb (state env)) as [st err]. rewrite IH.
    destruct (exec (abandoned (k err) Close) _) as [t env1].
    destruct (exec next env1) as [t2 env2]. reflexivity.
  - destruct (models.Resolve m (llms env)) as [r w]. rewrite IH.
    destruct (exec (abandoned (k r) Close) _) as [t env1].
    destruct (exec next env1) as [t2 env2]. reflexivity.
Qed.

Lemma sent_abandoned_next (sub next : Proc) :
  (forall env, sent (exec next env).1 = []) ->
  forall env, sent (exec (abandoned sub next) env).1 = [].
Proof.
  intros Hsilent env. rewrite exec_abandoned.
  pose proof (sent_abandoned sub env) as Hs.
  destruct (exec (abandoned sub Close) env) as [t env1].
  specialize (Hsilent env1). destruct (exec next env1) as [t2 env2]. simpl in *.
  rewrite sent_app, Hs, Hsilent. reflexivity.
Qed.






(** *** The model-backed agent *)

Lemma writes_and_sends_app (t1 t2 : list Act) :
  writes_and_sends (t1 ++ t2) = writes_and_sends t1 ++ writes_and_sends t2.
Proof.
  induction t1 as [|x t1 IH]; [reflexivity | ].
  destruct x; simpl; rewrite IH; reflexivity.
Qed.

Lemma writes_and_sends_run_before (cb : option Callback) (env : Env) :
  writes_and_sends (run_before cb env).1.1 = [].
Proof.
  destruct cb as [f|]; simpl; [ | reflexivity].
  destruct (f (state env)) as [st err]. reflexivity.
Qed.

Lemma writes_and_sends_turns (key : string) (evs : list Event) :
  writes_and_sends (flat_map (turn_trace key) evs) = flat_map (turn_trace key) evs.
Proof.
  induction evs as [|e evs IH]; [reflexivity | ].
  simpl. rewrite writes_and_sends_app, IH. f_equal.
  unfold turn_trace. destruct (final_text e); reflexivity.
Qed.

Lemma exec_getCanonicalModel (a : LlmAgent) (k : option models.LLM -> Proc) (env : Env) :
  exec (getCanonicalModel a k) env
  = let '(l, _, w) := GetCanonicalModel a (llms env) in
    let '(t, env') := exec (k l) (mkEnv (state env) w) in
    (match llm a with None => [ActResolve (Model a)] | Some _ => [] end ++ t, env').
Proof.
  unfold getCanonicalModel, GetCanonicalModel.
  destruct (llm a) as [l0|]; simpl.
  - destruct env as [st w]. simpl. destruct (exec (k (Some l0)) _). reflexivity.
  - destruct (models.Resolve (Model a) (llms env)) as [[r|msg] w]; reflexivity.
Qed.

(** The loop over the backend's events, for an agent with an output
    key: each event is sent, and a final response with a text part
    is preceded by the write of that text under the key. *)
Lemma exec_process_events (a : LlmAgent) (evs : list Event) (next : Proc) (env : Env) :
  OutputKey a <> "" ->
  exec (process_events a evs next) env
  = let '(t, env') := exec next (after_turns (OutputKey a) evs env) in
    (flat_map (turn_trace (OutputKey a)) evs ++ t, env').
Proof.
  intros Hkey. apply String.eqb_neq in Hkey.
  revert env. induction evs as [|e evs IH]; intros env; simpl.
  - destruct (exec next env) as [t env']. reflexivity.
  - unfold stores_output, storeOutputInSession, turn_trace, final_text.
    rewrite Hkey. simpl.
    destruct (IsFinalResponse e); simpl.
    + destruct (Content_ e) as [c|]; simpl.
      * destruct (Parts c) as [|part parts]; simpl.
        -- rewrite IH. destruct (exec next _) as [t env']. reflexivity.
        -- unfold sessions.State_Set. rewrite IH.
           destruct (exec next _) as [t env']. reflexivity.
      * rewrite IH. destruct (exec next _) as [t env']. reflexivity.
    + rewrite IH. destruct (exec next _) as [t env']. reflexivity.
Qed.

(** C6, as amended.  For an agent with a non-empty output key whose
    callbacks do not fail and whose backend answers with a stream:
    the state writes and sends of its goroutine are, for each event
    of the stream in order, the send of that event, preceded (not
    followed), when the event is a final response whose content has
    at least one part, by one write of the text of the first part
    under the output key.  Events that are not final responses cause
    no write. *)
Theorem LlmAgent_output_key (a a' : LlmAgent) (ctx : InvocationContext)
    (env env1 env2 : Env) (tb1 tb2 : list Act) (l : models.LLM) (w' : models.World)
    (evs : list Event) :
  OutputKey a <> "" ->
  run_before (BeforeAgentCallback (llm_BaseAgent a)) env = (tb1, env1, true) ->
  run_before (BeforeModelCallback a) env1 = (tb2, env2, true) ->
  GetCanonicalModel a (llms env2) = (Some l, a', w') ->
  models.GenerateContentAsync l (buildLLMRequest a ctx) = Ok evs ->
  exists p,
    LlmAgent_RunAsync a ctx = Ok p
    /\ writes_and_sends (exec p env).1 = flat_map (turn_trace (OutputKey a)) evs.
Proof.
  intros Hkey Hb1 Hb2 Hm Hg.
  exists (LlmAgent_goroutine a ctx). split; [reflexivity | ].
  unfold LlmAgent_goroutine.
  pose proof (writes_and_sends_run_before (BeforeAgentCallback (llm_BaseAgent a)) env) as W1.
  pose proof (writes_and_sends_run_before (BeforeModelCallback a) env1) as W2.
  rewrite Hb1 in W1. rewrite Hb2 in W2. simpl in W1, W2.
  rewrite exec_guarded, Hb1, exec_guarded, Hb2, exec_getCanonicalModel, Hm, Hg.
  rewrite exec_process_events; [ | exact Hkey].
  rewrite exec_guarded.
  pose proof (writes_and_sends_run_before (AfterModelCallback a)
                (after_turns (OutputKey a) evs (mkEnv (state env2) w'))) as W3.
  destruct (run_before (AfterModelCallback a) _) as [[ta1 enva] ok1]. simpl in W3.
  assert (forall env3, writes_and_sends
            (exec (guarded (AfterAgentCallback (llm_BaseAgent a)) Close) env3).1 = [])
    as W4.
  { intros env3. rewrite exec_guarded_Close. apply writes_and_sends_run_before. }
  assert (writes_and_sends
            (match llm a with None => [ActResolve (Model a)] | Some _ => [] end) = [])
    as W5 by (destruct (llm a); reflexivity).
  destruct ok1.
  - specialize (W4 enva).
    destruct (exec (guarded (AfterAgentCallback (llm_BaseAgent a)) Close) enva)
      as [ta2 envb]. simpl in *.
    rewrite !writes_and_sends_app, W1, W2, W3, W4, W5, writes_and_sends_turns.
    simpl. rewrite !app_nil_r. reflexivity.
  - simpl. rewrite !writes_and_sends_app, W1, W2, W3, W5, writes_and_sends_turns.
    simpl. rewrite !app_nil_r. reflexivity.
Qed.

End Goroutines.

Section GoroutineExamples.
Import events agents spec traces fixtures.

Example sequential_ok_sends :
  sent (exec (SequentialAgent_goroutine sequential_ok ctx0) env0).1 = [hello; hello].
Proof. vm_compute. reflexivity. Qed.

Example loop_ok_sends :
  sent (exec (LoopAgent_goroutine loop_ok ctx0) env0).1 = [hello; hello].
Proof. vm_compute. reflexivity. Qed.

Example loop_leaving_sends :
  sent (exec (LoopAgent_goroutine loop_leaving ctx0) env0).1 = [hello; bye].
Proof. vm_compute. reflexivity. Qed.

(** C3 as stated fails: a sequential agent whose before-agent
    callback returns an error sends nothing, while its one sub-agent
    sends [hello] on its own channel. *)
Lemma SequentialAgent_denied_sends_nothing :
  SequentialAgent_RunAsync sequential_denied ctx0
  = Ok (SequentialAgent_goroutine sequential_denied ctx0)
  /\ sent (exec (SequentialAgent_goroutine sequential_denied ctx0) env0).1 = []
  /\ concat (map sent
       (children_streams (SubAgents (seq_BaseAgent sequential_denied)) ctx0 env0).1)
     = [hello]
  /\ sent (exec (SequentialAgent_goroutine sequential_denied ctx0) env0).1
     <> concat (map sent
          (children_streams (SubAgents (seq_BaseAgent sequential_denied)) ctx0 env0).1).
Proof.
  split; [reflexivity | ].
  split; [vm_compute; reflexivity | ].
  split; [vm_compute; reflexivity | ].
  vm_compute. discriminate.
Qed.

Lemma LoopAgent_full_passes_witness :
  run_before (BeforeAgentCallback (loop_BaseAgent loop_ok)) env0 = ([], env0, true)
  /\ no_exit_signal (Z.to_nat (MaxIterations loop_ok))
       (SubAgents (loop_BaseAgent loop_ok)) ctx0 env0
  /\ exists p,
      LoopAgent_RunAsync loop_ok ctx0 = Ok p
      /\ exec p env0
         = let '(t, env1) :=
             full_passes (Z.to_nat (MaxIterations loop_ok))
                         (SubAgents (loop_BaseAgent loop_ok)) ctx0 env0 in
           let '(ta, env2, _) :=
             run_before (AfterAgentCallback (loop_BaseAgent loop_ok)) env1 in
           ([] ++ t ++ ta, env2).
Proof.
  assert (no_exit_signal (Z.to_nat (MaxIterations loop_ok))
            (SubAgents (loop_BaseAgent loop_ok)) ctx0 env0) as Hq.
  { vm_compute. repeat (split || constructor). }
  split; [reflexivity | ].
  split; [exact Hq | ].
  apply (LoopAgent_full_passes loop_ok ctx0 env0 env0 []); [reflexivity | exact Hq].
Defined.

(** C4 as stated fails: with a cap of one iteration, no exit flag
    and no exit event, a loop agent whose before-agent callback
    returns an error performs no pass at all. *)
Lemma LoopAgent_denied_runs_no_pass :
  no_exit_signal (Z.to_nat (MaxIterations loop_denied))
    (SubAgents (loop_BaseAgent loop_denied)) ctx0 env0
  /\ LoopAgent_RunAsync loop_denied ctx0 = Ok (LoopAgent_goroutine loop_denied ctx0)
  /\ sent (exec (LoopAgent_goroutine loop_denied ctx0) env0).1 = []
  /\ sent (full_passes (Z.to_nat (MaxIterations loop_denied))
             (SubAgents (loop_BaseAgent loop_denied)) ctx0 env0).1 = [hello]
  /\ sent (exec (LoopAgent_goroutine loop_denied ctx0) env0).1
     <> sent (full_passes (Z.to_nat (MaxIterations loop_denied))
                (SubAgents (loop_BaseAgent loop_denied)) ctx0 env0).1.
Proof.
  split; [vm_compute; repeat (split || constructor) | ].
  split; [reflexivity | ].
  split; [vm_compute; reflexivity | ].
  split; [vm_compute; reflexivity | ].
  vm_compute. discriminate.
Qed.

(** The sub-agent that the loop leaves still writes to the state,
    before the after-agent callback in the trace; its later event is
    never received. *)
Example loop_abandoning_run :
  (exec (LoopAgent_goroutine loop_abandoning ctx0) env0).1
  = [ActSend hello; ActSend bye; ActStateSet "after" (VBool true); ActCallback None]
  /\ state (exec (LoopAgent_goroutine loop_abandoning ctx0) env0).2 !! "after"
     = Some (VBool true)
  /\ state (exec (LoopAgent_goroutine loop_abandoning ctx0) env0).2 !! "done"
     = Some (VBool true).
Proof. repeat split; vm_compute; reflexivity. Qed.


Lemma LlmAgent_output_key_witness :
  OutputKey keyed_agent <> ""
  /\ GetCanonicalModel keyed_agent (llms env0)
     = (Some flash_llm, set_llm (Some flash_llm) keyed_agent,
        (models.Resolve "gemini-2.0-flash" registry0).2)
  /\ models.GenerateContentAsync flash_llm (buildLLMRequest keyed_agent ctx0)
     = Ok [mock_event]
  /\ exists p,
      LlmAgent_RunAsync keyed_agent ctx0 = Ok p
      /\ writes_and_sends (exec p env0).1
         = flat_map (turn_trace (OutputKey keyed_agent)) [mock_event].
Proof.
  assert (OutputKey keyed_agent <> "") as Hkey by (vm_compute; discriminate).
  split; [exact Hkey | ].
  split; [vm_compute; reflexivity | ].
  split; [vm_compute; reflexivity | ].
  apply (LlmAgent_output_key keyed_agent (set_llm (Some flash_llm) keyed_agent)
           ctx0 env0 env0 env0 [] [] flash_llm
           (models.Resolve "gemini-2.0-flash" registry0).2 [mock_event] Hkey);
    vm_compute; reflexivity.
Defined.

(** C6 as stated fails: in the run of an agent with the output key
    ["answer"] on the gemini backend, the state write comes before
    the send of the final response, and no write follows a send. *)
Lemma LlmAgent_writes_before_send :
  (exec (LlmAgent_goroutine keyed_agent ctx0) env0).1
  = [ActResolve "gemini-2.0-flash";
     ActStateSet "answer" (VString "Mock response from gemini-2.0-flash");
     ActSend mock_event]
  /\ write_after_send (exec (LlmAgent_goroutine keyed_agent ctx0) env0).1 = false.
Proof. split; vm_compute; reflexivity. Qed.

End GoroutineExamples.

(** ** The runner *)
Section Runner.
Import events sessions runners traces.
Variable time_Now : nat -> Z.
Variable uuid_New : nat -> string.

(** *** The store invariant *)

Lemma store_wf_empty (h : Heap) : store_wf (mkService ∅) h.
Proof. intros key p Hk. simpl in Hk. rewrite lookup_empty in Hk. discriminate Hk. Qed.

Lemma store_wf_CreateSession (s : InMemorySessionService) (h : Heap)
    (appName userID sessionID : string) (initialState : option (gmap string Value)) :
  store_wf s h ->
  let '(s', h', _) :=
    CreateSession time_Now uuid_New s h appName userID sessionID initialState in
  store_wf s' h'.
Proof.
  intros Hwf. unfold CreateSession, NewSession.
  destruct (if String.eqb sessionID "" then _ else _) as [sid h1] eqn:H1.
  assert (session_objs h1 = session_objs h) as E1
    by (destruct (String.eqb sessionID ""); injection H1 as <- <-; reflexivity).
  destruct (match initialState with Some d => _ | None => _ end) as [st h2] eqn:H2.
  assert (session_objs h2 = session_objs h1) as E2
    by (destruct initialState; injection H2 as <- <-; reflexivity).
  simpl. intros key p Hk. simpl in *.
  destruct (decide (p = next_ptr h2)) as [-> | Hne].
  - rewrite lookup_insert_eq. eauto.
  - rewrite lookup_insert_ne by congruence. rewrite E2, E1.
    destruct (decide (key = sessionKey appName userID sessionID)) as [-> | Hkne].
    + rewrite lookup_insert_eq in Hk. congruence.
    + rewrite lookup_insert_ne in Hk by congruence. exact (Hwf _ _ Hk).
Qed.

Lemma store_wf_DeleteSession (s : InMemorySessionService) (h : Heap)
    (appName userID sessionID : string) :
  store_wf s h -> store_wf (DeleteSession s appName userID sessionID).1 h.
Proof.
  intros Hwf key p Hk. simpl in Hk.
  apply lookup_delete_Some in Hk as [_ Hk]. exact (Hwf _ _ Hk).
Qed.

Lemma Session_AddEvent_objs (p q : SessionPtr) (event : Event) (h : Heap) :
  is_Some (session_objs h !! q) ->
  is_Some (session_objs (Session_AddEvent time_Now p event h) !! q).
Proof.
  intros Hq. unfold Session_AddEvent.
  destruct (session_objs h !! p) as [s|] eqn:Hp; [ | exact Hq]. simpl.
  destruct (decide (p = q)) as [-> | Hne].
  - rewrite lookup_insert_eq. eauto.
  - rewrite lookup_insert_ne by exact Hne. exact Hq.
Qed.

Lemma store_wf_AppendEvent (s : InMemorySessionService) (h : Heap)
    (appName userID sessionID : string) (event : Event) :
  store_wf s h ->
  let '(s', h', _) := AppendEvent time_Now s h appName userID sessionID event in
  store_wf s' h'.
Proof.
  intros Hwf. unfold AppendEvent.
  destruct (sessions s !! sessionKey appName userID sessionID) as [p|]; [ | exact Hwf].
  intros key q Hk. apply Session_AddEvent_objs. exact (Hwf _ _ Hk).
Qed.

(** *** Appending through a pointer the store holds *)

Lemma Session_AddEvent_Events (p : SessionPtr) (s : Session) (event : Event) (h : Heap) :
  session_objs h !! p = Some s ->
  exists s',
    session_objs (Session_AddEvent time_Now p event h) !! p = Some s'
    /\ Events s' = Events s ++ [event] /\ State s' = State s.
Proof.
  intros Hp. unfold Session_AddEvent. rewrite Hp. simpl.
  rewrite lookup_insert_eq. eexists. split; [reflexivity | split; reflexivity].
Qed.

Lemma AppendEvent_Events (sv : InMemorySessionService) (h : Heap)
    (appName userID sessionID : string) (p : SessionPtr) (s : Session) (event : Event) :
  sessions sv !! sessionKey appName userID sessionID = Some p ->
  session_objs h !! p = Some s ->
  exists h' s',
    AppendEvent time_Now sv h appName userID sessionID event = (sv, h', None)
    /\ session_objs h' !! p = Some s'
    /\ Events s' = Events s ++ [event] /\ State s' = State s.
Proof.
  intros Hk Hp. unfold AppendEvent. rewrite Hk.
  destruct (Session_AddEvent_Events p s event h Hp) as (s' & H1 & H2 & H3).
  exists (Session_AddEvent time_Now p event h), s'. repeat split; assumption.
Qed.

(** *** The relay loop *)

Lemma appended_first_nil : appended_first [].
Proof. intros t1 e t2 H. destruct t1; discriminate H. Qed.

Lemma appended_first_pair (e0 : Event) (t : list RunnerAct) :
  appended_first t -> appended_first (RAppendEvent e0 :: ROutput e0 :: t).
Proof.
  intros Ht t1 e t2 H.
  destruct t1 as [|a1 [|a2 t1]]; simpl in H.
  - discriminate H.
  - simplify_eq. exists []. reflexivity.
  - injection H as <- <- H. destruct (Ht _ _ _ H) as [t0 ->].
    exists (RAppendEvent e0 :: ROutput e0 :: t0). reflexivity.
Qed.

Lemma appended_first_cons (a : RunnerAct) (t : list RunnerAct) :
  (forall e, a <> ROutput e) -> appended_first t -> appended_first (a :: t).
Proof.
  intros Ha Ht t1 e t2 H. destruct t1 as [|a1 t1]; simpl in H.
  - injection H as -> _. exfalso. exact (Ha e eq_refl).
  - injection H as <- H. destruct (Ht _ _ _ H) as [t0 ->].
    exists (a :: t0). reflexivity.
Qed.

Lemma relay_spec (r : Runner) (userID sessionID : string) (sp : StatePtr)
    (p : SessionPtr) (proc : agents.Proc) :
  forall (w w' : World) (s : Session) (t : list RunnerAct),
    sessions (SessionService w) !! sessionKey (AppName r) userID sessionID = Some p ->
    session_objs (heap w) !! p = Some s ->
    relay time_Now r userID sessionID sp proc w = (t, w') ->
    SessionService w' = SessionService w
    /\ appended_first t
    /\ exists s', session_objs (heap w') !! p = Some s'
                  /\ Events s' = Events s ++ observed t.
Proof.
  induction proc as [ | e k IH | key k IH | key v k IH | cb k IH | m k IH];
    intros w w' s t Hk Hp; simpl.
  - intros [= <- <-]. split; [reflexivity | split; [apply appended_first_nil | ]].
    exists s. split; [exact Hp | by rewrite app_nil_r].
  - destruct (AppendEvent_Events _ _ _ _ _ p s e Hk Hp) as (h1 & s1 & -> & Hp1 & He1 & _).
    destruct (relay _ _ _ _ _ k _) as [t' w1] eqn:Hr. intros [= <- <-].
    eapply IH in Hr; [ | exact Hk | exact Hp1].
    destruct Hr as (Hs & Hshape & s' & Hp' & He').
    split; [exact Hs | split; [by apply appended_first_pair | ]].
    exists s'. split; [exact Hp' | ].
    rewrite He', He1. simpl. rewrite <- app_assoc. reflexivity.
  - intros Hr. eapply IH in Hr; [exact Hr | exact Hk | exact Hp].
  - intros Hr. eapply IH in Hr; [exact Hr | exact Hk | exact Hp].
  - destruct (cb _) as [st err]. intros Hr.
    eapply IH in Hr; [exact Hr | exact Hk | exact Hp].
  - destruct (models.Resolve m (llms w)) as [res mw]. intros Hr.
    eapply IH in Hr; [exact Hr | exact Hk | exact Hp].
Qed.

Lemma AppendEvent_state_objs (sv : InMemorySessionService) (h : Heap)
    (appName userID sessionID : string) (event : Event) :
  state_objs (AppendEvent time_Now sv h appName userID sessionID event).1.2
  = state_objs h.
Proof.
  unfold AppendEvent.
  destruct (sessions sv !! sessionKey appName userID sessionID) as [p|]; [ | reflexivity].
  simpl. unfold Session_AddEvent. destruct (session_objs h !! p); reflexivity.
Qed.

(** The caller receives what the root agent sends: the relay neither
    drops nor reorders events, and the appends do not reach the state
    the agent runs on. *)
Lemma relay_observes_exec (r : Runner) (userID sessionID : string) (sp : StatePtr)
    (proc : agents.Proc) (w : World) :
  observed (relay time_Now r userID sessionID sp proc w).1
  = agents.sent (agents.exec proc (agents.mkEnv (state_at sp (heap w)) (llms w))).1.
Proof.
  revert w.
  induction proc as [ | e k IH | key k IH | key v k IH | cb k IH | m k IH];
    intros w; simpl.
  - reflexivity.
  - pose proof (AppendEvent_state_objs (SessionService w) (heap w)
                  (AppName r) userID sessionID e) as Hst.
    destruct (AppendEvent _ _ _ _ _ _ e) as [[sv h1] err]. simpl in Hst.
    specialize (IH (mkWorld sv h1 (llms w))).
    destruct (relay _ _ _ _ _ k _) as [t w1]. simpl in *.
    unfold state_at in IH. rewrite Hst in IH. fold (state_at sp (heap w)) in IH.
    destruct (agents.exec k _) as [t2 env2]. simpl in *. rewrite IH. reflexivity.
  - apply IH.
  - specialize (IH (mkWorld (SessionService w)
                      (store_state sp (State_Set key v (state_at sp (heap w))) (heap w))
                      (llms w))).
    unfold state_at in IH at 2. simpl in IH. rewrite lookup_insert_eq in IH. simpl in IH.
    rewrite IH. destruct (agents.exec k _) as [t2 env2]. reflexivity.
  - destruct (cb (state_at sp (heap w))) as [st err].
    specialize (IH err (mkWorld (SessionService w) (store_state sp st (heap w)) (llms w))).
    unfold state_at in IH at 1. simpl in IH. rewrite lookup_insert_eq in IH. simpl in IH.
    rewrite IH. destruct (agents.exec (k err) _) as [t2 env2]. reflexivity.
  - destruct (models.Resolve m (llms w)) as [res mw].
    specialize (IH res (mkWorld (SessionService w) (heap w) mw)). simpl in IH.
    rewrite IH. destruct (agents.exec (k res) _) as [t2 env2]. reflexivity.
Qed.

(** *** The session of a run *)

Lemma getOrCreateSession_spec (r : Runner) (userID sessionID : string)
    (w w1 : World) (res : Result SessionPtr) :
  store_wf (SessionService w) (heap w) ->
  getOrCreateSession time_Now uuid_New r userID sessionID w = (res, w1) ->
  exists p s,
    res = Ok p
    /\ sessions (SessionService w1) !! sessionKey (AppName r) userID sessionID = Some p
    /\ session_objs (heap w1) !! p = Some s
    /\ Events s = persisted w (AppName r) userID sessionID.
Proof.
  intros Hwf. unfold getOrCreateSession, GetSession, persisted, ListEvents.
  destruct (sessions (SessionService w) !! sessionKey (AppName r) userID sessionID)
    as [p|] eqn:Hk.
  - intros [= <- <-]. destruct (Hwf _ _ Hk) as [s Hs].
    exists p, s. repeat split; [exact Hk | exact Hs | ].
    unfold Session_GetEvents. rewrite Hs. reflexivity.
  - unfold CreateSession, NewSession.
    destruct (if String.eqb sessionID "" then _ else _) as [sid h1].
    unfold NewState, alloc_state, alloc_session.
    simpl. intros [= <- <-]. simpl.
    eexists _, _. split; [reflexivity | ].
    split; [apply lookup_insert_eq | ].
    split; [apply lookup_insert_eq | reflexivity].
Qed.

Lemma add_user_message_spec (r : Runner) (userID sessionID : string)
    (p : SessionPtr) (s : Session) (m : Content) (w w2 : World) (t : list RunnerAct) :
  sessions (SessionService w) !! sessionKey (AppName r) userID sessionID = Some p ->
  session_objs (heap w) !! p = Some s ->
  add_user_message time_Now uuid_New r userID sessionID p m w = (t, w2) ->
  exists u s2,
    t = [RAddEvent u; RAppendEvent u]
    /\ Author u = "user" /\ Content_ u = Some m
    /\ SessionService w2 = SessionService w
    /\ session_objs (heap w2) !! p = Some s2
    /\ Events s2 = Events s ++ [u; u].
Proof.
  intros Hk Hp. unfold add_user_message.
  set (u := set_Content (Some m) (set_Author "user" (NewEvent _ _))).
  assert (session_objs (bump (bump (heap w))) !! p = Some s) as Hp0 by exact Hp.
  destruct (Session_AddEvent_Events p s u _ Hp0) as (s1 & Hp1 & He1 & _).
  destruct (AppendEvent_Events (SessionService w) _ _ _ _ p s1 u Hk Hp1)
    as (h2 & s2 & -> & Hp2 & He2 & _).
  intros [= <- <-]. exists u, s2.
  split; [reflexivity | ]. split; [reflexivity | ]. split; [reflexivity | ].
  split; [reflexivity | ]. split; [exact Hp2 | ].
  rewrite He2, He1, <- app_assoc. reflexivity.
Qed.

(** The run up to the call of the root agent. *)
Lemma RunAsync_session (r : Runner) (userID sessionID : string)
    (newMessage : option Content) (w : World) :
  store_wf (SessionService w) (heap w) ->
  exists p s2 w2 t0,
    sessions (SessionService w2) !! sessionKey (AppName r) userID sessionID = Some p
    /\ session_objs (heap w2) !! p = Some s2
    /\ match newMessage with
       | Some m =>
           exists u, t0 = [RAddEvent u; RAppendEvent u]
                     /\ Author u = "user" /\ Content_ u = Some m
                     /\ Events s2 = persisted w (AppName r) userID sessionID ++ [u; u]
       | None => t0 = [] /\ Events s2 = persisted w (AppName r) userID sessionID
       end
    /\ RunAsync time_Now uuid_New r userID sessionID newMessage w
       = match agents.RunAsync (Agent r) (agents.mkInvocationContext s2) with
         | Err e => (Err ("failed to run agent: " +:+ e), t0 ++ [RAgentRunAsync], w2)
         | Ok eventChan =>
             let '(t, w') := relay time_Now r userID sessionID (State s2) eventChan w2 in
             (Ok (observed t), t0 ++ RAgentRunAsync :: t, w')
         end.
Proof.
  intros Hwf. unfold RunAsync.
  destruct (getOrCreateSession _ _ r userID sessionID w) as [res w1] eqn:Hg.
  destruct (getOrCreateSession_spec _ _ _ _ _ _ Hwf Hg) as (p & s & -> & Hk & Hp & He).
  destruct newMessage as [m|].
  - destruct (add_user_message _ _ r userID sessionID p m w1) as [t0 w2] eqn:Ha.
    destruct (add_user_message_spec _ _ _ _ _ _ _ _ _ Hk Hp Ha)
      as (u & s2 & -> & Hau & Hc & Hs & Hp2 & He2).
    exists p, s2, w2, [RAddEvent u; RAppendEvent u].
    split; [by rewrite Hs | ]. split; [exact Hp2 | ].
    split; [exists u; rewrite He2, He; auto | ].
    rewrite Hp2. reflexivity.
  - exists p, s, w1, []. split; [exact Hk | ]. split; [exact Hp | ].
    split; [auto | ]. rewrite Hp. reflexivity.
Qed.

(** The calls of the relaying goroutine are the append and the send
    of each event received, and nothing else. *)
Lemma relay_relayed (r : Runner) (userID sessionID : string) (sp : StatePtr)
    (proc : agents.Proc) (w : World) :
  (relay time_Now r userID sessionID sp proc w).1
  = relayed (observed (relay time_Now r userID sessionID sp proc w).1).
Proof.
  revert w.
  induction proc as [ | e k IH | key k IH | key v k IH | cb k IH | m k IH];
    intros w; simpl.
  - reflexivity.
  - destruct (AppendEvent _ _ _ _ _ _ e) as [[sv h1] err].
    specialize (IH (mkWorld sv h1 (llms w))).
    destruct (relay _ _ _ _ _ k _) as [t w1]. simpl in *.
    unfold relayed in *. simpl. rewrite <- IH. reflexivity.
  - apply IH.
  - apply IH.
  - destruct (cb (state_at sp (heap w))) as [st err]. apply IH.
  - destruct (models.Resolve m (llms w)) as [res mw]. apply IH.
Qed.

Lemma Session_AddEvent_state_objs (p : SessionPtr) (event : Event) (h : Heap) :
  state_objs (Session_AddEvent time_Now p event h) = state_objs h.
Proof. unfold Session_AddEvent. destruct (session_objs h !! p); reflexivity. Qed.

(** The session of a run and the state that the root agent runs on. *)
Lemma getOrCreateSession_env (r : Runner) (userID sessionID : string)
    (w w1 : World) (res : Result SessionPtr) :
  store_wf (SessionService w) (heap w) ->
  getOrCreateSession time_Now uuid_New r userID sessionID w = (res, w1) ->
  exists p s,
    res = Ok p
    /\ sessions (SessionService w1) !! sessionKey (AppName r) userID sessionID = Some p
    /\ session_objs (heap w1) !! p = Some s
    /\ Events s = persisted w (AppName r) userID sessionID
    /\ state_at (State s) (heap w1) = session_state w (AppName r) userID sessionID
    /\ llms w1 = llms w.
Proof.
  intros Hwf. unfold getOrCreateSession, GetSession, persisted, ListEvents, session_state.
  destruct (sessions (SessionService w) !! sessionKey (AppName r) userID sessionID)
    as [p|] eqn:Hk.
  - intros [= <- <-]. destruct (Hwf _ _ Hk) as [s Hs].
    exists p, s. rewrite Hs.
    split; [reflexivity | ]. split; [exact Hk | ]. split; [reflexivity | ].
    split; [ | split; reflexivity].
    unfold Session_GetEvents. rewrite Hs. reflexivity.
  - unfold CreateSession, NewSession.
    destruct (if String.eqb sessionID "" then _ else _) as [sid h1].
    unfold NewState, alloc_state, alloc_session.
    simpl. intros [= <- <-]. simpl.
    eexists _, _. split; [reflexivity | ].
    split; [apply lookup_insert_eq | ].
    split; [apply lookup_insert_eq | ].
    split; [reflexivity | ]. split; [ | reflexivity].
    unfold state_at. simpl. rewrite lookup_insert_eq. reflexivity.
Qed.

Lemma add_user_message_env (r : Runner) (userID sessionID : string)
    (p : SessionPtr) (s : Session) (m : Content) (w w2 : World) (t : list RunnerAct) :
  sessions (SessionService w) !! sessionKey (AppName r) userID sessionID = Some p ->
  session_objs (heap w) !! p = Some s ->
  add_user_message time_Now uuid_New r userID sessionID p m w = (t, w2) ->
  exists u s2,
    t = [RAddEvent u; RAppendEvent u]
    /\ Author u = "user" /\ Content_ u = Some m
    /\ SessionService w2 = SessionService w
    /\ session_objs (heap w2) !! p = Some s2
    /\ Events s2 = Events s ++ [u; u]
    /\ state_at (State s2) (heap w2) = state_at (State s) (heap w)
    /\ llms w2 = llms w.
Proof.
  intros Hk Hp. unfold add_user_message.
  set (u := set_Content (Some m) (set_Author "user" (NewEvent _ _))).
  assert (session_objs (bump (bump (heap w))) !! p = Some s) as Hp0 by exact Hp.
  destruct (Session_AddEvent_Events p s u _ Hp0) as (s1 & Hp1 & He1 & Hs1).
  pose proof (AppendEvent_state_objs (SessionService w)
                (Session_AddEvent time_Now p u (bump (bump (heap w))))
                (AppName r) userID sessionID u) as Hst.
  destruct (AppendEvent_Events (SessionService w) _ _ _ _ p s1 u Hk Hp1)
    as (h2 & s2 & Heq & Hp2 & He2 & Hs2).
  rewrite Heq in Hst. simpl in Hst. rewrite Heq.
  intros [= <- <-]. exists u, s2.
  split; [reflexivity | ]. split; [reflexivity | ]. split; [reflexivity | ].
  split; [reflexivity | ]. split; [exact Hp2 | ].
  split; [rewrite He2, He1, <- app_assoc; reflexivity | ].
  split; [ | reflexivity].
  unfold state_at. simpl. rewrite Hst, Session_AddEvent_state_objs, Hs2, Hs1.
  reflexivity.
Qed.

(** The run up to the call of the root agent, and what the caller
    receives: the events that the root agent's goroutine sends on the
    state of the session. *)
Lemma RunAsync_env (r : Runner) (userID sessionID : string)
    (newMessage : option Content) (w : World) :
  store_wf (SessionService w) (heap w) ->
  exists p s2 w2 t0,
    sessions (SessionService w2) !! sessionKey (AppName r) userID sessionID = Some p
    /\ session_objs (heap w2) !! p = Some s2
    /\ match newMessage with
       | Some m =>
           exists u, t0 = [RAddEvent u; RAppendEvent u]
                     /\ Author u = "user" /\ Content_ u = Some m
                     /\ Events s2 = persisted w (AppName r) userID sessionID ++ [u; u]
       | None => t0 = [] /\ Events s2 = persisted w (AppName r) userID sessionID
       end
    /\ RunAsync time_Now uuid_New r userID sessionID newMessage w
       = match agents.RunAsync (Agent r) (agents.mkInvocationContext s2) with
         | Err e => (Err ("failed to run agent: " +:+ e), t0 ++ [RAgentRunAsync], w2)
         | Ok eventChan =>
             let '(t, w') := relay time_Now r userID sessionID (State s2) eventChan w2 in
             (Ok (observed t), t0 ++ RAgentRunAsync :: t, w')
         end
    /\ forall eventChan,
         observed (relay time_Now r userID sessionID (State s2) eventChan w2).1
         = produced eventChan w (AppName r) userID sessionID.
Proof.
  intros Hwf. unfold RunAsync.
  destruct (getOrCreateSession _ _ r userID sessionID w) as [res w1] eqn:Hg.
  destruct (getOrCreateSession_env _ _ _ _ _ _ Hwf Hg)
    as (p & s & -> & Hk & Hp & He & Hst & Hl).
  destruct newMessage as [m|].
  - destruct (add_user_message _ _ r userID sessionID p m w1) as [t0 w2] eqn:Ha.
    destruct (add_user_message_env _ _ _ _ _ _ _ _ _ Hk Hp Ha)
      as (u & s2 & -> & Hau & Hc & Hs & Hp2 & He2 & Hst2 & Hl2).
    exists p, s2, w2, [RAddEvent u; RAppendEvent u].
    split; [by rewrite Hs | ]. split; [exact Hp2 | ].
    split; [exists u; rewrite He2, He; auto | ].
    split; [rewrite Hp2; reflexivity | ].
    intros proc. rewrite relay_observes_exec. unfold produced.
    rewrite Hst2, Hst, Hl2, Hl. reflexivity.
  - exists p, s, w1, []. split; [exact Hk | ]. split; [exact Hp | ].
    split; [auto | ]. split; [rewrite Hp; reflexivity | ].
    intros proc. rewrite relay_observes_exec. unfold produced.
    rewrite Hst, Hl. reflexivity.
Qed.

(** C1.  In a run of [RunAsync] that returns a channel, the events
    that the caller receives are exactly the events that the root
    agent produces (the events its goroutine sends on the state of the
    session), in order; the calls that the run makes from the call of
    the root agent on are, for each of these events in turn, its
    [AppendEvent] immediately followed by its send on the output
    channel, so that no event is sent that was not appended first and
    none that the agent produces is left out; and when the channel is
    closed the persisted event list of the session ends with the
    events the caller received, in the order in which it received
    them. *)
Theorem Runner_persists_before_relay (r : Runner) (userID sessionID : string)
    (newMessage : option Content) (w w' : World)
    (out : list Event) (t : list RunnerAct) :
  store_wf (SessionService w) (heap w) ->
  RunAsync time_Now uuid_New r userID sessionID newMessage w = (Ok out, t, w') ->
  out = observed t
  /\ (forall t1 e t2, t = t1 ++ ROutput e :: t2 ->
                      exists t0, t1 = t0 ++ [RAppendEvent e])
  /\ (exists older,
        ListEvents (SessionService w') (heap w') (AppName r) userID sessionID
        = Ok (Some (older ++ out)))
  /\ exists ctx proc t0,
      agents.RunAsync (Agent r) ctx = Ok proc
      /\ out = produced proc w (AppName r) userID sessionID
      /\ t = t0 ++ RAgentRunAsync :: relayed out
      /\ observed t0 = []
      /\ match newMessage with
         | Some m =>
             exists u, t0 = [RAddEvent u; RAppendEvent u]
                       /\ Author u = "user" /\ Content_ u = Some m
                       /\ Events (agents.Session ctx)
                          = persisted w (AppName r) userID sessionID ++ [u; u]
         | None =>
             t0 = []
             /\ Events (agents.Session ctx) = persisted w (AppName r) userID sessionID
         end.
Proof.
  intros Hwf Hrun.
  destruct (RunAsync_env r userID sessionID newMessage w Hwf)
    as (p & s2 & w2 & t0 & Hk & Hp & Hmsg & Heq & Hprod).
  rewrite Heq in Hrun. clear Heq.
  destruct (agents.RunAsync (Agent r) _) as [proc | msg] eqn:Hagent; [ | discriminate Hrun].
  specialize (Hprod proc).
  pose proof (relay_relayed r userID sessionID (State s2) proc w2) as Hpairs.
  destruct (relay _ r userID sessionID (State s2) proc w2) as [tr w3] eqn:Hr.
  simpl in Hprod, Hpairs.
  injection Hrun as <- <- <-.
  destruct (relay_spec r userID sessionID _ p proc _ _ _ _ Hk Hp Hr)
    as (Hs & Hshape & s' & Hp' & He').
  assert (observed t0 = [] /\ appended_first (t0 ++ RAgentRunAsync :: tr)) as [Ho Hfirst].
  { assert (appended_first (RAgentRunAsync :: tr)) as H0
      by (apply appended_first_cons; [discriminate | exact Hshape]).
    destruct newMessage as [m|].
    - destruct Hmsg as (u & -> & _). split; [reflexivity | ].
      simpl. apply appended_first_cons; [discriminate | ].
      apply appended_first_cons; [discriminate | exact H0].
    - destruct Hmsg as [-> _]. split; [reflexivity | exact H0]. }
  split; [ | split; [ | split]].
  - clear -Ho. induction t0 as [|a t0 IH]; [reflexivity | ].
    destruct a; simpl in *; try (apply IH; exact Ho). discriminate Ho.
  - exact Hfirst.
  - exists (Events s2). unfold ListEvents. rewrite Hs, Hk.
    unfold Session_GetEvents. rewrite Hp', He'. reflexivity.
  - exists (agents.mkInvocationContext s2), proc, t0.
    split; [exact Hagent | ]. split; [exact Hprod | ].
    split; [rewrite <- Hpairs; reflexivity | ]. split; [exact Ho | ].
    destruct newMessage as [m|].
    + destruct Hmsg as (u & Ht0 & Hau & Hc & He2). exists u. auto.
    + exact Hmsg.
Qed.

(** C2, as amended.  In a run of [RunAsync] with a message, the
    first calls are the appends of one event whose author is "user"
    and whose content is the message, and only then is the root
    agent called, on a session whose events end with that event;
    afterwards the persisted event list of the session is the list
    from before the run followed by that event first.  The runner
    itself never sends that event on the output channel: the caller
    receives exactly the events that the root agent produces, in
    order, whatever they are, and the calls after the call of the
    root agent are the append and the send of each of them. *)
Theorem Runner_user_event_first (r : Runner) (userID sessionID : string)
    (m : Content) (w w' : World) (res : Result (list Event)) (t : list RunnerAct) :
  store_wf (SessionService w) (heap w) ->
  RunAsync time_Now uuid_New r userID sessionID (Some m) w = (res, t, w') ->
  exists u ctx later,
    Author u = "user" /\ Content_ u = Some m
    /\ Events (agents.Session ctx) = persisted w (AppName r) userID sessionID ++ [u; u]
    /\ ListEvents (SessionService w') (heap w') (AppName r) userID sessionID
       = Ok (Some (persisted w (AppName r) userID sessionID ++ u :: later))
    /\ match agents.RunAsync (Agent r) ctx with
       | Ok proc =>
           res = Ok (produced proc w (AppName r) userID sessionID)
           /\ t = RAddEvent u :: RAppendEvent u :: RAgentRunAsync
                   :: relayed (produced proc w (AppName r) userID sessionID)
           /\ later = u :: produced proc w (AppName r) userID sessionID
       | Err e =>
           res = Err ("failed to run agent: " +:+ e)
           /\ t = [RAddEvent u; RAppendEvent u; RAgentRunAsync]
           /\ later = [u]
       end.
Proof.
  intros Hwf Hrun.
  destruct (RunAsync_env r userID sessionID (Some m) w Hwf)
    as (p & s2 & w2 & t0 & Hk & Hp & (u & -> & Hau & Hc & He2) & Heq & Hprod).
  rewrite Heq in Hrun. clear Heq.
  exists u, (agents.mkInvocationContext s2).
  destruct (agents.RunAsync (Agent r) _) as [proc | msg].
  - specialize (Hprod proc).
    pose proof (relay_relayed r userID sessionID (State s2) proc w2) as Hpairs.
    destruct (relay _ r userID sessionID (State s2) proc w2) as [tr w3] eqn:Hr.
    simpl in Hprod, Hpairs.
    injection Hrun as <- <- <-.
    destruct (relay_spec r userID sessionID _ p proc _ _ _ _ Hk Hp Hr)
      as (Hs & _ & s' & Hp' & He').
    exists (u :: observed tr).
    split; [exact Hau | ]. split; [exact Hc | ]. split; [exact He2 | ].
    split.
    + unfold ListEvents. rewrite Hs, Hk. unfold Session_GetEvents.
      rewrite Hp', He', He2, <- app_assoc. reflexivity.
    + rewrite <- Hprod. split; [reflexivity | ].
      split; [simpl; rewrite <- Hpairs; reflexivity | reflexivity].
  - injection Hrun as <- <- <-.
    exists [u].
    split; [exact Hau | ]. split; [exact Hc | ]. split; [exact He2 | ].
    split.
    + unfold ListEvents. rewrite Hk. unfold Session_GetEvents.
      rewrite Hp, He2. reflexivity.
    + split; [reflexivity | split; reflexivity].
Qed.

End Runner.

Section RunnerExamples.
Import events sessions runners traces fixtures.

Example runner0_run :
  (RunAsync time0 uuid0 runner0 "u1" "s1" (Some question) world0).1
  = (Ok [hello],
     [RAddEvent user_event; RAppendEvent user_event; RAgentRunAsync;
      RAppendEvent hello; ROutput hello]).
Proof. vm_compute. reflexivity. Qed.

(** The store holds the user event twice: once from [AddEvent] on
    the runner's pointer, once from [AppendEvent] on the same
    session. *)
Example runner0_persisted :
  persisted (RunAsync time0 uuid0 runner0 "u1" "s1" (Some question) world0).2
            "app" "u1" "s1"
  = [user_event; user_event; hello].
Proof. vm_compute. reflexivity. Qed.

Lemma Runner_persists_before_relay_witness :
  let run := RunAsync time0 uuid0 runner0 "u1" "s1" (Some question) world0 in
  store_wf (SessionService world0) (heap world0)
  /\ run.1.1 = Ok [hello]
  /\ [hello] = observed run.1.2
  /\ (forall t1 e t2, run.1.2 = t1 ++ ROutput e :: t2 ->
                      exists t0, t1 = t0 ++ [RAppendEvent e])
  /\ (exists older,
        ListEvents (SessionService run.2) (heap run.2) (AppName runner0) "u1" "s1"
        = Ok (Some (older ++ [hello])))
  /\ exists ctx proc t0,
      agents.RunAsync (Agent runner0) ctx = Ok proc
      /\ [hello] = produced proc world0 (AppName runner0) "u1" "s1"
      /\ run.1.2 = t0 ++ RAgentRunAsync :: relayed [hello]
      /\ observed t0 = []
      /\ exists u, t0 = [RAddEvent u; RAppendEvent u]
                   /\ Author u = "user" /\ Content_ u = Some question
                   /\ Events (agents.Session ctx)
                      = persisted world0 (AppName runner0) "u1" "s1" ++ [u; u].
Proof.
  split; [apply store_wf_empty | ].
  split; [vm_compute; reflexivity | ].
  apply (Runner_persists_before_relay time0 uuid0 runner0 "u1" "s1" (Some question) world0
           (RunAsync time0 uuid0 runner0 "u1" "s1" (Some question) world0).2
           [hello]
           (RunAsync time0 uuid0 runner0 "u1" "s1" (Some question) world0).1.2
           (store_wf_empty _)).
  vm_compute. reflexivity.
Defined.

Lemma Runner_user_event_first_witness :
  let run := RunAsync time0 uuid0 runner0 "u1" "s1" (Some question) world0 in
  store_wf (SessionService world0) (heap world0)
  /\ exists u ctx later,
      Author u = "user" /\ Content_ u = Some question
      /\ Events (agents.Session ctx)
         = persisted world0 (AppName runner0) "u1" "s1" ++ [u; u]
      /\ ListEvents (SessionService run.2) (heap run.2) (AppName runner0) "u1" "s1"
         = Ok (Some (persisted world0 (AppName runner0) "u1" "s1" ++ u :: later))
      /\ match agents.RunAsync (Agent runner0) ctx with
         | Ok proc =>
             run.1.1 = Ok (produced proc world0 (AppName runner0) "u1" "s1")
             /\ run.1.2 = RAddEvent u :: RAppendEvent u :: RAgentRunAsync
                          :: relayed (produced proc world0 (AppName runner0) "u1" "s1")
             /\ later = u :: produced proc world0 (AppName runner0) "u1" "s1"
         | Err e =>
             run.1.1 = Err ("failed to run agent: " +:+ e)
             /\ run.1.2 = [RAddEvent u; RAppendEvent u; RAgentRunAsync]
             /\ later = [u]
         end.
Proof.
  split; [apply store_wf_empty | ].
  apply (Runner_user_event_first time0 uuid0 runner0 "u1" "s1" question world0
           _ (RunAsync time0 uuid0 runner0 "u1" "s1" (Some question) world0).1.1 _
           (store_wf_empty _)).
  vm_compute. reflexivity.
Defined.

(** The user event reaches the caller when the root agent itself
    sends it: the runner relays what the agent produces, whatever it
    is. *)
Example echo_root_sends_user_event :
  (RunAsync time0 uuid0 echo_runner "u1" "s1" (Some question) world0).1
  = (Ok [user_event],
     [RAddEvent user_event; RAppendEvent user_event; RAgentRunAsync;
      RAppendEvent user_event; ROutput user_event])
  /\ persisted (RunAsync time0 uuid0 echo_runner "u1" "s1" (Some question) world0).2
               "app" "u1" "s1"
     = [user_event; user_event; user_event].
Proof. split; vm_compute; reflexivity. Qed.

(** C2 as stated fails: the first event the caller receives in this
    run is [hello], whose author is "bot"; the user event is never
    sent on the output channel. *)
Lemma Runner_first_observed_not_user :
  (RunAsync time0 uuid0 runner0 "u1" "s1" (Some question) world0).1.1 = Ok [hello]
  /\ Author hello = "bot"
  /\ ~ (exists out e,
          (RunAsync time0 uuid0 runner0 "u1" "s1" (Some question) world0).1.1 = Ok out
          /\ head out = Some e
          /\ Author e = "user" /\ Content_ e = Some question).
Proof.
  assert ((RunAsync time0 uuid0 runner0 "u1" "s1" (Some question) world0).1.1
          = Ok [hello]) as Hrun by (vm_compute; reflexivity).
  split; [exact Hrun | ]. split; [reflexivity | ].
  intros (out & e & Hout & Hhead & Hauthor & _).
  rewrite Hrun in Hout. injection Hout as <-. simpl in Hhead.
  injection Hhead as <-. vm_compute in Hauthor. discriminate Hauthor.
Qed.

End RunnerExamples.

(** ** The lock of State *)
Section StateLocking.
Import sessions state_locking.

Lemma count_r_insert (ts : list Thread) (i : nat) (th th' : Thread) :
  ts !! i = Some th ->
  (count_r (<[i := th']> ts) + (if holds_r th then 1 else 0)
   = count_r ts + (if holds_r th' then 1 else 0))%nat.
Proof.
  unfold count_r. revert i. induction ts as [|x ts IH]; intros i Hi.
  - destruct i; discriminate Hi.
  - destruct i as [|i]; simpl in *.
    + injection Hi as ->. rewrite !filter_cons.
      destruct (holds_r th), (holds_r th'); repeat case_decide; simpl; try congruence; lia.
    + specialize (IH i Hi). rewrite !filter_cons.
      case_decide; simpl; lia.
Qed.

Lemma count_r_pos (ts : list Thread) (i : nat) (th : Thread) :
  ts !! i = Some th -> holds_r th = true -> (1 <= count_r ts)%nat.
Proof.
  unfold count_r. revert i. induction ts as [|x ts IH]; intros i Hi Hr.
  - destruct i; discriminate Hi.
  - rewrite filter_cons. destruct i as [|i]; simpl in *.
    + injection Hi as ->. case_decide; [simpl; lia | congruence].
    + specialize (IH i Hi Hr). case_decide; simpl; lia.
Qed.

Lemma count_r_initial (programs : list (list Method)) :
  count_r (map (mkThread None []) programs) = 0%nat.
Proof.
  unfold count_r. induction programs as [|ms programs IH]; [reflexivity | ].
  simpl. rewrite filter_cons. case_decide; [discriminate | exact IH].
Qed.

Lemma lookup_insert_thread (ts : list Thread) (i j : nat) (th' x : Thread) :
  <[i := th']> ts !! j = Some x ->
  (j = i /\ x = th') \/ (j <> i /\ ts !! j = Some x).
Proof.
  intros H. apply list_lookup_insert_Some in H as [(-> & -> & _) | (Hne & Hold)].
  - left. split; reflexivity.
  - right. split; [congruence | exact Hold].
Qed.

(** The body of an [Update] after its [Lock]: writes, then the unlock,
    and together they are [State.Update] as one function. *)
Lemma update_section (updates : list (string * Value)) :
  write_section (map (fun kv => Write kv.1 kv.2) updates ++ [Unlock]) = true
  /\ forall d, apply_code (map (fun kv => Write kv.1 kv.2) updates ++ [Unlock]) d
               = State_Update updates d.
Proof.
  induction updates as [|[k v] us [IH1 IH2]]; simpl.
  - split; reflexivity.
  - split; [exact IH1 | ]. intros d. rewrite IH2. reflexivity.
Qed.

Lemma thread_inv_body (d committed : gmap string Value) (m : Method) (ms : list Method) :
  thread_inv d committed (mkThread (Some m) (body m) ms).
Proof.
  unfold thread_inv. destruct m as [key | key v | us]; simpl.
  - exists key. reflexivity.
  - exists (Set_ key v). repeat split.
  - exists (Update us). destruct (update_section us) as [H1 H2].
    split; [reflexivity | split; [exact H1 | exact H2]].
Qed.

Lemma holds_body (m : Method) (ms : list Method) :
  holds_r (mkThread (Some m) (body m) ms) = false
  /\ holds_w (mkThread (Some m) (body m) ms) = false.
Proof. destruct m; split; reflexivity. Qed.

(** A goroutine outside a write section does not depend on the map. *)
Lemma thread_inv_frame (d committed d' committed' : gmap string Value) (th : Thread) :
  holds_w th = false -> thread_inv d committed th -> thread_inv d' committed' th.
Proof.
  unfold holds_w, thread_inv.
  destruct (code th) as [|[] rest]; simpl; auto; discriminate.
Qed.

Lemma write_section_head (c : list Instr) (th : Thread) :
  code th = c -> write_section c = true -> holds_w th = true /\ holds_r th = false.
Proof.
  unfold holds_w, holds_r. intros ->.
  destruct c as [|[] rest]; simpl; try discriminate; auto.
Qed.

Lemma apply_all_snoc (ms : list Method) (m : Method) (d : gmap string Value) :
  apply_all (ms ++ [m]) d = apply m (apply_all ms d).
Proof. unfold apply_all. rewrite fold_left_app. reflexivity. Qed.

Lemma Inv_initial (init : gmap string Value) (programs : list (list Method)) :
  Inv init (initial init programs).
Proof.
  assert (forall i th, map (mkThread None []) programs !! i = Some th -> code th = []) as Hc.
  { intros i th H. rewrite list_lookup_fmap in H.
    destruct (programs !! i); [injection H as <-; reflexivity | discriminate H]. }
  unfold Inv, initial; simpl.
  split; [ | split; [ | split; [ | split; [ | split]]]].
  - intros i th Hi. unfold thread_inv. rewrite (Hc _ _ Hi). exact I.
  - symmetry. apply count_r_initial.
  - intros _. split; [ | reflexivity].
    intros i th Hi. unfold holds_w. rewrite (Hc _ _ Hi). reflexivity.
  - discriminate.
  - intros i j th th' Hi _ Hw. unfold holds_w in Hw. rewrite (Hc _ _ Hi) in Hw.
    discriminate Hw.
  - constructor.
Qed.

Lemma unique_w_insert_false (ts : list Thread) (i : nat) (th' : Thread) :
  unique_w ts -> holds_w th' = false -> unique_w (<[i := th']> ts).
Proof.
  intros Hu Hw j1 j2 x1 x2 H1 H2 Hw1 Hw2.
  apply lookup_insert_thread in H1 as [[-> ->] | [Hn1 H1]]; [congruence | ].
  apply lookup_insert_thread in H2 as [[-> ->] | [Hn2 H2]]; [congruence | ].
  exact (Hu _ _ _ _ H1 H2 Hw1 Hw2).
Qed.

Lemma unique_w_insert_same (ts : list Thread) (i : nat) (th th' : Thread) :
  unique_w ts -> ts !! i = Some th -> holds_w th = true -> unique_w (<[i := th']> ts).
Proof.
  intros Hu Hi Hw j1 j2 x1 x2 H1 H2 Hw1 Hw2.
  assert (forall j x, <[i := th']> ts !! j = Some x -> holds_w x = true -> j = i) as Hall.
  { intros j x Hj Hx. apply lookup_insert_thread in Hj as [[-> ->] | [Hn Hj]]; [reflexivity | ].
    exact (Hu _ _ _ _ Hj Hi Hx Hw). }
  rewrite (Hall _ _ H1 Hw1), (Hall _ _ H2 Hw2). reflexivity.
Qed.

Lemma unique_w_insert_none (ts : list Thread) (i : nat) (th' : Thread) :
  (forall j x, ts !! j = Some x -> holds_w x = false) -> unique_w (<[i := th']> ts).
Proof.
  intros Hnone j1 j2 x1 x2 H1 H2 Hw1 Hw2.
  assert (forall j x, <[i := th']> ts !! j = Some x -> holds_w x = true -> j = i) as Hall.
  { intros j x Hj Hx. apply lookup_insert_thread in Hj as [[-> ->] | [Hn Hj]]; [reflexivity | ].
    rewrite (Hnone _ _ Hj) in Hx. discriminate Hx. }
  rewrite (Hall _ _ H1 Hw1), (Hall _ _ H2 Hw2). reflexivity.
Qed.

(** The other goroutines keep their place when goroutine [i] steps. *)
Lemma thread_inv_insert (ts : list Thread) (i : nat) (th' : Thread)
    (d committed d' committed' : gmap string Value) :
  (forall j x, ts !! j = Some x -> thread_inv d committed x) ->
  thread_inv d' committed' th' ->
  ((d = d' /\ committed = committed')
   \/ forall j x, j <> i -> ts !! j = Some x -> holds_w x = false) ->
  forall j x, <[i := th']> ts !! j = Some x -> thread_inv d' committed' x.
Proof.
  intros Hall Hnew Hframe j x Hj.
  apply lookup_insert_thread in Hj as [[-> ->] | [Hn Hj]]; [exact Hnew | ].
  destruct Hframe as [[<- <-] | Hothers]; [exact (Hall _ _ Hj) | ].
  exact (thread_inv_frame _ _ _ _ _ (Hothers _ _ Hn Hj) (Hall _ _ Hj)).
Qed.

Lemma no_writer_insert (ts : list Thread) (i : nat) (th' : Thread) :
  (forall j x, j <> i -> ts !! j = Some x -> holds_w x = false) ->
  holds_w th' = false ->
  forall j x, <[i := th']> ts !! j = Some x -> holds_w x = false.
Proof.
  intros Hothers Hnew j x Hj.
  apply lookup_insert_thread in Hj as [[-> ->] | [Hn Hj]]; [exact Hnew | ].
  exact (Hothers _ _ Hn Hj).
Qed.

(** Every step keeps the invariant. *)
Lemma Inv_step (init : gmap string Value) (i : nat) (c c' : Config) :
  Inv init c -> step i c = Some c' -> Inv init c'.
Proof.
  intros (I1 & I2 & I3 & I4 & I5 & I6). unfold step.
  destruct (threads c !! i) as [th|] eqn:Hi; [ | discriminate].
  pose proof (I1 i th Hi) as Hth. unfold thread_inv in Hth.
  assert (holds_w th = true ->
          forall j x, j <> i -> threads c !! j = Some x -> holds_w x = false) as Hsole.
  { intros Hw j x Hn Hj. destruct (holds_w x) eqn:Hx; [ | reflexivity].
    exfalso. apply Hn. exact (I5 _ _ _ _ Hj Hi Hx Hw). }
  assert (holds_w th = true -> writer (mu c) = true) as Hheld.
  { intros Hw. destruct (writer (mu c)) eqn:Hwr; [reflexivity | ].
    destruct (I3 eq_refl) as [Hnone _]. rewrite (Hnone _ _ Hi) in Hw. discriminate Hw. }
  destruct (code th) as [|ins rest] eqn:Hcode.
  - (* the call of the next method *)
    destruct (todo th) as [|m ms]; [discriminate | ]. intros [= <-].
    destruct (holds_body m ms) as [Hbr Hbw].
    assert (holds_r th = false) as Hr by (unfold holds_r; rewrite Hcode; reflexivity).
    pose proof (count_r_insert _ _ _ (mkThread (Some m) (body m) ms) Hi) as Hcount.
    rewrite Hbr, Hr in Hcount.
    unfold Inv; simpl. split; [ | split; [ | split; [ | split; [ | split]]]].
    + apply (thread_inv_insert _ _ _ _ _ _ _ I1); [apply thread_inv_body | left; auto].
    + lia.
    + intros Hwr. destruct (I3 Hwr) as [Hnone Hd]. split; [ | exact Hd].
      apply no_writer_insert; [ | exact Hbw]. intros j x _ Hj. exact (Hnone _ _ Hj).
    + exact I4.
    + apply unique_w_insert_false; assumption.
    + exact I6.
  - set (th' := mkThread (running th) rest (todo th)).
    pose proof (count_r_insert _ _ _ th' Hi) as Hcount.
    unfold holds_r in Hcount at 1 2. rewrite Hcode in Hcount. simpl in Hcount.
    destruct ins as [ | | | | key | key v].
    + (* RLock *)
      destruct (writer (mu c)) eqn:Hwr; [discriminate | ]. intros [= <-].
      destruct Hth as [key ->]. destruct (I3 eq_refl) as [Hnone Hd].
      unfold Inv; simpl. split; [ | split; [ | split; [ | split; [ | split]]]].
      * apply (thread_inv_insert _ _ _ _ _ _ _ I1); [reflexivity | left; auto].
      * fold th'. lia.
      * intros _. split; [ | exact Hd].
        apply no_writer_insert; [ | reflexivity]. intros j x _ Hj. exact (Hnone _ _ Hj).
      * discriminate.
      * apply unique_w_insert_false; [exact I5 | reflexivity].
      * exact I6.
    + (* RUnlock *)
      intros [= <-]. subst rest.
      unfold Inv; simpl. split; [ | split; [ | split; [ | split; [ | split]]]].
      * apply (thread_inv_insert _ _ _ _ _ _ _ I1); [exact I | left; auto].
      * fold th'. lia.
      * intros Hwr. destruct (I3 Hwr) as [Hnone Hd]. split; [ | exact Hd].
        apply no_writer_insert; [ | reflexivity]. intros j x _ Hj. exact (Hnone _ _ Hj).
      * intros Hwr. rewrite (I4 Hwr). reflexivity.
      * apply unique_w_insert_false; [exact I5 | reflexivity].
      * exact I6.
    + (* Lock *)
      destruct (writer (mu c)) eqn:Hwr; [discriminate | ].
      destruct (readers (mu c) =? 0)%nat eqn:Hz; [ | discriminate].
      apply Nat.eqb_eq in Hz. simpl. intros [= <-].
      destruct Hth as (m & Hrun & Hsec & Happ). destruct (I3 eq_refl) as [Hnone Hd].
      destruct (write_section_head rest th' eq_refl Hsec) as [Hw' Hr'].
      unfold Inv; simpl. split; [ | split; [ | split; [ | split; [ | split]]]].
      * apply (thread_inv_insert _ _ _ _ _ _ _ I1); [ | left; auto].
        unfold thread_inv. simpl.
        assert (exists m0, Some m = Some m0 /\ write_section rest = true
                           /\ apply_code rest (data c) = apply m0 (apply_all (history c) init))
          as Hgoal by (exists m; rewrite Happ, <- Hd; auto).
        clear -Hgoal Hsec Hrun. rewrite Hrun.
        destruct rest as [|[] rest']; simpl in Hsec; try discriminate; exact Hgoal.
      * fold th'. unfold holds_r in Hr'. simpl in Hr'. rewrite Hr' in Hcount. lia.
      * discriminate.
      * intros _. exact Hz.
      * apply unique_w_insert_none. exact Hnone.
      * exact I6.
    + (* Unlock *)
      intros [= <-].
      assert (holds_w th = true) as Hw by (unfold holds_w; rewrite Hcode; reflexivity).
      destruct Hth as (m & Hrun & Hsec & Happ). simpl in Hsec, Happ.
      destruct rest as [|? ?]; [ | discriminate Hsec]. rewrite Hrun.
      unfold Inv; simpl. rewrite apply_all_snoc.
      split; [ | split; [ | split; [ | split; [ | split]]]].
      * apply (thread_inv_insert _ _ _ _ _ _ _ I1); [exact I | right; exact (Hsole Hw)].
      * fold th'. lia.
      * intros _. split; [ | exact Happ].
        apply no_writer_insert; [exact (Hsole Hw) | reflexivity].
      * discriminate.
      * apply unique_w_insert_false; [exact I5 | reflexivity].
      * eapply Forall_impl; [exact I6 | ]. intros r (n & Hn & Hr).
        exists n. rewrite length_app. split; [lia | ].
        rewrite take_app_le by exact Hn. exact Hr.
    + (* Read *)
      intros [= <-]. subst rest.
      assert (holds_r th = true) as Hr by (unfold holds_r; rewrite Hcode; reflexivity).
      pose proof (count_r_pos _ _ _ Hi Hr) as Hpos.
      assert (writer (mu c) = false) as Hwr.
      { destruct (writer (mu c)) eqn:Hwr; [ | reflexivity].
        specialize (I4 eq_refl). lia. }
      destruct (I3 Hwr) as [Hnone Hd].
      unfold Inv; simpl. split; [ | split; [ | split; [ | split; [ | split]]]].
      * apply (thread_inv_insert _ _ _ _ _ _ _ I1); [reflexivity | left; auto].
      * fold th'. lia.
      * intros _. split; [ | exact Hd].
        apply no_writer_insert; [ | reflexivity]. intros j x _ Hj. exact (Hnone _ _ Hj).
      * exact I4.
      * apply unique_w_insert_false; [exact I5 | reflexivity].
      * apply Forall_app. split; [exact I6 | ]. constructor; [ | constructor].
        exists (length (history c)). split; [lia | ]. simpl.
        rewrite firstn_all, <- Hd. reflexivity.
    + (* Write *)
      intros [= <-].
      assert (holds_w th = true) as Hw by (unfold holds_w; rewrite Hcode; reflexivity).
      destruct Hth as (m & Hrun & Hsec & Happ). simpl in Hsec, Happ.
      destruct (write_section_head rest th' eq_refl Hsec) as [Hw' Hr'].
      unfold Inv; simpl. split; [ | split; [ | split; [ | split; [ | split]]]].
      * apply (thread_inv_insert _ _ _ _ _ _ _ I1); [ | right; exact (Hsole Hw)].
        unfold thread_inv. simpl.
        assert (exists m0, running th = Some m0 /\ write_section rest = true
                           /\ apply_code rest (State_Set key v (data c))
                              = apply m0 (apply_all (history c) init))
          as Hgoal by (exists m; auto).
        clear -Hgoal Hsec.
        destruct rest as [|[] rest']; simpl in Hsec; try discriminate; exact Hgoal.
      * fold th'. unfold holds_r in Hr'. simpl in Hr'. rewrite Hr' in Hcount. lia.
      * intros Hwr. rewrite (Hheld Hw) in Hwr. discriminate Hwr.
      * exact I4.
      * apply (unique_w_insert_same _ _ th); assumption.
      * exact I6.
Qed.

Lemma Inv_run (init : gmap string Value) (schedule : list nat) (c c' : Config) :
  Inv init c -> run schedule c = Some c' -> Inv init c'.
Proof.
  revert c. induction schedule as [|i rest IH]; intros c HI; simpl.
  - intros [= <-]. exact HI.
  - destruct (step i c) as [c1|] eqn:Hs; [ | discriminate].
    apply IH. exact (Inv_step _ _ _ _ HI Hs).
Qed.

Lemma from_programs_initial (init : gmap string Value) (programs : list (list Method)) :
  from_programs (concat programs) (initial init programs).
Proof.
  split; [constructor | ]. simpl. intros i th Hi.
  rewrite list_lookup_fmap in Hi.
  destruct (programs !! i) as [ms|] eqn:Hp; [ | discriminate Hi].
  injection Hi as <-. simpl. split; [discriminate | ].
  apply Forall_forall. intros m Hm. apply list_elem_of_In.
  apply in_concat. exists ms. split.
  - apply list_elem_of_In. eapply list_elem_of_lookup_2. exact Hp.
  - apply list_elem_of_In. exact Hm.
Qed.

Lemma from_programs_step (all : list Method) (i : nat) (c c' : Config) :
  from_programs all c -> step i c = Some c' -> from_programs all c'.
Proof.
  intros [Hh Ht]. unfold step.
  destruct (threads c !! i) as [th|] eqn:Hi; [ | discriminate].
  destruct (Ht _ _ Hi) as [Hrun Htodo].
  assert (forall th', (forall m, running th' = Some m -> m ∈ all) ->
                      Forall (fun m => m ∈ all) (todo th') ->
                      forall j x, <[i := th']> (threads c) !! j = Some x ->
                                  (forall m, running x = Some m -> m ∈ all)
                                  /\ Forall (fun m => m ∈ all) (todo x)) as Hins.
  { intros th' H1 H2 j x Hj.
    apply lookup_insert_thread in Hj as [[-> ->] | [Hn Hj]]; [auto | exact (Ht _ _ Hj)]. }
  destruct (code th) as [|ins rest].
  - destruct (todo th) as [|m ms]; [discriminate | ]. intros [= <-].
    apply Forall_cons in Htodo as [Hm Hms].
    split; [exact Hh | ]. simpl. apply Hins; simpl; [ | exact Hms].
    intros m0 [= <-]. exact Hm.
  - destruct ins; try (intros [= <-]; split; [exact Hh | apply Hins; assumption]).
    + destruct (writer (mu c)); [discriminate | ].
      intros [= <-]. split; [exact Hh | apply Hins; assumption].
    + destruct (writer (mu c) || negb (readers (mu c) =? 0)%nat); [discriminate | ].
      intros [= <-]. split; [exact Hh | apply Hins; assumption].
    + intros [= <-]. split; [ | apply Hins; assumption]. simpl.
      apply Forall_app. split; [exact Hh | ].
      destruct (running th) as [m|]; [ | constructor].
      constructor; [exact (Hrun m eq_refl) | constructor].
Qed.

Lemma from_programs_run (all : list Method) (schedule : list nat) (c c' : Config) :
  from_programs all c -> run schedule c = Some c' -> from_programs all c'.
Proof.
  revert c. induction schedule as [|i rest IH]; intros c HI; simpl.
  - intros [= <-]. exact HI.
  - destruct (step i c) as [c1|] eqn:Hs; [ | discriminate].
    apply IH. exact (from_programs_step _ _ _ _ HI Hs).
Qed.

(** C8, as amended.  [Update] is atomic with respect to each single
    call of [Get]: in every interleaving of goroutines that call
    [Get], [Set] and [Update] on one [State], whenever a goroutine is
    at the read of a [Get] the map is the initial map with whole [Set]
    and [Update] calls of the goroutines applied to it, those that
    have released the lock, in that order: an [Update] is in it with
    all of its pairs or with none.  Hence every value a [Get] has
    returned is the value of its key after some number of whole
    calls, a number of its own for each [Get]: two [Get] calls of one
    reader may lie on either side of an [Update]. *)
Theorem Update_atomic (init : gmap string Value) (programs : list (list Method))
    (schedule : list nat) (c : Config) :
  run schedule (initial init programs) = Some c ->
  Forall (fun m => m ∈ concat programs) (history c)
  /\ (forall i th key rest,
        threads c !! i = Some th -> code th = Read key :: rest ->
        data c = apply_all (history c) init)
  /\ Forall (fun r => exists n, (n <= length (history c))%nat
                                /\ r.2 = State_Get r.1.2 (apply_all (take n (history c)) init))
            (returned c).
Proof.
  intros Hrun.
  destruct (Inv_run init schedule _ _ (Inv_initial init programs) Hrun)
    as (I1 & I2 & I3 & I4 & I5 & I6).
  split; [ | split; [ | exact I6]].
  { exact (proj1 (from_programs_run _ _ _ _ (from_programs_initial init programs) Hrun)). }
  intros i th key rest Hi Hcode.
  assert (holds_r th = true) as Hr by (unfold holds_r; rewrite Hcode; reflexivity).
  pose proof (count_r_pos _ _ _ Hi Hr) as Hpos.
  destruct (writer (mu c)) eqn:Hwr.
  - specialize (I4 eq_refl). lia.
  - exact (proj2 (I3 eq_refl)).
Qed.

End StateLocking.

Section StateLockingExamples.
Import sessions state_locking fixtures.

(** In the middle of the [Update] (goroutine 0 has made its call,
    taken the lock and written the first pair) the map does hold one
    new and one old value, and the reader (goroutine 1, at its
    [RLock]) cannot step. *)
Example reader_waits_for_update :
  exists c,
    run [0; 0; 0; 1]%nat (initial old_state two_goroutines) = Some c
    /\ data c !! "k1" = Some (VInt 1) /\ data c !! "k2" = Some (VInt 0)
    /\ step 1 c = None.
Proof.
  eexists. split; [vm_compute; reflexivity | ].
  split; [vm_compute; reflexivity | ].
  split; vm_compute; reflexivity.
Qed.

(** One interleaving in full: the reader gets the old value of [k1]
    before the [Update] and the new value of [k2] after it. *)
Example interleaved_reads :
  exists c,
    run [1; 1; 1; 1; 0; 0; 0; 0; 0; 1; 1; 1; 1]%nat (initial old_state two_goroutines)
    = Some c
    /\ returned c = [(1%nat, "k1", Some (VInt 0)); (1%nat, "k2", Some (VInt 2))]
    /\ history c = [Update [("k1", VInt 1); ("k2", VInt 2)]].
Proof.
  eexists. split; [vm_compute; reflexivity | ].
  split; vm_compute; reflexivity.
Qed.

(** C8 as stated fails: a reader that calls [Get("k1")] and then
    [Get("k2")] next to an [Update] of both keys gets the old value of
    [k1] and the new value of [k2]; no single number of whole calls
    accounts for both values. *)
Lemma Update_seen_half_by_two_reads :
  exists c,
    run update_between_reads (initial old_state two_goroutines) = Some c
    /\ history c = [Update [("k1", VInt 1); ("k2", VInt 2)]]
    /\ returned c = [(1%nat, "k1", State_Get "k1" old_state);
                     (1%nat, "k2", State_Get "k2"
                                     (State_Update [("k1", VInt 1); ("k2", VInt 2)]
                                                   old_state))]
    /\ State_Get "k1" old_state
       <> State_Get "k1" (State_Update [("k1", VInt 1); ("k2", VInt 2)] old_state)
    /\ State_Get "k2" old_state
       <> State_Get "k2" (State_Update [("k1", VInt 1); ("k2", VInt 2)] old_state)
    /\ ~ (exists n,
            Forall (fun r => r.2 = State_Get r.1.2
                                     (apply_all (take n (history c)) old_state))
                   (returned c)).
Proof.
  eexists. split; [vm_compute; reflexivity | ].
  split; [reflexivity | ]. split; [vm_compute; reflexivity | ].
  split; [vm_compute; discriminate | ]. split; [vm_compute; discriminate | ].
  intros [n H]. destruct n as [|n].
  - apply Forall_cons in H as [_ H]. apply Forall_cons in H as [H _].
    vm_compute in H. discriminate H.
  - apply Forall_cons in H as [H _]. simpl in H. rewrite take_nil in H.
    vm_compute in H. discriminate H.
Qed.

Lemma Update_atomic_witness :
  exists c,
    run update_between_reads (initial old_state two_goroutines) = Some c
    /\ Forall (fun m => m ∈ concat two_goroutines) (history c)
    /\ (forall i th key rest,
          threads c !! i = Some th -> code th = Read key :: rest ->
          data c = apply_all (history c) old_state)
    /\ Forall (fun r => exists n, (n <= length (history c))%nat
                                  /\ r.2 = State_Get r.1.2
                                             (apply_all (take n (history c)) old_state))
              (returned c).
Proof.
  eexists. split; [vm_compute; reflexivity | ].
  apply (Update_atomic old_state two_goroutines update_between_reads).
  vm_compute. reflexivity.
Defined.

End StateLockingExamples.

(** ** More of the session store *)
Section SessionStoreMore.
Import events sessions service_calls.
Variable time_Now : nat -> Z.
Variable uuid_New : nat -> string.

Lemma append_assoc_str (a b c : string) : (a +:+ b) +:+ c = a +:+ (b +:+ c).
Proof.
  induction a as [|x a IH]; [reflexivity | ].
  rewrite !append_cons, IH. reflexivity.
Qed.

Lemma sessionKey_prefix (appName userID sessionID : string) :
  sessionKey appName userID sessionID
  = ((appName +:+ ":") +:+ userID +:+ ":") +:+ sessionID.
Proof. unfold sessionKey. rewrite !append_assoc_str. reflexivity. Qed.

(** X1.  [ListSessions] for an application and a user returns exactly
    the sessions that [GetSession] returns for that application, that
    user and some non-empty session id. *)
Theorem ListSessions_by_GetSession (s : InMemorySessionService)
    (appName userID : string) (p : SessionPtr) :
  (exists l, ListSessions s appName userID = Ok l /\ p ∈ l)
  <-> exists sessionID, sessionID <> ""
                        /\ GetSession s appName userID sessionID = Ok (Some p).
Proof.
  rewrite ListSessions_spec. unfold GetSession. split.
  - intros (key & Hk & Hm). apply key_matches_spec in Hm as (rest & Hne & ->).
    exists rest. split; [exact Hne | ]. rewrite sessionKey_prefix, Hk. reflexivity.
  - intros (sid & Hne & Hg). exists (sessionKey appName userID sid).
    destruct (sessions s !! sessionKey appName userID sid) as [q|] eqn:Hk;
      [ | discriminate Hg].
    injection Hg as ->. split; [reflexivity | ].
    apply key_matches_spec. exists sid. split; [exact Hne | apply sessionKey_prefix].
Qed.

Lemma split_at_colon (a a' x x' : string) :
  no_colon a = true -> no_colon a' = true ->
  a +:+ ":" +:+ x = a' +:+ ":" +:+ x' -> a = a' /\ x = x'.
Proof.
  revert a'. induction a as [|c a IH]; intros a' Ha Ha' Heq.
  - destruct a' as [|c' a'].
    + rewrite !append_nil_l, !append_cons, !append_nil_l in Heq.
      injection Heq as ->. split; reflexivity.
    + rewrite append_nil_l, !append_cons, append_nil_l in Heq.
      injection Heq as <- _. simpl in Ha'. discriminate Ha'.
  - destruct a' as [|c' a'].
    + rewrite append_nil_l, !append_cons, append_nil_l in Heq.
      injection Heq as -> _. simpl in Ha. discriminate Ha.
    + rewrite !append_cons in Heq. injection Heq as -> Heq.
      simpl in Ha, Ha'. apply andb_true_iff in Ha as [_ Ha].
      apply andb_true_iff in Ha' as [_ Ha'].
      destruct (IH a' Ha Ha' Heq) as [-> ->]. split; reflexivity.
Qed.

(** The keys of two triples whose application and user names hold no
    colon are equal only when the triples are. *)
Lemma sessionKey_inj (a u i a' u' i' : string) :
  no_colon a = true -> no_colon u = true ->
  no_colon a' = true -> no_colon u' = true ->
  sessionKey a u i = sessionKey a' u' i' -> a = a' /\ u = u' /\ i = i'.
Proof.
  intros Ha Hu Ha' Hu' Heq. unfold sessionKey in Heq.
  rewrite !append_assoc_str in Heq.
  apply split_at_colon in Heq as [-> Heq]; [ | assumption | assumption].
  apply split_at_colon in Heq as [-> ->]; [ | assumption | assumption].
  repeat split.
Qed.

(** X2.  When no application or user name holds a colon, creating the
    session of one triple leaves what [GetSession] answers for every
    other triple as it was. *)
Theorem CreateSession_other_triples (s : InMemorySessionService) (h : Heap)
    (a u i a' u' i' : string) (initialState : option (gmap string Value)) :
  no_colon a = true -> no_colon u = true ->
  no_colon a' = true -> no_colon u' = true ->
  (a, u, i) <> (a', u', i') ->
  GetSession (CreateSession time_Now uuid_New s h a u i initialState).1.1 a' u' i'
  = GetSession s a' u' i'.
Proof.
  intros Ha Hu Ha' Hu' Hne. unfold CreateSession.
  destruct (NewSession _ _ a u i initialState h) as [p h']. simpl.
  unfold GetSession. simpl. rewrite lookup_insert_ne; [reflexivity | ].
  intros Heq. apply Hne.
  destruct (sessionKey_inj _ _ _ _ _ _ Ha Hu Ha' Hu' Heq) as (-> & -> & ->).
  reflexivity.
Qed.

Lemma NewSession_spec (appName userID sessionID : string)
    (initialState : option (gmap string Value)) (h h' : Heap) (p : SessionPtr) :
  NewSession time_Now uuid_New appName userID sessionID initialState h = (p, h') ->
  exists sess,
    session_objs h' !! p = Some sess
    /\ AppName sess = appName /\ UserID sess = userID
    /\ ID sess = (if String.eqb sessionID "" then uuid_New (tick h) else sessionID)
    /\ Events sess = []
    /\ state_objs h' !! State sess = Some (default ∅ initialState).
Proof.
  unfold NewSession.
  destruct (String.eqb sessionID ""); destruct initialState as [d|];
    unfold NewStateWithData, NewState, alloc_state, alloc_session; simpl;
    intros [= <- <-]; simpl; eexists;
    (split; [apply lookup_insert_eq | ]); simpl;
    repeat (split; [reflexivity | ]); apply lookup_insert_eq.
Qed.

(** X3.  [CreateSession] followed by [GetSession] of the same triple
    returns the session just created: it carries the application and
    user names, the given id (a fresh uuid when the id is empty), no
    events, and a state that holds the initial pairs (none when there
    are none); a session stored before under the triple is replaced. *)
Theorem CreateSession_GetSession (s : InMemorySessionService) (h : Heap)
    (appName userID sessionID : string) (initialState : option (gmap string Value)) :
  let '(s', h', res) :=
    CreateSession time_Now uuid_New s h appName userID sessionID initialState in
  exists p sess,
    res = Ok p
    /\ GetSession s' appName userID sessionID = Ok (Some p)
    /\ session_objs h' !! p = Some sess
    /\ AppName sess = appName /\ UserID sess = userID
    /\ ID sess = (if String.eqb sessionID "" then uuid_New (tick h) else sessionID)
    /\ state_objs h' !! State sess = Some (default ∅ initialState)
    /\ ListEvents s' h' appName userID sessionID = Ok (Some []).
Proof.
  unfold CreateSession.
  destruct (NewSession _ _ appName userID sessionID initialState h) as [p h'] eqn:HN.
  destruct (NewSession_spec _ _ _ _ _ _ _ HN) as (sess & Hp & Ha & Hu & Hi & He & Hs).
  exists p, sess. unfold GetSession, ListEvents, Session_GetEvents. simpl.
  rewrite lookup_insert_eq, Hp, He. repeat split; assumption.
Qed.

(** X4.  [DeleteSession] returns no error; afterwards [GetSession] and
    [ListEvents] answer nil for the triple and an [AppendEvent] for it
    changes nothing.  Deleting a session that the store does not hold
    leaves the store as it is. *)
Theorem DeleteSession_forgets (s : InMemorySessionService) (h : Heap)
    (appName userID sessionID : string) (event : Event) :
  let '(s', err) := DeleteSession s appName userID sessionID in
  err = None
  /\ GetSession s' appName userID sessionID = Ok None
  /\ ListEvents s' h appName userID sessionID = Ok None
  /\ AppendEvent time_Now s' h appName userID sessionID event = (s', h, None)
  /\ (GetSession s appName userID sessionID = Ok None -> s' = s).
Proof.
  unfold DeleteSession, GetSession, ListEvents, AppendEvent. simpl.
  rewrite lookup_delete_eq. repeat split.
  destruct (sessions s !! sessionKey appName userID sessionID) eqn:Hk; [discriminate | ].
  intros _. destruct s as [m]. simpl in *. f_equal. apply delete_id. exact Hk.
Qed.

(** X5.  Events appended to a session that the store holds are listed
    after the events it had, in the order of the appends; the appends
    change neither the table of the service nor any state. *)
Theorem append_all_ListEvents (s : InMemorySessionService) (h : Heap)
    (appName userID sessionID : string) (p : SessionPtr) (sess : Session)
    (es : list Event) :
  GetSession s appName userID sessionID = Ok (Some p) ->
  session_objs h !! p = Some sess ->
  let '(s', h') := append_all time_Now appName userID sessionID es (s, h) in
  s' = s
  /\ ListEvents s' h' appName userID sessionID = Ok (Some (Events sess ++ es))
  /\ state_objs h' = state_objs h.
Proof.
  unfold GetSession.
  destruct (sessions s !! sessionKey appName userID sessionID) as [q|] eqn:Hk;
    [ | discriminate].
  intros [= ->]. revert h sess.
  induction es as [|e es IH]; intros h sess Hp; simpl.
  - unfold ListEvents, Session_GetEvents. rewrite Hk, Hp, app_nil_r. auto.
  - destruct (AppendEvent_Events time_Now s h _ _ _ p sess e Hk Hp)
      as (h1 & s1 & Heq & Hp1 & He1 & _).
    pose proof (AppendEvent_state_objs time_Now s h appName userID sessionID e) as Hst.
    rewrite Heq in *. simpl in *.
    specialize (IH h1 s1 Hp1). unfold append_all in *.
    destruct (fold_left _ es (s, h1)) as [s' h'].
    destruct IH as (-> & Hl & Hs). split; [reflexivity | ].
    split; [ | congruence].
    rewrite Hl, He1, <- app_assoc. reflexivity.
Qed.

(** *** Stores reached from the empty service *)

Lemma NewSession_alloc (appName userID sessionID : string)
    (initialState : option (gmap string Value)) (h h' : Heap) (p : SessionPtr) :
  NewSession time_Now uuid_New appName userID sessionID initialState h = (p, h') ->
  p = S (next_ptr h) /\ next_ptr h' = S (S (next_ptr h))
  /\ exists sess, session_objs h' = <[p := sess]> (session_objs h).
Proof.
  unfold NewSession.
  destruct (String.eqb sessionID ""); destruct initialState as [d|];
    unfold NewStateWithData, NewState, alloc_state, alloc_session; simpl;
    intros [= <- <-]; simpl; (split; [reflexivity | ]); (split; [reflexivity | ]);
    eexists; reflexivity.
Qed.

Lemma store_ok_new : store_ok new_store.1 new_store.2.
Proof.
  split; simpl.
  - intros key p H. rewrite lookup_empty in H. discriminate H.
  - intros k1 k2 p H. rewrite lookup_empty in H. discriminate H.
Qed.

Lemma store_ok_do_call (c : ServiceCall) (sh : InMemorySessionService * Heap) :
  store_ok sh.1 sh.2 ->
  store_ok (do_call time_Now uuid_New c sh).1 (do_call time_Now uuid_New c sh).2.
Proof.
  destruct sh as [s h]. intros [Hb Hi]. simpl in Hb, Hi.
  destruct c as [a u i st | a u i | a u i e]; simpl.
  - unfold CreateSession.
    destruct (NewSession _ _ a u i st h) as [p h'] eqn:HN. simpl.
    destruct (NewSession_alloc _ _ _ _ _ _ _ HN) as (-> & Hn & sess & Hobjs).
    assert (forall key q, sessions s !! key = Some q -> q <> S (next_ptr h)) as Hold
      by (intros key q Hq Heq; destruct (Hb _ _ Hq) as [Hlt _];
          rewrite Heq in Hlt; lia).
    split.
    + intros key q Hq. simpl in Hq. rewrite Hn, Hobjs.
      destruct (decide (key = sessionKey a u i)) as [-> | Hne].
      * rewrite lookup_insert_eq in Hq. injection Hq as <-.
        rewrite lookup_insert_eq. split; [lia | eauto].
      * rewrite lookup_insert_ne in Hq by congruence.
        destruct (Hb _ _ Hq) as [Hlt Hsome].
        rewrite lookup_insert_ne by lia. split; [lia | exact Hsome].
    + intros k1 k2 q H1 H2. simpl in H1, H2.
      destruct (decide (k1 = sessionKey a u i)) as [-> | Hne1];
        destruct (decide (k2 = sessionKey a u i)) as [-> | Hne2].
      * reflexivity.
      * rewrite lookup_insert_eq in H1. injection H1 as <-.
        rewrite lookup_insert_ne in H2 by congruence.
        exfalso. exact (Hold _ _ H2 eq_refl).
      * rewrite lookup_insert_eq in H2. injection H2 as <-.
        rewrite lookup_insert_ne in H1 by congruence.
        exfalso. exact (Hold _ _ H1 eq_refl).
      * rewrite lookup_insert_ne in H1 by congruence.
        rewrite lookup_insert_ne in H2 by congruence.
        exact (Hi _ _ _ H1 H2).
  - split.
    + intros key q Hq. simpl in Hq.
      apply lookup_delete_Some in Hq as [_ Hq]. exact (Hb _ _ Hq).
    + intros k1 k2 q H1 H2. simpl in H1, H2. apply lookup_delete_Some in H1 as [_ H1].
      apply lookup_delete_Some in H2 as [_ H2]. exact (Hi _ _ _ H1 H2).
  - unfold AppendEvent.
    destruct (sessions s !! sessionKey a u i) as [p|] eqn:Hk; simpl; [ | split; assumption].
    split; [ | exact Hi].
    intros key q Hq. destruct (Hb _ _ Hq) as [Hlt Hsome].
    split; [ | apply Session_AddEvent_objs; exact Hsome].
    unfold Session_AddEvent. destruct (session_objs h !! p); [simpl | ]; exact Hlt.
Qed.

Lemma store_ok_do_calls (cs : list ServiceCall) (sh : InMemorySessionService * Heap) :
  store_ok sh.1 sh.2 ->
  store_ok (do_calls time_Now uuid_New cs sh).1 (do_calls time_Now uuid_New cs sh).2.
Proof.
  revert sh. induction cs as [|c cs IH]; intros sh Hok; [exact Hok | ].
  simpl. apply IH. apply store_ok_do_call. exact Hok.
Qed.

(** X6.  In every store reached from the empty service by creating
    and deleting sessions and appending events, an [AppendEvent] for
    one key leaves the events listed under every other key as they
    were. *)
Theorem AppendEvent_other_sessions (cs : list ServiceCall)
    (a u i a' u' i' : string) (event : Event) :
  sessionKey a u i <> sessionKey a' u' i' ->
  let '(s, h) := do_calls time_Now uuid_New cs new_store in
  let '(s', h', _) := AppendEvent time_Now s h a u i event in
  ListEvents s' h' a' u' i' = ListEvents s h a' u' i'.
Proof.
  intros Hne. pose proof (store_ok_do_calls cs new_store store_ok_new) as Hok.
  destruct (do_calls _ _ cs new_store) as [s h]. simpl in Hok. destruct Hok as [Hb Hi].
  unfold AppendEvent.
  destruct (sessions s !! sessionKey a u i) as [p|] eqn:Hk; [ | reflexivity].
  unfold ListEvents.
  destruct (sessions s !! sessionKey a' u' i') as [q|] eqn:Hk'; [ | reflexivity].
  assert (p <> q) as Hpq by (intros ->; exact (Hne (Hi _ _ _ Hk Hk'))).
  unfold Session_GetEvents, Session_AddEvent.
  destruct (session_objs h !! p) as [sp|]; [ | reflexivity].
  simpl. rewrite lookup_insert_ne by exact Hpq. reflexivity.
Qed.

(** *** State *)

Lemma State_Update_union (updates : list (string * Value)) (d : gmap string Value) :
  NoDup updates.*1 -> State_Update updates d = list_to_map updates ∪ d.
Proof.
  revert d. induction updates as [|[k v] us IH]; intros d Hnd.
  - unfold State_Update. simpl. rewrite (left_id_L ∅ (∪)). reflexivity.
  - rewrite fmap_cons in Hnd. apply NoDup_cons in Hnd as [Hk Hnd].
    change (State_Update ((k, v) :: us) d) with (State_Update us (<[k := v]> d)).
    rewrite IH by exact Hnd. rewrite list_to_map_cons, <- insert_union_l.
    symmetry. apply insert_union_r.
    apply not_elem_of_list_to_map_1. exact Hk.
Qed.

(** X7.  [Update] with a map (distinct keys) gives the same state in
    whatever order the [range] visits the pairs: afterwards every key
    of the map holds its value of the map and every other key its old
    value. *)
Theorem State_Update_any_order (updates updates' : list (string * Value))
    (d : gmap string Value) :
  NoDup updates.*1 -> updates ≡ₚ updates' ->
  State_Update updates d = State_Update updates' d
  /\ (forall k v, (k, v) ∈ updates -> State_Get k (State_Update updates d) = Some v)
  /\ (forall k, k ∉ updates.*1 ->
                State_Get k (State_Update updates d) = State_Get k d).
Proof.
  intros Hnd Hperm.
  assert (NoDup updates'.*1) as Hnd' by (rewrite <- Hperm; exact Hnd).
  rewrite !State_Update_union by assumption.
  split; [ | split].
  - f_equal. apply list_to_map_proper; assumption.
  - intros k v Hin. unfold State_Get. apply lookup_union_Some_l.
    apply elem_of_list_to_map; assumption.
  - intros k Hk. unfold State_Get. apply lookup_union_r.
    apply not_elem_of_list_to_map_1. exact Hk.
Qed.

End SessionStoreMore.

(** ** More of the model registry *)
Section ModelRegistryMore.
Import models registry_runs.

Lemma starts_with_spec (prefix name : string) :
  (String.length prefix <=? String.length name)%nat
  && String.eqb (substring 0 (String.length prefix) name) prefix = true
  <-> exists rest, name = prefix +:+ rest.
Proof.
  rewrite andb_true_iff, Nat.leb_le, String.eqb_eq.
  revert name. induction prefix as [|a p IH]; intros name.
  - setoid_rewrite append_nil_l. split.
    + intros _. exists name. reflexivity.
    + intros _. split; [simpl; lia | destruct name; reflexivity].
  - setoid_rewrite append_cons. destruct name as [|b k]; simpl.
    + split; [lia | intros (rest & Heq); discriminate Heq].
    + split.
      * intros [Hlen Hsub]. injection Hsub as -> Hsub.
        destruct (proj1 (IH k)) as (rest & ->); [split; [lia | exact Hsub] | ].
        exists rest. reflexivity.
      * intros (rest & Heq). injection Heq as -> ->.
        destruct (proj2 (IH (p +:+ rest))) as [Hlen Hsub]; [by exists rest | ].
        split; [lia | by rewrite Hsub].
Qed.

(** X8.  [NewLLM] returns an error exactly when no instance is cached
    for the name and either the name does not begin with "gemini" or
    no factory is registered for "gemini"; a call that returns an
    error leaves the registry as it was, so nothing is cached for the
    name. *)
Theorem NewLLM_error (modelName : string) (w : World) :
  ((exists e, (NewLLM modelName w).1 = Err e)
   <-> instances (defaultRegistry w) !! modelName = None
       /\ ((forall rest, modelName <> "gemini" +:+ rest)
           \/ models_ (defaultRegistry w) !! "gemini" = None))
  /\ (forall e, (NewLLM modelName w).1 = Err e -> (NewLLM modelName w).2 = w).
Proof.
  unfold NewLLM.
  assert ((6 <=? String.length modelName)%nat
          && String.eqb (substring 0 6 modelName) "gemini" = true
          <-> exists rest, modelName = "gemini" +:+ rest) as Hg
    by exact (starts_with_spec "gemini" modelName).
  destruct ((6 <=? String.length modelName)%nat
            && String.eqb (substring 0 6 modelName) "gemini") eqn:Ht;
    destruct (instances (defaultRegistry w) !! modelName) as [i|] eqn:Hi;
    cbn [fst snd].
  - split; [ | discriminate].
    split; [intros [e He]; discriminate He | intros [H _]; discriminate H].
  - destruct (proj1 Hg eq_refl) as [rest Hrest]. clear Hg.
    destruct (models_ (defaultRegistry w) !! "gemini") as [f|] eqn:Hf; cbn [fst snd].
    + split; [ | discriminate]. split; [intros [e He]; discriminate He | ].
      intros [_ [Hno | Hno]]; [exfalso; exact (Hno rest Hrest) | discriminate Hno].
    + split; [ | reflexivity]. split; [intros _; auto | eauto].
  - split; [ | discriminate].
    split; [intros [e He]; discriminate He | intros [H _]; discriminate H].
  - split; [ | reflexivity]. split; [ | eauto].
    intros _. split; [reflexivity | left].
    intros rest Hrest. assert (false = true) as Habs; [ | discriminate Habs].
    apply Hg. exists rest. exact Hrest.
Qed.

Lemma gemini_inv_init (uuid : string) (now : Z) : gemini_inv uuid now (init uuid now).
Proof.
  unfold gemini_inv, init, Register. simpl. split; [apply lookup_insert_eq | ].
  split.
  - intros m l H. rewrite lookup_empty in H. discriminate H.
  - intros m1 m2 l1 l2 H. rewrite lookup_empty in H. discriminate H.
Qed.

Lemma gemini_inv_NewLLM (uuid : string) (now : Z) (m : string) (w : World) :
  gemini_inv uuid now w -> gemini_inv uuid now (NewLLM m w).2.
Proof.
  intros (Hf & Hinst & Hinj). unfold NewLLM.
  destruct (instances (defaultRegistry w) !! m) as [i|] eqn:Hi;
    [repeat split; assumption | ].
  destruct (_ && _); [ | repeat split; assumption].
  cbv zeta.
  destruct (models_ (defaultRegistry w) !! "gemini") as [f|] eqn:Hf2;
    [ | discriminate Hf].
  injection Hf as ->.
  unfold gemini_inv. simpl. split; [exact Hf2 | ]. split.
  - intros m' l H. destruct (decide (m' = m)) as [-> | Hne].
    + rewrite lookup_insert_eq in H. injection H as <-.
      exists (next_llm w). split; [lia | reflexivity].
    + rewrite lookup_insert_ne in H by congruence.
      destruct (Hinst _ _ H) as (a & Ha & ->). exists a. split; [lia | reflexivity].
  - intros m1 m2 l1 l2 H1 H2 Haddr.
    destruct (decide (m1 = m)) as [-> | Hne1]; destruct (decide (m2 = m)) as [-> | Hne2].
    + reflexivity.
    + rewrite lookup_insert_eq in H1. rewrite lookup_insert_ne in H2 by congruence.
      injection H1 as <-. destruct (Hinst _ _ H2) as (a & Ha & [= ->]).
      simpl in Haddr. lia.
    + rewrite lookup_insert_eq in H2. rewrite lookup_insert_ne in H1 by congruence.
      injection H2 as <-. destruct (Hinst _ _ H1) as (a & Ha & [= ->]).
      simpl in Haddr. lia.
    + rewrite lookup_insert_ne in H1 by congruence.
      rewrite lookup_insert_ne in H2 by congruence.
      exact (Hinj _ _ _ _ H1 H2 Haddr).
Qed.

Lemma gemini_inv_resolve_all (uuid : string) (now : Z) (names : list string) :
  gemini_inv uuid now (resolve_all uuid now names).
Proof.
  unfold resolve_all. generalize (gemini_inv_init uuid now).
  generalize (init uuid now). induction names as [|m ms IH]; intros w Hw; [exact Hw | ].
  simpl. apply IH. apply gemini_inv_NewLLM. exact Hw.
Qed.

(** X9.  After [init] and any run of [NewLLM] calls, two further
    resolutions that return handles return the same handle (the same
    address) exactly when they are given the same name, and each
    handle answers [GetModelName] with the name it was resolved
    for. *)
Theorem resolved_handles (uuid : string) (now : Z) (names : list string)
    (m1 m2 : string) (l1 l2 : LLM) :
  let w := resolve_all uuid now names in
  (Resolve m1 w).1 = Ok (Some l1) ->
  (Resolve m2 (Resolve m1 w).2).1 = Ok (Some l2) ->
  GetModelName l1 = m1 /\ GetModelName l2 = m2
  /\ (llm_addr l1 = llm_addr l2 <-> m1 = m2)
  /\ (m1 = m2 -> l1 = l2).
Proof.
  intros w H1 H2.
  pose proof (gemini_inv_NewLLM uuid now m1 w (gemini_inv_resolve_all uuid now names)) as Hw1.
  pose proof (gemini_inv_NewLLM uuid now m2 _ Hw1) as Hw2.
  unfold Resolve in *.
  destruct (NewLLM m1 w) as [r1 w1] eqn:E1. simpl in *. subst r1.
  destruct (NewLLM m2 w1) as [r2 w2] eqn:E2. simpl in *. subst r2.
  pose proof (NewLLM_instance _ _ _ _ E1) as I1.
  pose proof (NewLLM_instance _ _ _ _ E2) as I2.
  destruct (do_call_keeps_instance m1 (Some l1) (CallNewLLM m2) w1 I1) as [I1' _].
  simpl in I1'. rewrite E2 in I1'. simpl in I1'.
  destruct Hw2 as (_ & Hinst & Hinj).
  destruct (Hinst _ _ I1') as (a1 & _ & [= ->]).
  destruct (Hinst _ _ I2) as (a2 & _ & [= ->]).
  split; [reflexivity | ]. split; [reflexivity | ]. split.
  - split; [intros Ha; exact (Hinj _ _ _ _ I1' I2 Ha) | ].
    intros ->. rewrite I2 in I1'. injection I1' as ->. reflexivity.
  - intros ->. rewrite I2 in I1'. injection I1'. auto.
Qed.

End ModelRegistryMore.

(** ** More of the goroutines *)
Section GoroutinesMore.
Import events agents spec traces agents_ref.

(** X10.  The callbacks of a sequential agent bracket the whole
    sequence: its goroutine runs the before-agent callback once, then
    every sub-agent in order, then the after-agent callback once
    (whatever the sub-agents did, and without taking back anything
    when it fails), and leaves the state the last of them left; when
    the before-agent callback returns an error, nothing else runs. *)
Theorem SequentialAgent_trace (a : SequentialAgent) (ctx : InvocationContext) (env : Env) :
  exec (SequentialAgent_goroutine a ctx) env
  = let '(tb, env0, ok) := run_before (BeforeAgentCallback (seq_BaseAgent a)) env in
    if ok then
      let '(ts, env1) := children_streams (SubAgents (seq_BaseAgent a)) ctx env0 in
      let '(ta, env2, _) := run_before (AfterAgentCallback (seq_BaseAgent a)) env1 in
      (tb ++ concat ts ++ ta, env2)
    else (tb, env0).
Proof.
  unfold SequentialAgent_goroutine. rewrite exec_guarded.
  destruct (run_before _ env) as [[tb env0] ok]. destruct ok; [ | reflexivity].
  rewrite exec_run_sub_agents.
  destruct (children_streams _ ctx env0) as [ts env1]. rewrite exec_guarded_Close.
  destruct (run_before _ env1) as [[ta env2] ok']. reflexivity.
Qed.

Lemma exec_run_sub_agents_app (l1 l2 : list Agent) (ctx : InvocationContext)
    (next : Proc) (env : Env) :
  exec (run_sub_agents (l1 ++ l2) ctx next) env
  = exec (run_sub_agents l1 ctx (run_sub_agents l2 ctx next)) env.
Proof. unfold run_sub_agents. rewrite fold_right_app. reflexivity. Qed.

(** What follows a loop over sub-agents matters only through its run. *)
Lemma exec_run_sub_agents_ext (l : list Agent) (ctx : InvocationContext)
    (next next' : Proc) (env : Env) :
  (forall env1, exec next env1 = exec next' env1) ->
  exec (run_sub_agents l ctx next) env = exec (run_sub_agents l ctx next') env.
Proof.
  intros Hext. rewrite !exec_run_sub_agents.
  destruct (children_streams l ctx env) as [ts env1]. rewrite Hext. reflexivity.
Qed.

(** X11.  A sequential agent without callbacks among the sub-agents of
    a sequential agent can be replaced by its own sub-agents: the run
    is the same, effect for effect. *)
Theorem SequentialAgent_flatten (name description : string)
    (before after : option Callback) (pre post : list Agent)
    (inner : SequentialAgent) (ctx : InvocationContext) (env : Env) :
  BeforeAgentCallback (seq_BaseAgent inner) = None ->
  AfterAgentCallback (seq_BaseAgent inner) = None ->
  exec (SequentialAgent_goroutine
          (mkSequentialAgent
             (mkBaseAgent name description
                (pre ++ SequentialAgent_Agent inner :: post) before after)) ctx) env
  = exec (SequentialAgent_goroutine
            (mkSequentialAgent
               (mkBaseAgent name description
                  (pre ++ SubAgents (seq_BaseAgent inner) ++ post) before after)) ctx) env.
Proof.
  intros Hb Ha. unfold SequentialAgent_goroutine. simpl.
  rewrite !exec_guarded. destruct (run_before before env) as [[tb env0] ok].
  destruct ok; [ | reflexivity].
  rewrite !exec_run_sub_agents_app.
  rewrite (exec_run_sub_agents_ext pre ctx _
             (run_sub_agents (SubAgents (seq_BaseAgent inner) ++ post) ctx
                (guarded after Close))); [reflexivity | ].
  intros env1. rewrite exec_run_sub_agents_app. simpl.
  unfold SequentialAgent_goroutine. rewrite Hb, Ha. simpl.
  rewrite exec_forward, !exec_run_sub_agents.
  destruct (children_streams _ ctx env1) as [ts env2]. simpl.
  rewrite app_nil_r. reflexivity.
Qed.

(** X12.  A loop agent whose cap is zero or negative, or whose state
    holds the exit flag when the loop is reached, runs no sub-agent:
    its goroutine is the before-agent callback followed at once by the
    after-agent callback. *)
Theorem LoopAgent_no_pass (a : LoopAgent) (ctx : InvocationContext)
    (env env0 : Env) (tb : list Act) :
  run_before (BeforeAgentCallback (loop_BaseAgent a)) env = (tb, env0, true) ->
  (MaxIterations a <= 0)%Z \/ exit_flag (state env0 !! "exit_loop") = true ->
  exec (LoopAgent_goroutine a ctx) env
  = let '(ta, env2, _) := run_before (AfterAgentCallback (loop_BaseAgent a)) env0 in
    (tb ++ ta, env2).
Proof.
  intros Hb Hcase. unfold LoopAgent_goroutine. rewrite exec_guarded, Hb.
  assert (exec (loop_iterations (Z.to_nat (MaxIterations a)) (SubAgents (loop_BaseAgent a))
                  ctx (guarded (AfterAgentCallback (loop_BaseAgent a)) Close)) env0
          = exec (guarded (AfterAgentCallback (loop_BaseAgent a)) Close) env0) as ->.
  { destruct Hcase as [Hk | Hflag].
    - rewrite Z2Nat.nonpos by exact Hk. reflexivity.
    - destruct (Z.to_nat (MaxIterations a)) as [|n]; [reflexivity | ].
      simpl. unfold sessions.State_Get. rewrite Hflag. reflexivity. }
  rewrite exec_guarded_Close.
  destruct (run_before _ env0) as [[ta env2] ok]. reflexivity.
Qed.

Lemma exec_pass_procs (K : nat) (subAgents : list Agent) (ctx : InvocationContext)
    (env : Env) :
  exec (pass_procs K subAgents ctx) env = full_passes K subAgents ctx env.
Proof.
  revert env. induction K as [|K IH]; intros env; simpl; [reflexivity | ].
  rewrite exec_full_pass. destruct (full_pass subAgents ctx env) as [t env1].
  rewrite IH. destruct (full_passes K subAgents ctx env1) as [t' env2]. reflexivity.
Qed.

Lemma forward_until_exit_prefix (sub next next' exitLoop : Proc) :
  (forall env, sent (exec exitLoop env).1 = []) ->
  (forall env, sent (exec next env).1 `prefix_of` sent (exec next' env).1) ->
  forall env,
    sent (exec (forward_until_exit sub next exitLoop) env).1
    `prefix_of` sent (exec (forward sub next') env).1.
Proof.
  intros Hsilent Hnext.
  induction sub as [ | e k IH | key k IH | key v k IH | cb k IH | m k IH];
    intros env; simpl.
  - apply Hnext.
  - destruct (shouldExitLoopFromEvent e).
    + pose proof (sent_abandoned_next k exitLoop Hsilent env) as Hs.
      destruct (exec (abandoned k exitLoop) env) as [tq envq].
      destruct (exec (forward k next') env) as [t2 env2]. simpl in *.
      rewrite Hs. apply prefix_cons, prefix_nil.
    + specialize (IH env).
      destruct (exec (forward_until_exit k next exitLoop) env) as [t1 env1].
      destruct (exec (forward k next') env) as [t2 env2]. simpl in *.
      apply prefix_cons. exact IH.
  - apply IH.
  - specialize (IH (mkEnv (sessions.State_Set key v (state env)) (llms env))).
    destruct (exec (forward_until_exit k next exitLoop) _) as [t1 env1].
    destruct (exec (forward k next') _) as [t2 env2]. exact IH.
  - destruct (cb (state env)) as [st err].
    specialize (IH err (mkEnv st (llms env))).
    destruct (exec (forward_until_exit (k err) next exitLoop) _) as [t1 env1].
    destruct (exec (forward (k err) next') _) as [t2 env2]. exact IH.
  - destruct (models.Resolve m (llms env)) as [r w].
    specialize (IH r (mkEnv (state env) w)).
    destruct (exec (forward_until_exit (k r) next exitLoop) _) as [t1 env1].
    destruct (exec (forward (k r) next') _) as [t2 env2]. exact IH.
Qed.

Lemma loop_sub_agents_prefix (subAgents : list Agent) (ctx : InvocationContext)
    (next next' exitLoop : Proc) :
  (forall env, sent (exec exitLoop env).1 = []) ->
  (forall env, sent (exec next env).1 `prefix_of` sent (exec next' env).1) ->
  forall env,
    sent (exec (loop_sub_agents subAgents ctx next exitLoop) env).1
    `prefix_of` sent (exec (run_sub_agents subAgents ctx next') env).1.
Proof.
  intros Hsilent Hnext. induction subAgents as [|c cs IH]; simpl; [exact Hnext | ].
  fold (loop_sub_agents cs ctx next exitLoop). fold (run_sub_agents cs ctx next').
  destruct (RunAsync c ctx) as [p | msg]; [ | exact IH].
  apply forward_until_exit_prefix; assumption.
Qed.

Lemma loop_iterations_prefix (K : nat) (subAgents : list Agent)
    (ctx : InvocationContext) (exitLoop : Proc) :
  (forall env, sent (exec exitLoop env).1 = []) ->
  forall env,
    sent (exec (loop_iterations K subAgents ctx exitLoop) env).1
    `prefix_of` sent (exec (pass_procs K subAgents ctx) env).1.
Proof.
  intros Hsilent. induction K as [|K IH]; intros env; simpl.
  - rewrite Hsilent. apply prefix_nil.
  - destruct (exit_flag _).
    + rewrite Hsilent. apply prefix_nil.
    + apply loop_sub_agents_prefix; assumption.
Qed.

(** X13.  Whatever exit a loop agent takes, the events it sends are an
    initial segment of the events of K = MaxIterations full passes
    over its sub-agents run from the state that the before-agent
    callback leaves: it never sends an event out of that order, nor
    any after the last of them. *)
Theorem LoopAgent_prefix_of_passes (a : LoopAgent) (ctx : InvocationContext) (env : Env) :
  let '(_, env0, _) := run_before (BeforeAgentCallback (loop_BaseAgent a)) env in
  sent (exec (LoopAgent_goroutine a ctx) env).1
  `prefix_of`
  sent (full_passes (Z.to_nat (MaxIterations a)) (SubAgents (loop_BaseAgent a)) ctx env0).1.
Proof.
  unfold LoopAgent_goroutine. rewrite exec_guarded.
  pose proof (sent_run_before (BeforeAgentCallback (loop_BaseAgent a)) env) as Hb.
  destruct (run_before _ env) as [[tb env0] ok]. simpl in Hb.
  destruct ok; [ | simpl; rewrite Hb; apply prefix_nil].
  rewrite <- exec_pass_procs.
  assert (forall env1, sent (exec (guarded (AfterAgentCallback (loop_BaseAgent a)) Close)
                               env1).1 = []) as Hsilent
    by (intros env1; rewrite exec_guarded_Close; apply sent_run_before).
  pose proof (loop_iterations_prefix (Z.to_nat (MaxIterations a))
                (SubAgents (loop_BaseAgent a)) ctx _ Hsilent env0) as Hp.
  destruct (exec (loop_iterations _ _ ctx _) env0) as [t env1]. simpl in *.
  rewrite sent_app, Hb. exact Hp.
Qed.

End GoroutinesMore.

(** ** More of the model-backed agent *)
Section LlmAgentMore.
Import events agents spec traces agents_ref.

Lemma llms_run_before (cb : option Callback) (env : Env) :
  llms (run_before cb env).1.2 = llms env.
Proof.
  destruct cb as [f|]; simpl; [ | reflexivity].
  destruct (f (state env)) as [st err]. reflexivity.
Qed.

(** The loop over the backend's events sends each of them, in order,
    whatever the output key. *)
Lemma sent_process_events (a : LlmAgent) (evs : list Event) (next : Proc) :
  (forall env, sent (exec next env).1 = []) ->
  forall env, sent (exec (process_events a evs next) env).1 = evs.
Proof.
  intros Hsilent. induction evs as [|e evs IH]; intros env; simpl.
  - apply Hsilent.
  - assert (forall env1, sent (exec (Send e (process_events a evs next)) env1).1 = e :: evs)
      as Hsend.
    { intros env1. simpl. specialize (IH env1).
      destruct (exec (process_events a evs next) env1) as [t env']. simpl in *.
      rewrite IH. reflexivity. }
    destruct (stores_output a e); [ | apply Hsend].
    unfold storeOutputInSession.
    destruct (Content_ e) as [c|]; [ | apply Hsend].
    destruct (Parts c) as [|part parts]; [apply Hsend | ].
    specialize (Hsend (mkEnv (sessions.State_Set (OutputKey a) (VString (Text part))
                                (state env)) (llms env))).
    simpl in *.
    destruct (exec (process_events a evs next) _) as [t env']. exact Hsend.
Qed.

(** X14.  The events that a model-backed agent sends are exactly the
    events of its backend's stream, in order and unchanged, whatever
    its output key and whatever its after callbacks return, provided
    that both before callbacks pass; it sends nothing when one of them
    returns an error, when the model does not resolve, or when the
    backend returns an error. *)
Theorem LlmAgent_forwards_stream (a : LlmAgent) (ctx : InvocationContext) (env : Env) :
  sent (exec (LlmAgent_goroutine a ctx) env).1
  = let '(_, env1, ok1) := run_before (BeforeAgentCallback (llm_BaseAgent a)) env in
    let '(_, _, ok2) := run_before (BeforeModelCallback a) env1 in
    if ok1 && ok2 then default [] (backend_stream a ctx (llms env)) else [].
Proof.
  unfold LlmAgent_goroutine, backend_stream. rewrite exec_guarded.
  pose proof (sent_run_before (BeforeAgentCallback (llm_BaseAgent a)) env) as S1.
  pose proof (llms_run_before (BeforeAgentCallback (llm_BaseAgent a)) env) as L1.
  destruct (run_before _ env) as [[tb1 env1] ok1]. simpl in S1, L1.
  pose proof (sent_run_before (BeforeModelCallback a) env1) as S2.
  pose proof (llms_run_before (BeforeModelCallback a) env1) as L2.
  destruct ok1; simpl.
  2:{ destruct (run_before (BeforeModelCallback a) env1) as [[tb2 env2] ok2]. exact S1. }
  rewrite exec_guarded.
  destruct (run_before (BeforeModelCallback a) env1) as [[tb2 env2] ok2]. simpl in S2, L2.
  destruct ok2; simpl.
  2:{ rewrite sent_app, S1, S2. reflexivity. }
  rewrite exec_getCanonicalModel, L2, L1.
  assert (sent (resolve_act a) = []) as S3 by (unfold resolve_act; destruct (llm a); reflexivity).
  unfold resolve_act in S3.
  destruct (GetCanonicalModel a (llms env)) as [[l a'] w]. simpl.
  destruct l as [l|]; simpl.
  2:{ rewrite sent_app, S1, sent_app, S2, sent_app, S3. reflexivity. }
  destruct (models.GenerateContentAsync l (buildLLMRequest a ctx)) as [evs | msg]; simpl.
  2:{ rewrite sent_app, S1, sent_app, S2, sent_app, S3. reflexivity. }
  pose proof (sent_process_events a evs
                (guarded (AfterModelCallback a)
                   (guarded (AfterAgentCallback (llm_BaseAgent a)) Close))) as Hp.
  specialize (Hp ltac:(
    intros env3; rewrite exec_guarded;
    pose proof (sent_run_before (AfterModelCallback a) env3) as S4;
    destruct (run_before (AfterModelCallback a) env3) as [[ta enva] oka]; simpl in S4;
    destruct oka; [ | exact S4];
    rewrite exec_guarded_Close;
    pose proof (sent_run_before (AfterAgentCallback (llm_BaseAgent a)) enva) as S5;
    destruct (run_before _ enva) as [[tc envc] okc]; simpl in *;
    rewrite sent_app, S4, S5; reflexivity) (mkEnv (state env2) w)).
  destruct (exec (process_events a evs _) _) as [t env']. simpl in *.
  rewrite sent_app, S1, sent_app, S2, sent_app, S3, Hp. reflexivity.
Qed.

(** X15.  A model-backed agent whose backend gives no stream (the
    model name does not resolve, or the backend returns an error) runs
    neither of its after callbacks and writes nothing to the state:
    its goroutine does at most the two before callbacks and the
    resolution of the model, and the state is left as the before
    callbacks left it. *)
Theorem LlmAgent_no_stream (a : LlmAgent) (ctx : InvocationContext) (env : Env) :
  backend_stream a ctx (llms env) = None ->
  let '(tb1, env1, ok1) := run_before (BeforeAgentCallback (llm_BaseAgent a)) env in
  let '(tb2, env2, _) := run_before (BeforeModelCallback a) env1 in
  (exec (LlmAgent_goroutine a ctx) env).1 `prefix_of` tb1 ++ tb2 ++ resolve_act a
  /\ state (exec (LlmAgent_goroutine a ctx) env).2
     = state (if ok1 then env2 else env1).
Proof.
  intros Hnone. unfold LlmAgent_goroutine, backend_stream in *. rewrite exec_guarded.
  pose proof (llms_run_before (BeforeAgentCallback (llm_BaseAgent a)) env) as L1.
  destruct (run_before _ env) as [[tb1 env1] ok1]. simpl in L1.
  pose proof (llms_run_before (BeforeModelCallback a) env1) as L2.
  destruct ok1; simpl.
  2:{ destruct (run_before (BeforeModelCallback a) env1) as [[tb2 env2] ok2].
      split; [apply prefix_app_r; reflexivity | reflexivity]. }
  rewrite exec_guarded.
  destruct (run_before (BeforeModelCallback a) env1) as [[tb2 env2] ok2]. simpl in L2.
  destruct ok2; simpl.
  2:{ split; [ | reflexivity]. apply prefix_app, prefix_app_r. reflexivity. }
  rewrite exec_getCanonicalModel, L2, L1. fold (resolve_act a).
  destruct (GetCanonicalModel a (llms env)) as [[l a'] w]. simpl in *.
  destruct l as [l|]; simpl.
  2:{ rewrite app_nil_r. split; reflexivity. }
  destruct (models.GenerateContentAsync l (buildLLMRequest a ctx)) as [evs | msg];
    [discriminate Hnone | ].
  simpl. rewrite app_nil_r. split; reflexivity.
Qed.

End LlmAgentMore.

(** ** More of the runner *)
Section RunnerMore.
Import events sessions runners runner_calls traces.
Variable time_Now : nat -> Z.
Variable uuid_New : nat -> string.

Lemma persisted_lookup (w : World) (appName userID sessionID : string)
    (p : SessionPtr) (s : Session) :
  sessions (SessionService w) !! sessionKey appName userID sessionID = Some p ->
  session_objs (heap w) !! p = Some s ->
  persisted w appName userID sessionID = Events s.
Proof.
  intros Hk Hp. unfold persisted, ListEvents. rewrite Hk.
  unfold Session_GetEvents. rewrite Hp. reflexivity.
Qed.

(** X16.  After a run of [RunAsync] that returns a channel, the
    persisted event list of the session is exactly the list from
    before the run, then the user event twice when there is a message
    (once from [AddEvent] on the runner's pointer and once from
    [AppendEvent], both on the stored session) and nothing otherwise,
    then the events the caller received. *)
Theorem RunAsync_persisted (r : Runner) (userID sessionID : string)
    (newMessage : option Content) (w w' : World)
    (out : list Event) (t : list RunnerAct) :
  store_wf (SessionService w) (heap w) ->
  RunAsync time_Now uuid_New r userID sessionID newMessage w = (Ok out, t, w') ->
  exists us,
    persisted w' (AppName r) userID sessionID
    = persisted w (AppName r) userID sessionID ++ us ++ out
    /\ match newMessage with
       | Some m => exists u, us = [u; u] /\ Author u = "user" /\ Content_ u = Some m
       | None => us = []
       end.
Proof.
  intros Hwf Hrun.
  destruct (RunAsync_session time_Now uuid_New r userID sessionID newMessage w Hwf)
    as (p & s2 & w2 & t0 & Hk & Hp & Hmsg & Heq).
  rewrite Heq in Hrun. clear Heq.
  destruct (agents.RunAsync (Agent r) _) as [proc | msg]; [ | discriminate Hrun].
  destruct (relay _ r userID sessionID (State s2) proc w2) as [tr w3] eqn:Hr.
  injection Hrun as <- <- <-.
  destruct (relay_spec time_Now r userID sessionID _ p proc _ _ _ _ Hk Hp Hr)
    as (Hs & _ & s' & Hp' & He').
  rewrite <- Hs in Hk. rewrite (persisted_lookup _ _ _ _ _ _ Hk Hp'), He'.
  destruct newMessage as [m|].
  - destruct Hmsg as (u & _ & Hau & Hc & ->). exists [u; u].
    split; [rewrite <- app_assoc; reflexivity | ]. exists u. auto.
  - destruct Hmsg as [_ ->]. exists []. split; reflexivity.
Qed.

(** X17.  [Run] returns the last event that the root agent produces
    (the last event its goroutine sends on the state of the session),
    which is the last event that the caller of [RunAsync] would
    receive and the last event of the persisted list of the session;
    it returns nil without an error when the agent sends nothing,
    whether or not a message was given. *)
Theorem Run_last_event (r : Runner) (userID sessionID : string)
    (newMessage : option Content) (w w' : World)
    (final : option Event) (t : list RunnerAct) :
  store_wf (SessionService w) (heap w) ->
  Run time_Now uuid_New r userID sessionID newMessage w = (Ok final, t, w') ->
  (exists ctx proc,
      agents.RunAsync (Agent r) ctx = Ok proc
      /\ final = last (produced proc w (AppName r) userID sessionID)
      /\ match newMessage with
         | Some m =>
             exists u, Author u = "user" /\ Content_ u = Some m
                       /\ Events (agents.Session ctx)
                          = persisted w (AppName r) userID sessionID ++ [u; u]
         | None =>
             Events (agents.Session ctx) = persisted w (AppName r) userID sessionID
         end)
  /\ final = last (observed t)
  /\ match final with
     | Some e => last (persisted w' (AppName r) userID sessionID) = Some e
     | None => observed t = []
     end.
Proof.
  intros Hwf Hrun. unfold Run in Hrun.
  destruct (RunAsync_env time_Now uuid_New r userID sessionID newMessage w Hwf)
    as (p & s2 & w2 & t0 & Hk & Hp & Hmsg & Heq & Hprod).
  rewrite Heq in Hrun. clear Heq.
  destruct (agents.RunAsync (Agent r) _) as [proc | msg] eqn:Hagent;
    [ | discriminate Hrun].
  specialize (Hprod proc).
  destruct (relay _ r userID sessionID (State s2) proc w2) as [tr w3] eqn:Hr.
  simpl in Hprod.
  injection Hrun as <- <- <-.
  destruct (relay_spec time_Now r userID sessionID _ p proc _ _ _ _ Hk Hp Hr)
    as (Hs & _ & s' & Hp' & He').
  assert (observed (t0 ++ RAgentRunAsync :: tr) = observed tr) as Ho.
  { destruct newMessage as [m|].
    - destruct Hmsg as (u & -> & _). reflexivity.
    - destruct Hmsg as [-> _]. reflexivity. }
  rewrite Ho. split.
  { exists (agents.mkInvocationContext s2), proc.
    split; [exact Hagent | ]. split; [rewrite Hprod; reflexivity | ].
    destruct newMessage as [m|].
    - destruct Hmsg as (u & _ & Hau & Hc & He2). exists u. auto.
    - destruct Hmsg as [_ He2]. exact He2. }
  split; [reflexivity | ].
  rewrite <- Hs in Hk. rewrite (persisted_lookup _ _ _ _ _ _ Hk Hp'), He'.
  rewrite last_app.
  destruct (last (observed tr)) as [e|] eqn:Hl; [reflexivity | ].
  apply last_None in Hl. exact Hl.
Qed.

(** X18.  [RunLive] adds no user event: after a run that returns a
    channel the persisted event list of the session is the list from
    before followed by the events the caller received, each of them
    appended right before it is sent on. *)
Theorem RunLive_persisted (r : Runner) (userID sessionID : string)
    (w w' : World) (out : list Event) (t : list RunnerAct) :
  store_wf (SessionService w) (heap w) ->
  RunLive time_Now uuid_New r userID sessionID w = (Ok out, t, w') ->
  out = observed t
  /\ appended_first t
  /\ persisted w' (AppName r) userID sessionID
     = persisted w (AppName r) userID sessionID ++ out.
Proof.
  intros Hwf. unfold RunLive.
  destruct (getOrCreateSession _ _ r userID sessionID w) as [res w1] eqn:Hg.
  destruct (getOrCreateSession_spec _ _ _ _ _ _ _ _ Hwf Hg)
    as (p & s & -> & Hk & Hp & He).
  rewrite Hp.
  destruct (agents.RunLive (Agent r) _) as [proc | msg]; [ | discriminate].
  destruct (relay _ r userID sessionID (State s) proc w1) as [tr w3] eqn:Hr.
  intros [= <- <- <-].
  destruct (relay_spec time_Now r userID sessionID _ p proc _ _ _ _ Hk Hp Hr)
    as (Hs & Hfirst & s' & Hp' & He').
  split; [reflexivity | ]. split; [exact Hfirst | ].
  rewrite <- Hs in Hk. rewrite (persisted_lookup _ _ _ _ _ _ Hk Hp'), He', He.
  reflexivity.
Qed.

(** X19.  Live mode of the agents of this package is the base
    implementation, an already closed channel: [RunLive] on a runner
    whose root is a sequential, loop or model-backed agent returns no
    event and appends none, whatever the agent's [RunAsync] would
    send; the session is created when the store does not hold it. *)
Theorem RunLive_of_package_agents (r : Runner) (userID sessionID : string) (w : World) :
  store_wf (SessionService w) (heap w) ->
  (exists a, Agent r = agents.SequentialAgent_Agent a)
  \/ (exists a, Agent r = agents.LoopAgent_Agent a)
  \/ (exists a, Agent r = agents.LlmAgent_Agent a) ->
  exists w',
    RunLive time_Now uuid_New r userID sessionID w = (Ok [], [], w')
    /\ persisted w' (AppName r) userID sessionID
       = persisted w (AppName r) userID sessionID
    /\ is_Some (sessions (SessionService w') !! sessionKey (AppName r) userID sessionID).
Proof.
  intros Hwf Hagent. unfold RunLive.
  destruct (getOrCreateSession _ _ r userID sessionID w) as [res w1] eqn:Hg.
  destruct (getOrCreateSession_spec _ _ _ _ _ _ _ _ Hwf Hg)
    as (p & s & -> & Hk & Hp & He).
  rewrite Hp.
  assert (agents.RunLive (Agent r) (agents.mkInvocationContext s) = Ok agents.Close) as ->
    by (destruct Hagent as [[a ->] | [[a ->] | [a ->]]]; reflexivity).
  simpl. exists w1. split; [reflexivity | ].
  split; [ | rewrite Hk; eauto].
  rewrite (persisted_lookup _ _ _ _ _ _ Hk Hp). exact He.
Qed.

Lemma store_wf_store_state (s : InMemorySessionService) (h : Heap)
    (sp : StatePtr) (d : gmap string Value) :
  store_wf s h -> store_wf s (store_state sp d h).
Proof. intros Hwf key p Hk. exact (Hwf key p Hk). Qed.

Lemma store_wf_relay (r : Runner) (userID sessionID : string) (sp : StatePtr)
    (proc : agents.Proc) :
  forall w,
    store_wf (SessionService w) (heap w) ->
    store_wf (SessionService (relay time_Now r userID sessionID sp proc w).2)
             (heap (relay time_Now r userID sessionID sp proc w).2).
Proof.
  induction proc as [ | e k IH | key k IH | key v k IH | cb k IH | m k IH];
    intros w Hwf; simpl.
  - exact Hwf.
  - pose proof (store_wf_AppendEvent time_Now _ _ (AppName r) userID sessionID e Hwf) as H1.
    destruct (AppendEvent _ _ _ _ _ _ e) as [[s h] res].
    specialize (IH (mkWorld s h (llms w)) H1).
    destruct (relay _ r userID sessionID sp k _) as [t w']. exact IH.
  - apply IH. exact Hwf.
  - apply IH. simpl. apply store_wf_store_state. exact Hwf.
  - destruct (cb _) as [st err]. apply IH. simpl. apply store_wf_store_state. exact Hwf.
  - destruct (models.Resolve m (llms w)) as [res mw]. apply IH. exact Hwf.
Qed.

Lemma store_wf_bump (s : InMemorySessionService) (h : Heap) :
  store_wf s h -> store_wf s (bump h).
Proof. intros Hwf key p Hk. exact (Hwf key p Hk). Qed.

(** X20.  The store invariant (every pointer of the service table is
    allocated) is kept by [RunAsync], whatever it returns, so that one
    run may follow another on the same store. *)
Theorem RunAsync_store_wf (r : Runner) (userID sessionID : string)
    (newMessage : option Content) (w : World) :
  store_wf (SessionService w) (heap w) ->
  store_wf
    (SessionService (RunAsync time_Now uuid_New r userID sessionID newMessage w).2)
    (heap (RunAsync time_Now uuid_New r userID sessionID newMessage w).2).
Proof.
  intros Hwf. unfold RunAsync.
  assert (store_wf
            (SessionService (getOrCreateSession time_Now uuid_New r userID sessionID w).2)
            (heap (getOrCreateSession time_Now uuid_New r userID sessionID w).2)) as H1.
  { unfold getOrCreateSession.
    destruct (GetSession _ _ _ _) as [[p|] | e]; [exact Hwf | | exact Hwf].
    pose proof (store_wf_CreateSession time_Now uuid_New _ _ (AppName r) userID sessionID
                  None Hwf) as Hc.
    destruct (CreateSession _ _ _ _ _ _ _ _) as [[s h] res]. exact Hc. }
  destruct (getOrCreateSession _ _ r userID sessionID w) as [[p | e] w1]; simpl in H1;
    [ | exact H1].
  assert (store_wf
            (SessionService
               (match newMessage with
                | Some m => add_user_message time_Now uuid_New r userID sessionID p m w1
                | None => ([], w1)
                end).2)
            (heap
               (match newMessage with
                | Some m => add_user_message time_Now uuid_New r userID sessionID p m w1
                | None => ([], w1)
                end).2)) as H2.
  { destruct newMessage as [m|]; [ | exact H1].
    unfold add_user_message.
    set (u := set_Content (Some m) (set_Author "user" (NewEvent _ _))).
    assert (store_wf (SessionService w1)
              (Session_AddEvent time_Now p u (bump (bump (heap w1))))) as Ha.
    { intros key q Hk. apply Session_AddEvent_objs.
      exact (store_wf_bump _ _ (store_wf_bump _ _ H1) key q Hk). }
    pose proof (store_wf_AppendEvent time_Now _ _ (AppName r) userID sessionID u Ha) as Hb.
    destruct (AppendEvent _ _ _ _ _ _ u) as [[s h] res]. exact Hb. }
  destruct (match newMessage with Some m => _ | None => _ end) as [t0 w2]. simpl in H2.
  destruct (session_objs (heap w2) !! p) as [s|]; [ | exact H2].
  destruct (agents.RunAsync (Agent r) _) as [proc | msg]; [ | exact H2].
  pose proof (store_wf_relay r userID sessionID (State s) proc w2 H2) as H3.
  destruct (relay _ r userID sessionID (State s) proc w2) as [t w3]. exact H3.
Qed.

End RunnerMore.

(** ** The parallel agent *)
Section ParallelMore.
Import events agents spec traces parallel.

Lemma insert_middle (pre post : list Proc) (x y : Proc) :
  <[length pre := x]> (pre ++ y :: post) = pre ++ x :: post.
Proof. induction pre as [|z pre IH]; simpl; [reflexivity | by rewrite IH]. Qed.

(** One goroutine of the pool run to its end before the others. *)
Lemma interleave_run_one (p : Proc) (pre post : list Proc) :
  forall env t env2,
    interleave (pre ++ Close :: post) (exec p env).2 t env2 ->
    interleave (pre ++ p :: post) env ((exec p env).1 ++ t) env2.
Proof.
  induction p as [ | e k IH | key k IH | key v k IH | cb k IH | m k IH];
    intros env t env2 Hrest; simpl in *.
  - exact Hrest.
  - destruct (exec k env) as [t1 env1] eqn:Hx. simpl in *.
    apply (interleave_step _ env (length pre) (Send e k) k [ActSend e] (t1 ++ t) env env2).
    + apply list_lookup_middle. reflexivity.
    + reflexivity.
    + rewrite insert_middle. specialize (IH env t env2). rewrite Hx in IH. exact (IH Hrest).
  - apply (interleave_step _ env (length pre) (StateGet key k)
             (k (sessions.State_Get key (state env))) []
             ((exec (k (sessions.State_Get key (state env))) env).1 ++ t) env env2).
    + apply list_lookup_middle. reflexivity.
    + reflexivity.
    + rewrite insert_middle. apply IH. exact Hrest.
  - destruct (exec k _) as [t1 env1] eqn:Hx. simpl in *.
    apply (interleave_step _ env (length pre) (StateSet key v k) k [ActStateSet key v]
             (t1 ++ t) (mkEnv (sessions.State_Set key v (state env)) (llms env)) env2).
    + apply list_lookup_middle. reflexivity.
    + reflexivity.
    + rewrite insert_middle.
      specialize (IH (mkEnv (sessions.State_Set key v (state env)) (llms env)) t env2).
      rewrite Hx in IH. exact (IH Hrest).
  - destruct (cb (state env)) as [st err] eqn:Hcb.
    destruct (exec (k err) _) as [t1 env1] eqn:Hx. simpl in *.
    apply (interleave_step _ env (length pre) (Invoke cb k) (k err) [ActCallback err]
             (t1 ++ t) (mkEnv st (llms env)) env2).
    + apply list_lookup_middle. reflexivity.
    + simpl. rewrite Hcb. reflexivity.
    + rewrite insert_middle.
      specialize (IH err (mkEnv st (llms env)) t env2).
      rewrite Hx in IH. exact (IH Hrest).
  - destruct (models.Resolve m (llms env)) as [r w] eqn:Hr.
    destruct (exec (k r) _) as [t1 env1] eqn:Hx. simpl in *.
    apply (interleave_step _ env (length pre) (ModelsResolve m k) (k r) [ActResolve m]
             (t1 ++ t) (mkEnv (state env) w) env2).
    + apply list_lookup_middle. reflexivity.
    + simpl. rewrite Hr. reflexivity.
    + rewrite insert_middle.
      specialize (IH r (mkEnv (state env) w) t env2).
      rewrite Hx in IH. exact (IH Hrest).
Qed.

(** The goroutines of the pool run one after the other, in list order. *)
Lemma interleave_in_order (subAgents : list Agent) (ctx : InvocationContext) :
  forall (pre : list Proc) (env : Env),
    Forall (fun p => p = Close) pre ->
    interleave (pre ++ forwarders subAgents ctx) env
               (concat (children_streams subAgents ctx env).1)
               (children_streams subAgents ctx env).2.
Proof.
  induction subAgents as [|c cs IH]; intros pre env Hpre; simpl.
  - rewrite app_nil_r. apply interleave_done. exact Hpre.
  - destruct (RunAsync c ctx) as [p | msg].
    + destruct (exec p env) as [t env1] eqn:Hx.
      specialize (IH (pre ++ [Close]) env1).
      destruct (children_streams cs ctx env1) as [ts env2]. simpl in *.
      pose proof (interleave_run_one p pre (forwarders cs ctx) env (concat ts) env2) as H1.
      rewrite Hx in H1. apply H1.
      rewrite <- app_assoc in IH. apply IH.
      apply Forall_app. split; [exact Hpre | constructor; [reflexivity | constructor]].
    + specialize (IH (pre ++ [Close]) env).
      destruct (children_streams cs ctx env) as [ts env2]. simpl in *.
      rewrite <- app_assoc in IH. apply IH.
      apply Forall_app. split; [exact Hpre | constructor; [reflexivity | constructor]].
Qed.

(** X21.  The run of the sequential agent is one of the runs of the
    parallel agent with the same sub-agents and callbacks: running
    the sub-agents one after the other in list order is an admissible
    schedule, so that the parallel agent has a run that ends, with
    the after-agent callback run after the last sub-agent is done. *)
Theorem ParallelAgent_sequential_schedule (b : BaseAgent) (ctx : InvocationContext)
    (env : Env) :
  ParallelAgent_run (mkParallelAgent b) ctx env
    (exec (SequentialAgent_goroutine (mkSequentialAgent b) ctx) env).1
    (exec (SequentialAgent_goroutine (mkSequentialAgent b) ctx) env).2.
Proof.
  unfold ParallelAgent_run, SequentialAgent_goroutine. simpl.
  rewrite exec_guarded.
  destruct (run_before (BeforeAgentCallback b) env) as [[tb env0] ok].
  destruct ok; [ | split; reflexivity].
  rewrite exec_run_sub_agents.
  pose proof (interleave_in_order (SubAgents b) ctx [] env0 (List.Forall_nil _)) as Hil.
  destruct (children_streams (SubAgents b) ctx env0) as [ts env1]. simpl in Hil.
  rewrite exec_guarded_Close.
  exists (concat ts), env1. split; [exact Hil | ].
  destruct (run_before (AfterAgentCallback b) env1) as [[ta env2] ok']. simpl.
  split; reflexivity.
Qed.

Lemma stream_proc_Close (s : list Event) : stream_proc s = Close -> s = [].
Proof. destruct s; [reflexivity | discriminate]. Qed.

Lemma concat_insert_cons (ss : list (list Event)) (i : nat) (e : Event) (s : list Event) :
  ss !! i = Some (e :: s) ->
  concat ss ≡ₚ e :: concat (<[i := s]> ss).
Proof.
  revert i. induction ss as [|x ss IH]; intros i Hi; [discriminate Hi | ].
  destruct i as [|i]; simpl in *.
  - injection Hi as ->. reflexivity.
  - rewrite (IH i Hi). symmetry. apply Permutation_middle.
Qed.

Lemma sublists_insert_cons (ss : list (list Event)) (i : nat) (e : Event)
    (s l : list Event) :
  ss !! i = Some (e :: s) ->
  Forall (fun x => sublist x l) (<[i := s]> ss) ->
  Forall (fun x => sublist x (e :: l)) ss.
Proof.
  revert i. induction ss as [|x ss IH]; intros i Hi; [discriminate Hi | ].
  destruct i as [|i]; simpl in *.
  - injection Hi as ->. intros H. inversion H as [|? ? H1 H2]; subst.
    constructor; [apply sublist_skip; exact H1 | ].
    eapply Forall_impl; [exact H2 | ]. intros y Hy. apply sublist_cons. exact Hy.
  - intros H. inversion H as [|? ? H1 H2]; subst.
    constructor; [apply sublist_cons; exact H1 | exact (IH i Hi H2)].
Qed.

(** Goroutines that only send: whatever the schedule, the events
    received are those of all the lists, each list in its order. *)
Lemma interleave_streams (ps : list Proc) (env env' : Env) (t : list Act) :
  interleave ps env t env' ->
  forall ss,
    ps = map stream_proc ss ->
    sent t ≡ₚ concat ss
    /\ Forall (fun s => sublist s (sent t)) ss
    /\ t = map ActSend (sent t)
    /\ env' = env.
Proof.
  induction 1 as [ps env Hdone | ps env i p p' acts t env1 env2 Hi Hstep Hrest IH];
    intros ss ->.
  - assert (Forall (fun s => s = []) ss) as Hnil.
    { apply Forall_fmap in Hdone. eapply Forall_impl; [exact Hdone | ].
      intros s Hs. apply stream_proc_Close. exact Hs. }
    split; [ | split; [ | split; reflexivity]].
    + clear Hdone. induction Hnil as [|s ss' -> _ IHn]; [reflexivity | exact IHn].
    + eapply Forall_impl; [exact Hnil | ]. intros s ->. constructor.
  - rewrite list_lookup_fmap in Hi.
    destruct (ss !! i) as [s|] eqn:Hs; [ | discriminate Hi].
    injection Hi as <-.
    destruct s as [|e s]; [discriminate Hstep | ].
    simpl in Hstep. injection Hstep as <- <- <-.
    rewrite <- list_fmap_insert in IH.
    destruct (IH (<[i := s]> ss) eq_refl) as (Hperm & Hsub & Ht & Henv).
    simpl. split; [ | split; [ | split]].
    + rewrite Hperm. symmetry. apply concat_insert_cons. exact Hs.
    + eapply sublists_insert_cons; [exact Hs | exact Hsub].
    + f_equal. exact Ht.
    + exact Henv.
Qed.

(** X22.  A parallel agent over sub-agents whose channels carry fixed
    lists of events: in every run in which the before-agent callback
    passes, whatever the schedule, the events received are those of
    all the sub-agents and no others (a permutation of the lists put
    together), the events of each sub-agent in their own order, and
    the sub-agents leave the state as the before-agent callback left
    it. *)
Theorem ParallelAgent_interleaving (a : ParallelAgent) (ctx : InvocationContext)
    (streams : list (list Event)) (env env0 env' : Env) (tb t : list Act) :
  Forall2 (child_stream ctx) (SubAgents (par_BaseAgent a)) streams ->
  run_before (BeforeAgentCallback (par_BaseAgent a)) env = (tb, env0, true) ->
  ParallelAgent_run a ctx env t env' ->
  sent t ≡ₚ concat streams
  /\ Forall (fun s => sublist s (sent t)) streams
  /\ env' = (run_before (AfterAgentCallback (par_BaseAgent a)) env0).1.2.
Proof.
  intros Hch Hb Hrun. unfold ParallelAgent_run in Hrun. rewrite Hb in Hrun.
  destruct Hrun as (tc & env1 & Hil & -> & ->).
  assert (forwarders (SubAgents (par_BaseAgent a)) ctx = map stream_proc streams) as Hf.
  { clear -Hch. induction Hch as [|c s cs ss Hc _ IH]; [reflexivity | ].
    simpl. rewrite IH. f_equal. unfold child_stream in Hc.
    destruct (RunAsync c ctx) as [p | msg]; [exact Hc | subst; reflexivity]. }
  destruct (interleave_streams _ _ _ _ Hil streams Hf) as (Hperm & Hsub & _ & ->).
  pose proof (sent_run_before (BeforeAgentCallback (par_BaseAgent a)) env) as S1.
  rewrite Hb in S1. simpl in S1.
  pose proof (sent_run_before (AfterAgentCallback (par_BaseAgent a)) env0) as S2.
  rewrite !sent_app, S1, S2, app_nil_r. simpl.
  split; [exact Hperm | ]. split; [exact Hsub | reflexivity].
Qed.

End ParallelMore.

(** ** The agent hierarchy *)
Section HierarchyMore.
Import events agents hierarchy.

Lemma Node_ind_subs (P : Node -> Prop) :
  (forall name description run subAgents,
      Forall P subAgents -> P (mkNode name description run subAgents)) ->
  forall n, P n.
Proof.
  intros H. fix IH 1. intros [name description run subAgents].
  apply H. induction subAgents as [|c cs IHcs]; constructor; [apply IH | exact IHcs].
Qed.

Lemma find_app_first {A : Type} (f : A -> bool) (l1 l2 : list A) :
  List.find f (l1 ++ l2)
  = match List.find f l1 with Some x => Some x | None => List.find f l2 end.
Proof.
  induction l1 as [|x l1 IH]; simpl; [reflexivity | ].
  destruct (f x); [reflexivity | exact IH].
Qed.

(** X23.  [FindAgent] returns the first agent with the name in the
    order "an agent before its sub-agents, sub-agents in list order",
    seen as its embedded [BaseAgent]; it returns nil exactly when no
    agent of the tree has the name. *)
Theorem FindAgent_first_in_preorder (n : Node) (name : string) :
  FindAgent n name
  = as_base <$> List.find (fun m => String.eqb (node_name m) name) (flatten n).
Proof.
  induction n as [nm d r subs IH] using Node_ind_subs. simpl.
  destruct (String.eqb nm name); [reflexivity | ].
  induction IH as [|c cs Hc _ IHcs]; [reflexivity | ].
  rewrite find_app_first, Hc.
  destruct (List.find _ (flatten c)) as [m|]; [reflexivity | exact IHcs].
Qed.

Lemma FindAgent_base (n : Node) (name : string) (m : Node) :
  FindAgent n name = Some m ->
  exists m0, m = as_base m0 /\ node_name m0 = name.
Proof.
  revert m. induction n as [nm d r subs IH] using Node_ind_subs. intros m. simpl.
  destruct (String.eqb nm name) eqn:He.
  - intros [= <-]. apply String.eqb_eq in He.
    exists (mkNode nm d r subs). split; [reflexivity | exact He].
  - clear He. induction IH as [|c cs Hc _ IHcs]; [discriminate | ].
    destruct (FindAgent c name) as [f|] eqn:Hf.
    + intros [= <-]. exact (Hc f eq_refl).
    + exact IHcs.
Qed.

(** X24.  What [FindAgent] returns is the embedded [BaseAgent] of the
    agent found, not the agent the tree holds: it has the name asked
    for, looking the name up in it again returns it, and its
    [RunAsync] is the base implementation, a closed channel, whatever
    the agent in the tree sends.  [FindSubAgent] returns the direct
    sub-agent as the tree holds it. *)
Theorem FindAgent_returns_base (n : Node) (name : string) (m : Node)
    (ctx : InvocationContext) :
  FindAgent n name = Some m ->
  node_name m = name
  /\ node_run m ctx = Ok Close
  /\ FindAgent m name = Some m
  /\ forall c, FindSubAgent n name = Some c -> In c (node_subs n) /\ node_name c = name.
Proof.
  intros Hf. destruct (FindAgent_base n name m Hf) as ([nm d r subs] & -> & Hn).
  simpl in Hn. subst nm. simpl.
  split; [reflexivity | ]. split; [reflexivity | ].
  split; [rewrite String.eqb_refl; reflexivity | ].
  intros c Hc. unfold FindSubAgent in Hc. apply List.find_some in Hc.
  destruct Hc as [Hin He]. apply String.eqb_eq in He. split; assumption.
Qed.

End HierarchyMore.

(** ** The artifact service *)
Section ArtifactsMore.
Import artifacts.

(** X25.  [LoadArtifact] after [SaveArtifact] returns the data just
    saved for the key of the save, whatever was stored before, and
    what it returned before for any other key. *)
Theorem LoadArtifact_after_SaveArtifact (now : Z) (key key' : string)
    (data : list Byte.byte) (metadata : gmap string Value)
    (a : InMemoryArtifactService) :
  LoadArtifact key' (SaveArtifact now key data metadata a)
  = if String.eqb key' key then Ok data else LoadArtifact key' a.
Proof.
  unfold LoadArtifact, SaveArtifact. simpl.
  destruct (String.eqb key' key) eqn:He.
  - apply String.eqb_eq in He. subst key'. rewrite lookup_insert_eq.
    rewrite last_snoc. reflexivity.
  - apply String.eqb_neq in He. rewrite lookup_insert_ne by congruence. reflexivity.
Qed.

Lemma numbered_new : numbered NewInMemoryArtifactService.
Proof. intros key versions H. simpl in H. rewrite lookup_empty in H. discriminate H. Qed.

Lemma numbered_do_call (c : ArtifactCall) (a : InMemoryArtifactService) :
  numbered a -> numbered (do_call c a).
Proof.
  intros Hn. destruct c as [now key data metadata | key]; intros k vs; simpl.
  - destruct (decide (k = key)) as [-> | Hne].
    + rewrite lookup_insert_eq. intros [= <-].
      split; [intros H; apply app_eq_nil in H; destruct H as [_ H]; discriminate H | ].
      intros i v Hi. apply lookup_app_Some in Hi.
      destruct Hi as [Hi | [Hlen Hi]].
      * destruct (artifacts_ a !! key) as [old|] eqn:Hk; [ | destruct i; discriminate Hi].
        exact (proj2 (Hn key old Hk) i v Hi).
      * apply list_lookup_singleton_Some in Hi. destruct Hi as [Hi <-]. simpl.
        f_equal. lia.
    + rewrite lookup_insert_ne by congruence. apply Hn.
  - intros H. apply lookup_delete_Some in H. destruct H as [_ H]. exact (Hn k vs H).
Qed.

Lemma numbered_do_calls (cs : list ArtifactCall) (a : InMemoryArtifactService) :
  numbered a -> numbered (do_calls cs a).
Proof.
  revert a. induction cs as [|c cs IH]; intros a Hn; [exact Hn | ].
  apply IH, numbered_do_call, Hn.
Qed.

(** X26.  On a service reached from the empty one by calls of
    [SaveArtifact] and [DeleteArtifact], the versions that
    [ListVersions] returns for a key are numbered 1, 2, ... in the
    order of the list, there is at least one, and [LoadArtifact]
    returns the data of the last. *)
Theorem ListVersions_numbered (cs : list ArtifactCall) (key : string)
    (versions : list ArtifactVersion) :
  ListVersions key (do_calls cs NewInMemoryArtifactService) = Ok versions ->
  (forall i v, versions !! i = Some v -> Version v = (Z.of_nat i + 1)%Z)
  /\ exists latest,
      last versions = Some latest
      /\ Version latest = Z.of_nat (length versions)
      /\ LoadArtifact key (do_calls cs NewInMemoryArtifactService) = Ok (Data latest).
Proof.
  pose proof (numbered_do_calls cs _ numbered_new) as Hn.
  unfold ListVersions, LoadArtifact.
  destruct (artifacts_ (do_calls cs NewInMemoryArtifactService) !! key)
    as [vs|] eqn:Hk; [ | discriminate].
  intros [= <-]. destruct (Hn key vs Hk) as [Hne Hnum].
  split; [exact Hnum | ].
  destruct (last vs) as [latest|] eqn:Hl; [ | apply last_None in Hl; contradiction].
  exists latest. split; [reflexivity | ]. split; [ | reflexivity].
  rewrite last_lookup in Hl. rewrite (Hnum _ _ Hl).
  destruct vs as [|v0 vs']; [contradiction | ]. simpl. lia.
Qed.

(** X27.  [DeleteArtifact] forgets every version of the key: a load
    of the key fails, the key is no longer listed, and the next save
    for the key is numbered 1 again. *)
Theorem DeleteArtifact_forgets (now : Z) (key : string) (data : list Byte.byte)
    (metadata : gmap string Value) (a : InMemoryArtifactService) :
  LoadArtifact key (DeleteArtifact key a) = Err ("artifact not found: " +:+ key)
  /\ ~ In key (ListArtifactKeys (DeleteArtifact key a))
  /\ ListVersions key (SaveArtifact now key data metadata (DeleteArtifact key a))
     = Ok [mkArtifactVersion 1 data now metadata].
Proof.
  unfold LoadArtifact, ListVersions, ListArtifactKeys, SaveArtifact, DeleteArtifact.
  simpl. rewrite lookup_delete_eq. split; [reflexivity | ]. split.
  - intros Hin. apply list_elem_of_In, list_elem_of_fmap in Hin.
    destruct Hin as ([k vs] & -> & Hin). apply elem_of_map_to_list in Hin.
    simpl in Hin. rewrite lookup_delete_eq in Hin. discriminate Hin.
  - rewrite lookup_insert_eq. reflexivity.
Qed.

(** X28.  On a service reached from the empty one, the keys that
    [ListArtifactKeys] returns are, each once, exactly the keys for
    which [LoadArtifact] succeeds. *)
Theorem ListArtifactKeys_loadable (cs : list ArtifactCall) (key : string) :
  NoDup (ListArtifactKeys (do_calls cs NewInMemoryArtifactService))
  /\ (In key (ListArtifactKeys (do_calls cs NewInMemoryArtifactService))
      <-> exists data,
            LoadArtifact key (do_calls cs NewInMemoryArtifactService) = Ok data).
Proof.
  pose proof (numbered_do_calls cs _ numbered_new) as Hn.
  set (a := do_calls cs NewInMemoryArtifactService) in *.
  split; [apply NoDup_fst_map_to_list | ].
  unfold ListArtifactKeys, LoadArtifact. split.
  - intros Hin. apply list_elem_of_In, list_elem_of_fmap in Hin.
    destruct Hin as ([k vs] & -> & Hin). apply elem_of_map_to_list in Hin.
    simpl in *. rewrite Hin. destruct (Hn k vs Hin) as [Hne _].
    destruct (last vs) as [v|] eqn:Hl; [eauto | ].
    apply last_None in Hl. contradiction.
  - intros [data Hl]. destruct (artifacts_ a !! key) as [vs|] eqn:Hk; [ | discriminate Hl].
    apply list_elem_of_In, list_elem_of_fmap. exists (key, vs).
    split; [reflexivity | ]. apply elem_of_map_to_list. exact Hk.
Qed.

End ArtifactsMore.

(** ** More of the lock of [State] *)
Section StateLockingMore.
Import sessions state_locking state_progress.

(** X29.  Mutual exclusion: in every configuration that the
    goroutines calling [Get], [Set] and [Update] on one [State] can
    reach, while a goroutine is between the [Lock] and the [Unlock]
    of a [Set] or an [Update], no goroutine is between the [RLock]
    and the [RUnlock] of a [Get], and no other goroutine is inside a
    [Set] or an [Update]. *)
Theorem State_mutual_exclusion (init : gmap string Value)
    (programs : list (list Method)) (schedule : list nat) (c : Config)
    (i j : nat) (th th' : Thread) :
  run schedule (initial init programs) = Some c ->
  threads c !! i = Some th ->
  threads c !! j = Some th' ->
  holds_w th = true ->
  holds_r th' = false /\ (holds_w th' = true -> i = j).
Proof.
  intros Hrun Hi Hj Hw.
  destruct (Inv_run init schedule _ _ (Inv_initial init programs) Hrun)
    as (_ & I2 & I3 & I4 & I5 & _).
  split; [ | intros Hw'; exact (I5 _ _ _ _ Hi Hj Hw Hw')].
  destruct (writer (mu c)) eqn:Hmu.
  - destruct (holds_r th') eqn:Hr; [ | reflexivity].
    pose proof (count_r_pos _ _ _ Hj Hr) as Hpos.
    rewrite <- I2, (I4 eq_refl) in Hpos. lia.
  - destruct (I3 eq_refl) as [Hnone _]. rewrite (Hnone _ _ Hi) in Hw. discriminate Hw.
Qed.

Lemma count_r_exists (ts : list Thread) :
  (0 < count_r ts)%nat -> exists i th, ts !! i = Some th /\ holds_r th = true.
Proof.
  unfold count_r. induction ts as [|x ts IH]; simpl; [intros H; inversion H | ].
  rewrite filter_cons. case_decide as Hx.
  - intros _. exists 0%nat, x. split; [reflexivity | exact Hx].
  - intros H. destruct (IH H) as (i & th & Hi & Hr).
    exists (S i), th. split; [exact Hi | exact Hr].
Qed.

Lemma finished_or_not (ts : list Thread) :
  (forall i th, ts !! i = Some th -> code th = [] /\ todo th = [])
  \/ exists i th, ts !! i = Some th /\ (code th <> [] \/ todo th <> []).
Proof.
  induction ts as [|x ts [IH | (i & th & Hi & Hn)]].
  - left. intros i th H. destruct i; discriminate H.
  - destruct (code x) as [|ins rest] eqn:Hc.
    + destruct (todo x) as [|m ms] eqn:Ht.
      * left. intros [|i] th H; simpl in H; [injection H as <-; auto | exact (IH i th H)].
      * right. exists 0%nat, x. split; [reflexivity | ]. right. rewrite Ht. discriminate.
    + right. exists 0%nat, x. split; [reflexivity | ]. left. rewrite Hc. discriminate.
  - right. exists (S i), th. split; [exact Hi | exact Hn].
Qed.

Lemma step_threads (i : nat) (c c' : Config) :
  step i c = Some c' ->
  exists th', threads c' = <[i := th']> (threads c).
Proof.
  unfold step. destruct (threads c !! i) as [th|]; [ | discriminate].
  destruct (code th) as [|ins rest].
  - destruct (todo th) as [|m ms]; [discriminate | ].
    intros [= <-]. eexists. reflexivity.
  - destruct ins; simpl;
      try (destruct (writer (mu c)); [discriminate | ]);
      try (destruct (_ || _); [discriminate | ]);
      intros [= <-]; eexists; reflexivity.
Qed.

Lemma step_other (i j : nat) (c c' : Config) :
  step i c = Some c' -> j <> i -> threads c' !! j = threads c !! j.
Proof.
  intros Hs Hne. destruct (step_threads _ _ _ Hs) as [th' ->].
  apply list_lookup_insert_ne. congruence.
Qed.

Lemma release1_Inv (init : gmap string Value) (b : Config) (j : nat) :
  Inv init b -> Inv init (release1 b j).
Proof.
  intros HI. unfold release1.
  destruct (threads b !! j) as [th|]; [ | exact HI].
  destruct (code th) as [|[] rest]; try exact HI.
  destruct (step j b) as [b'|] eqn:Hs; [ | exact HI].
  exact (Inv_step _ _ _ _ HI Hs).
Qed.

Lemma release_Inv (init : gmap string Value) (js : list nat) (b : Config) :
  Inv init b -> Inv init (release js b).
Proof.
  revert b. induction js as [|j js IH]; intros b HI; [exact HI | ].
  apply IH, release1_Inv, HI.
Qed.

Lemma release1_writer (b : Config) (j : nat) :
  writer (mu b) = false -> writer (mu (release1 b j)) = false.
Proof.
  intros Hw. unfold release1.
  destruct (threads b !! j) as [th|] eqn:Hj; [ | exact Hw].
  destruct (code th) as [|[] rest] eqn:Hc; try exact Hw.
  unfold step. rewrite Hj, Hc, Hw. reflexivity.
Qed.

Lemma release_writer (js : list nat) (b : Config) :
  writer (mu b) = false -> writer (mu (release js b)) = false.
Proof.
  revert b. induction js as [|j js IH]; intros b Hw; [exact Hw | ].
  apply IH, release1_writer, Hw.
Qed.

Lemma strict_step_Inv (init : gmap string Value) (i : nat) (c c' : Strict) :
  Inv init (base c) -> strict_step i c = Some c' -> Inv init (base c').
Proof.
  intros HI. unfold strict_step.
  destruct (is_blocked i c); [discriminate | ].
  destruct (threads (base c) !! i) as [th|]; [ | discriminate].
  destruct (code th) as [|ins rest].
  - destruct (step i (base c)) as [b|] eqn:Hs; [ | discriminate].
    intros [= <-]. exact (Inv_step _ _ _ _ HI Hs).
  - destruct ins.
    + destruct (announced c); [intros [= <-]; exact HI | ].
      destruct (step i (base c)) as [b|] eqn:Hs; [ | discriminate].
      intros [= <-]. exact (Inv_step _ _ _ _ HI Hs).
    + destruct (step i (base c)) as [b|] eqn:Hs; [ | discriminate].
      intros [= <-]. exact (Inv_step _ _ _ _ HI Hs).
    + destruct (announced c) as [j|]; [ | intros [= <-]; exact HI].
      destruct (Nat.eqb i j); [ | discriminate].
      destruct (step i (base c)) as [b|] eqn:Hs; [ | discriminate].
      intros [= <-]. exact (Inv_step _ _ _ _ HI Hs).
    + destruct (step i (base c)) as [b|] eqn:Hs; [ | discriminate].
      intros [= <-]. apply release_Inv. exact (Inv_step _ _ _ _ HI Hs).
    + destruct (step i (base c)) as [b|] eqn:Hs; [ | discriminate].
      intros [= <-]. exact (Inv_step _ _ _ _ HI Hs).
    + destruct (step i (base c)) as [b|] eqn:Hs; [ | discriminate].
      intros [= <-]. exact (Inv_step _ _ _ _ HI Hs).
Qed.

Lemma step_self (i : nat) (c c' : Config) (th : Thread) (ins : Instr) (rest : list Instr) :
  step i c = Some c' ->
  threads c !! i = Some th ->
  code th = ins :: rest ->
  threads c' !! i = Some (mkThread (running th) rest (todo th)).
Proof.
  intros Hs Hi Hc. pose proof (lookup_lt_Some _ _ _ Hi) as Hlt.
  unfold step in Hs. rewrite Hi, Hc in Hs.
  destruct ins; simpl in Hs;
    try (destruct (writer (mu c)); [discriminate | ]);
    try (destruct (_ || _); [discriminate | ]);
    injection Hs as <-; simpl;
    apply list_lookup_insert_Some; left; auto.
Qed.

Lemma step_writer (i : nat) (c c' : Config) (th : Thread) :
  step i c = Some c' ->
  threads c !! i = Some th ->
  writer (mu c')
  = match code th with
    | RLock :: _ | Unlock :: _ => false
    | Lock :: _ => true
    | _ => writer (mu c)
    end.
Proof.
  intros Hs Hi. unfold step in Hs. rewrite Hi in Hs.
  destruct (code th) as [|ins rest].
  - destruct (todo th) as [|m ms]; [discriminate | ]. injection Hs as <-. reflexivity.
  - destruct ins; simpl in Hs;
      try (destruct (writer (mu c)); [discriminate | ]);
      try (destruct (_ || _); [discriminate | ]);
      injection Hs as <-; reflexivity.
Qed.

Lemma is_blocked_false (i : nat) (c : Strict) :
  is_blocked i c = false <-> ~ In i (blocked c).
Proof.
  unfold is_blocked. split.
  - intros Hf Hin. apply not_true_iff_false in Hf. apply Hf.
    apply existsb_exists. exists i. split; [exact Hin | apply Nat.eqb_refl].
  - intros Hn. apply not_true_iff_false. intros Ht.
    apply existsb_exists in Ht as (x & Hin & Heq).
    apply Nat.eqb_eq in Heq. subst x. exact (Hn Hin).
Qed.

Lemma strict_inv_initial (init : gmap string Value) (programs : list (list Method)) :
  strict_inv (strict_initial init programs).
Proof. split; [intros i [] | split; reflexivity]. Qed.

Lemma strict_inv_step (init : gmap string Value) (i : nat) (c c' : Strict) :
  Inv init (base c) -> strict_inv c -> strict_step i c = Some c' -> strict_inv c'.
Proof.
  intros (I1 & _) [Hb Ha]. unfold strict_step, strict_inv.
  destruct (is_blocked i c) eqn:Hblk; [discriminate | ].
  apply is_blocked_false in Hblk.
  destruct (threads (base c) !! i) as [th|] eqn:Hi; [ | discriminate].
  pose proof (I1 i th Hi) as Hth. unfold thread_inv in Hth.
  (* what a step of [i] keeps *)
  assert (forall b, step i (base c) = Some b ->
            forall k, In k (blocked c) ->
              exists x rest, threads b !! k = Some x /\ code x = RLock :: rest) as Hkept.
  { intros b Hs k Hk. destruct (Hb k Hk) as (x & rest & Hx & Hcx).
    exists x, rest. split; [ | exact Hcx].
    rewrite (step_other i k _ _ Hs); [exact Hx | ]. intros ->. exact (Hblk Hk). }
  assert (forall b, step i (base c) = Some b ->
            holds_w th = false -> (forall rest, code th <> Lock :: rest) ->
            writer (mu b) = writer (mu (base c)) ->
            match announced c with
            | None => writer (mu b) = false /\ blocked c = []
            | Some j =>
                exists x, threads b !! j = Some x
                          /\ (((exists rest, code x = Lock :: rest) /\ writer (mu b) = false)
                              \/ holds_w x = true)
            end) as Hquiet.
  { intros b Hs Hnw Hnl Hwr. destruct (announced c) as [j|].
    - destruct Ha as (x & Hx & Hcase). exists x. split.
      + rewrite (step_other i j _ _ Hs); [exact Hx | ].
        intros ->. rewrite Hi in Hx. injection Hx as <-.
        destruct Hcase as [[[rest Hc] _] | Hw]; [exact (Hnl _ Hc) | congruence].
      + rewrite Hwr. exact Hcase.
    - rewrite Hwr. exact Ha. }
  destruct (code th) as [|ins rest] eqn:Hc.
  - destruct (step i (base c)) as [b|] eqn:Hs; [ | discriminate].
    intros [= <-]. simpl. split; [exact (Hkept b eq_refl) | ].
    apply (Hquiet b eq_refl); [unfold holds_w; rewrite Hc; reflexivity | discriminate | ].
    rewrite (step_writer _ _ _ _ Hs Hi), Hc. reflexivity.
  - destruct ins.
    + (* RLock *)
      destruct (announced c) as [j|] eqn:Han.
      * intros [= <-]. simpl. split; [ | exact Ha].
        intros k [<- | Hk]; [exists th, rest; auto | exact (Hb k Hk)].
      * destruct (step i (base c)) as [b|] eqn:Hs; [ | discriminate].
        intros [= <-]. simpl. split; [exact (Hkept b eq_refl) | ].
        split; [ | exact (proj2 Ha)].
        rewrite (step_writer _ _ _ _ Hs Hi), Hc. reflexivity.
    + (* RUnlock *)
      destruct (step i (base c)) as [b|] eqn:Hs; [ | discriminate].
      intros [= <-]. simpl. split; [exact (Hkept b eq_refl) | ].
      apply (Hquiet b eq_refl); [unfold holds_w; rewrite Hc; reflexivity | discriminate | ].
      rewrite (step_writer _ _ _ _ Hs Hi), Hc. reflexivity.
    + (* Lock *)
      destruct (announced c) as [j|] eqn:Han.
      * destruct (Nat.eqb i j) eqn:Hij; [ | discriminate].
        destruct (step i (base c)) as [b|] eqn:Hs; [ | discriminate].
        intros [= <-]. simpl. split; [exact (Hkept b eq_refl) | ].
        eexists. split; [exact (step_self _ _ _ _ _ _ Hs Hi Hc) | ]. right.
        destruct Hth as (m & _ & Hws & _).
        exact (proj1 (write_section_head rest (mkThread (running th) rest (todo th))
                        eq_refl Hws)).
      * intros [= <-]. simpl. split; [exact Hb | ].
        exists th. split; [exact Hi | ]. left.
        split; [exists rest; exact Hc | exact (proj1 Ha)].
    + (* Unlock *)
      destruct (step i (base c)) as [b|] eqn:Hs; [ | discriminate].
      intros [= <-]. simpl. split; [intros k [] | ].
      split; [ | reflexivity]. apply release_writer.
      rewrite (step_writer _ _ _ _ Hs Hi), Hc. reflexivity.
    + (* Read *)
      destruct (step i (base c)) as [b|] eqn:Hs; [ | discriminate].
      intros [= <-]. simpl. split; [exact (Hkept b eq_refl) | ].
      apply (Hquiet b eq_refl); [unfold holds_w; rewrite Hc; reflexivity | discriminate | ].
      rewrite (step_writer _ _ _ _ Hs Hi), Hc. reflexivity.
    + (* Write *)
      destruct (step i (base c)) as [b|] eqn:Hs; [ | discriminate].
      intros [= <-]. simpl. split; [exact (Hkept b eq_refl) | ].
      pose proof (step_writer _ _ _ _ Hs Hi) as Hwr. rewrite Hc in Hwr.
      destruct (announced c) as [j|].
      * destruct Ha as (x & Hx & Hcase).
        destruct (decide (j = i)) as [-> | Hne].
        -- eexists. split; [exact (step_self _ _ _ _ _ _ Hs Hi Hc) | ]. right.
           destruct Hth as (m & _ & Hws & _). simpl in Hws.
           exact (proj1 (write_section_head rest (mkThread (running th) rest (todo th))
                        eq_refl Hws)).
        -- exists x. split; [rewrite (step_other i j _ _ Hs); [exact Hx | exact Hne] | ].
           rewrite Hwr. exact Hcase.
      * rewrite Hwr. exact Ha.
Qed.

Lemma strict_run_inv (init : gmap string Value) (schedule : list nat) (c c' : Strict) :
  Inv init (base c) -> strict_inv c -> strict_run schedule c = Some c' ->
  Inv init (base c') /\ strict_inv c'.
Proof.
  revert c. induction schedule as [|i rest IH]; intros c HI Hs; simpl.
  - intros [= <-]. split; assumption.
  - destruct (strict_step i c) as [c1|] eqn:H1; [ | discriminate].
    apply IH; [exact (strict_step_Inv _ _ _ _ HI H1) | exact (strict_inv_step _ _ _ _ HI Hs H1)].
Qed.

(** X30.  No deadlock under the waiting rules of [sync.RWMutex] (a
    [Lock] that is announced keeps every new [RLock] and every other
    [Lock] waiting until its [Unlock]): in every configuration that
    the goroutines calling [Get], [Set] and [Update] on one [State]
    can reach, either every goroutine has returned from its last call
    or some goroutine can make its next step; the lock is never left
    held, or announced, by a call that has returned. *)
Theorem State_no_deadlock (init : gmap string Value)
    (programs : list (list Method)) (schedule : list nat) (c : Strict) :
  strict_run schedule (strict_initial init programs) = Some c ->
  finished (base c) \/ exists i c', strict_step i c = Some c'.
Proof.
  intros Hrun.
  destruct (strict_run_inv init schedule (strict_initial init programs) c
              (Inv_initial init programs) (strict_inv_initial init programs) Hrun)
    as [(_ & I2 & _) [Hb Ha]].
  assert (forall i th, threads (base c) !! i = Some th ->
            holds_w th = true \/ holds_r th = true -> is_blocked i c = false) as Hfree.
  { intros i th Hi Hh. apply is_blocked_false. intros Hin.
    destruct (Hb i Hin) as (x & rest & Hx & Hcx).
    rewrite Hi in Hx. injection Hx as <-.
    unfold holds_w, holds_r in Hh. rewrite Hcx in Hh. destruct Hh; discriminate. }
  assert (forall i th, threads (base c) !! i = Some th ->
            holds_w th = true \/ holds_r th = true ->
            exists c', strict_step i c = Some c') as Hin.
  { intros i th Hi Hh. unfold strict_step. rewrite (Hfree i th Hi Hh), Hi.
    unfold step. rewrite Hi. unfold holds_w, holds_r in Hh.
    destruct (code th) as [|[] rest]; simpl in Hh;
      try (destruct Hh; discriminate); simpl; eauto. }
  destruct (announced c) as [j|] eqn:Han.
  - right. destruct Ha as (th & Hj & [[[rest Hc] Hw] | Hw]).
    + destruct (readers (mu (base c))) as [|n] eqn:Hr.
      * exists j. unfold strict_step.
        assert (is_blocked j c = false) as ->.
        { apply is_blocked_false. intros Hin'.
          destruct (Hb j Hin') as (x & rest' & Hx & Hcx).
          rewrite Hj in Hx. injection Hx as <-. rewrite Hc in Hcx. discriminate Hcx. }
        rewrite Hj, Hc, Han, Nat.eqb_refl. unfold step. rewrite Hj, Hc. simpl.
        rewrite Hw, Hr. simpl. eauto.
      * destruct (count_r_exists (threads (base c))) as (x & thx & Hx & Hrx); [lia | ].
        exists x. apply (Hin x thx Hx). right. exact Hrx.
    + exists j. apply (Hin j th Hj). left. exact Hw.
  - destruct Ha as [Hw Hnone].
    destruct (finished_or_not (threads (base c))) as [Hfin | (i & th & Hi & Hn)];
      [left; exact Hfin | right].
    exists i. unfold strict_step, is_blocked. rewrite Hnone. simpl.
    rewrite Hi, Han. unfold step. rewrite Hi, Hw.
    destruct (code th) as [|[] rest]; simpl; eauto.
    destruct (todo th) as [|m ms]; [destruct Hn as [Hn | Hn]; contradiction | eauto].
Qed.

End StateLockingMore.

(** ** Instances on concrete inputs *)
Section Instances.
Import events sessions service_calls models registry_runs agents spec traces agents_ref.
Import runners runner_calls parallel hierarchy state_locking state_progress.
Import fixtures more_fixtures.

Lemma CreateSession_other_triples_witness :
  (("app", "u1", "s1") : string * string * string) <> ("app", "u2", "s1")
  /\ GetSession (CreateSession time0 uuid0 empty_service empty_heap
                   "app" "u1" "s1" None).1.1 "app" "u2" "s1"
     = GetSession empty_service "app" "u2" "s1".
Proof.
  split; [discriminate | ].
  apply (CreateSession_other_triples time0 uuid0 empty_service empty_heap
           "app" "u1" "s1" "app" "u2" "s1" None);
    [reflexivity | reflexivity | reflexivity | reflexivity | discriminate].
Defined.

Lemma append_all_ListEvents_witness :
  GetSession one_session.1 "app" "u1" "s1" = Ok (Some 1%nat)
  /\ (let '(s', h') :=
        append_all time0 "app" "u1" "s1" [hello; bye] (one_session.1, one_session.2) in
      s' = one_session.1
      /\ ListEvents s' h' "app" "u1" "s1" = Ok (Some (Events session_s1 ++ [hello; bye]))
      /\ state_objs h' = state_objs one_session.2).
Proof.
  split; [vm_compute; reflexivity | ].
  apply (append_all_ListEvents time0 one_session.1 one_session.2 "app" "u1" "s1"
           1%nat session_s1 [hello; bye]); vm_compute; reflexivity.
Defined.

Lemma AppendEvent_other_sessions_witness :
  sessionKey "app" "u1" "s1" <> sessionKey "app" "u2" "s2"
  /\ (let '(s, h) := service_calls.do_calls time0 uuid0 two_creates new_store in
      let '(s', h', _) := AppendEvent time0 s h "app" "u1" "s1" hello in
      ListEvents s' h' "app" "u2" "s2" = ListEvents s h "app" "u2" "s2").
Proof.
  split; [vm_compute; discriminate | ].
  apply (AppendEvent_other_sessions time0 uuid0 two_creates
           "app" "u1" "s1" "app" "u2" "s2" hello).
  vm_compute. discriminate.
Defined.

Lemma State_Update_any_order_witness :
  State_Update two_updates old_state = State_Update (rev two_updates) old_state
  /\ (forall k v, (k, v) ∈ two_updates ->
                  State_Get k (State_Update two_updates old_state) = Some v)
  /\ (forall k, k ∉ two_updates.*1 ->
                State_Get k (State_Update two_updates old_state) = State_Get k old_state).
Proof.
  apply (State_Update_any_order two_updates (rev two_updates) old_state).
  - apply (bool_decide_unpack _). vm_compute. exact I.
  - apply perm_swap.
Defined.

Lemma resolved_handles_witness :
  (Resolve "gemini-2.0-flash" (resolve_all "uuid-m" 3 [])).1 = Ok (Some flash_llm)
  /\ GetModelName flash_llm = "gemini-2.0-flash"
  /\ GetModelName pro_llm = "gemini-1.5-pro"
  /\ (llm_addr flash_llm = llm_addr pro_llm <-> "gemini-2.0-flash" = "gemini-1.5-pro")
  /\ ("gemini-2.0-flash" = "gemini-1.5-pro" -> flash_llm = pro_llm).
Proof.
  split; [vm_compute; reflexivity | ].
  apply (resolved_handles "uuid-m" 3 [] "gemini-2.0-flash" "gemini-1.5-pro"
           flash_llm pro_llm); vm_compute; reflexivity.
Defined.

Lemma SequentialAgent_flatten_witness :
  exec (SequentialAgent_goroutine
          (mkSequentialAgent
             (mkBaseAgent "outer" ""
                ([speaker] ++ SequentialAgent_Agent sequential_ok :: [speaker]) None None))
          ctx0) env0
  = exec (SequentialAgent_goroutine
            (mkSequentialAgent
               (mkBaseAgent "outer" ""
                  ([speaker] ++ SubAgents (seq_BaseAgent sequential_ok) ++ [speaker])
                  None None)) ctx0) env0.
Proof.
  apply (SequentialAgent_flatten "outer" "" None None [speaker] [speaker]
           sequential_ok ctx0 env0); reflexivity.
Defined.

Lemma LoopAgent_no_pass_witness :
  (MaxIterations idle_loop <= 0)%Z
  /\ exec (LoopAgent_goroutine idle_loop ctx0) env0
     = (let '(ta, env2, _) :=
          run_before (AfterAgentCallback (loop_BaseAgent idle_loop)) env0 in
        ([] ++ ta, env2)).
Proof.
  split; [vm_compute; discriminate | ].
  apply (LoopAgent_no_pass idle_loop ctx0 env0 env0 []); [reflexivity | ].
  left. vm_compute. discriminate.
Defined.

Lemma LlmAgent_no_stream_witness :
  backend_stream unknown_agent ctx0 (agents.llms env0) = None
  /\ (let '(tb1, env1, ok1) :=
        run_before (BeforeAgentCallback (llm_BaseAgent unknown_agent)) env0 in
      let '(tb2, env2, _) := run_before (BeforeModelCallback unknown_agent) env1 in
      (exec (LlmAgent_goroutine unknown_agent ctx0) env0).1
      `prefix_of` tb1 ++ tb2 ++ resolve_act unknown_agent
      /\ state (exec (LlmAgent_goroutine unknown_agent ctx0) env0).2
         = state (if ok1 then env2 else env1)).
Proof.
  split; [vm_compute; reflexivity | ].
  apply (LlmAgent_no_stream unknown_agent ctx0 env0). vm_compute. reflexivity.
Defined.

Lemma RunAsync_persisted_witness :
  store_wf (SessionService world0) (heap world0)
  /\ exists us,
      persisted (runners.RunAsync time0 uuid0 runner0 "u1" "s1" (Some question) world0).2
                (runners.AppName runner0) "u1" "s1"
      = persisted world0 (runners.AppName runner0) "u1" "s1" ++ us ++ [hello]
      /\ exists u, us = [u; u] /\ Author u = "user" /\ Content_ u = Some question.
Proof.
  split; [apply store_wf_empty | ].
  apply (RunAsync_persisted time0 uuid0 runner0 "u1" "s1" (Some question) world0
           (runners.RunAsync time0 uuid0 runner0 "u1" "s1" (Some question) world0).2
           [hello]
           (runners.RunAsync time0 uuid0 runner0 "u1" "s1" (Some question) world0).1.2
           (store_wf_empty _)).
  vm_compute. reflexivity.
Defined.

Lemma Run_last_event_witness :
  let run := Run time0 uuid0 runner0 "u1" "s1" (Some question) world0 in
  store_wf (SessionService world0) (heap world0)
  /\ run.1.1 = Ok (Some hello)
  /\ (exists ctx proc,
        agents.RunAsync (Agent runner0) ctx = Ok proc
        /\ Some hello = last (produced proc world0 (runners.AppName runner0) "u1" "s1")
        /\ exists u, Author u = "user" /\ Content_ u = Some question
                     /\ Events (agents.Session ctx)
                        = persisted world0 (runners.AppName runner0) "u1" "s1" ++ [u; u])
  /\ Some hello = last (observed run.1.2)
  /\ last (persisted run.2 (runners.AppName runner0) "u1" "s1") = Some hello.
Proof.
  split; [apply store_wf_empty | ].
  split; [vm_compute; reflexivity | ].
  apply (Run_last_event time0 uuid0 runner0 "u1" "s1" (Some question) world0
           (Run time0 uuid0 runner0 "u1" "s1" (Some question) world0).2
           (Some hello)
           (Run time0 uuid0 runner0 "u1" "s1" (Some question) world0).1.2
           (store_wf_empty _)).
  vm_compute. reflexivity.
Defined.

Lemma RunLive_persisted_witness :
  store_wf (SessionService world0) (heap world0)
  /\ [hello] = observed (RunLive time0 uuid0 live_runner "u1" "s1" world0).1.2
  /\ appended_first (RunLive time0 uuid0 live_runner "u1" "s1" world0).1.2
  /\ persisted (RunLive time0 uuid0 live_runner "u1" "s1" world0).2
               (runners.AppName live_runner) "u1" "s1"
     = persisted world0 (runners.AppName live_runner) "u1" "s1" ++ [hello].
Proof.
  split; [apply store_wf_empty | ].
  apply (RunLive_persisted time0 uuid0 live_runner "u1" "s1" world0
           (RunLive time0 uuid0 live_runner "u1" "s1" world0).2
           [hello]
           (RunLive time0 uuid0 live_runner "u1" "s1" world0).1.2
           (store_wf_empty _)).
  vm_compute. reflexivity.
Defined.

Lemma RunLive_of_package_agents_witness :
  store_wf (SessionService world0) (heap world0)
  /\ exists w',
      RunLive time0 uuid0 sequential_runner "u1" "s1" world0 = (Ok [], [], w')
      /\ persisted w' (runners.AppName sequential_runner) "u1" "s1"
         = persisted world0 (runners.AppName sequential_runner) "u1" "s1"
      /\ is_Some (sessions.sessions (SessionService w')
                    !! sessionKey (runners.AppName sequential_runner) "u1" "s1").
Proof.
  split; [apply store_wf_empty | ].
  apply (RunLive_of_package_agents time0 uuid0 sequential_runner "u1" "s1" world0
           (store_wf_empty _)).
  left. exists sequential_ok. reflexivity.
Defined.

Lemma RunAsync_store_wf_witness :
  store_wf (SessionService world0) (heap world0)
  /\ store_wf
       (SessionService (runners.RunAsync time0 uuid0 runner0 "u1" "s1" (Some question) world0).2)
       (heap (runners.RunAsync time0 uuid0 runner0 "u1" "s1" (Some question) world0).2).
Proof.
  split; [apply store_wf_empty | ].
  apply (RunAsync_store_wf time0 uuid0 runner0 "u1" "s1" (Some question) world0
           (store_wf_empty _)).
Defined.

Lemma ParallelAgent_interleaving_witness :
  ParallelAgent_run parallel_ok ctx0 env0 [ActSend hello; ActSend hello] env0
  /\ sent [ActSend hello; ActSend hello] ≡ₚ concat [[hello]; []; [hello]]
  /\ Forall (fun s => sublist s (sent [ActSend hello; ActSend hello]))
            [[hello]; []; [hello]]
  /\ env0 = (run_before (AfterAgentCallback (par_BaseAgent parallel_ok)) env0).1.2.
Proof.
  assert (ParallelAgent_run parallel_ok ctx0 env0 [ActSend hello; ActSend hello] env0)
    as Hrun.
  { exists [ActSend hello; ActSend hello], env0.
    split; [ | split; reflexivity].
    exact (interleave_in_order [speaker; broken; speaker] ctx0 [] env0
             (List.Forall_nil _)). }
  split; [exact Hrun | ].
  apply (ParallelAgent_interleaving parallel_ok ctx0 [[hello]; []; [hello]]
           env0 env0 env0 [] [ActSend hello; ActSend hello]).
  - constructor; [reflexivity | ]. constructor; [reflexivity | ].
    constructor; [reflexivity | constructor].
  - reflexivity.
  - exact Hrun.
Defined.

Lemma FindAgent_returns_base_witness :
  FindAgent small_tree "a" = Some (mkNode "a" "" (fun _ => Ok Close) [])
  /\ node_name (mkNode "a" "" (fun _ => Ok Close) []) = "a"
  /\ node_run (mkNode "a" "" (fun _ => Ok Close) []) ctx0 = Ok Close
  /\ FindAgent (mkNode "a" "" (fun _ => Ok Close) []) "a"
     = Some (mkNode "a" "" (fun _ => Ok Close) [])
  /\ forall c, FindSubAgent small_tree "a" = Some c ->
               In c (node_subs small_tree) /\ node_name c = "a".
Proof.
  split; [reflexivity | ].
  apply (FindAgent_returns_base small_tree "a" (mkNode "a" "" (fun _ => Ok Close) []) ctx0).
  reflexivity.
Defined.

Lemma ListVersions_numbered_witness :
  artifacts.ListVersions "report"
    (artifacts.do_calls two_saves artifacts.NewInMemoryArtifactService)
  = Ok [artifacts.mkArtifactVersion 1 [Byte.x01] 1 ∅;
        artifacts.mkArtifactVersion 2 [Byte.x02] 2 ∅]
  /\ exists latest,
      last [artifacts.mkArtifactVersion 1 [Byte.x01] 1 ∅;
            artifacts.mkArtifactVersion 2 [Byte.x02] 2 ∅] = Some latest
      /\ artifacts.Version latest = 2%Z
      /\ artifacts.LoadArtifact "report"
           (artifacts.do_calls two_saves artifacts.NewInMemoryArtifactService)
         = Ok (artifacts.Data latest).
Proof.
  split; [vm_compute; reflexivity | ].
  apply (ListVersions_numbered two_saves "report"
           [artifacts.mkArtifactVersion 1 [Byte.x01] 1 ∅;
            artifacts.mkArtifactVersion 2 [Byte.x02] 2 ∅]).
  vm_compute. reflexivity.
Defined.

Lemma State_mutual_exclusion_witness :
  state_locking.run [0; 0]%nat (state_locking.initial old_state two_goroutines) = Some writing_config
  /\ holds_w writing_thread = true
  /\ holds_r waiting_thread = false
  /\ (holds_w waiting_thread = true -> 0%nat = 1%nat).
Proof.
  split; [vm_compute; reflexivity | ]. split; [reflexivity | ].
  apply (State_mutual_exclusion old_state two_goroutines [0; 0]%nat writing_config
           0 1 writing_thread waiting_thread); vm_compute; reflexivity.
Defined.

(** The waiting of [sync.RWMutex]: the writer waits for the reader
    that holds the lock, the later reader waits behind the writer, and
    the reader that holds the lock can go on. *)
Example writer_and_reader_wait :
  strict_run writer_waits (strict_initial old_state three_goroutines)
  = Some waiting_config
  /\ announced waiting_config = Some 0%nat
  /\ blocked waiting_config = [2%nat]
  /\ strict_step 0 waiting_config = None
  /\ strict_step 2 waiting_config = None
  /\ is_Some (strict_step 1 waiting_config).
Proof.
  split; [vm_compute; reflexivity | ]. split; [reflexivity | ].
  split; [reflexivity | ]. split; [vm_compute; reflexivity | ].
  split; [vm_compute; reflexivity | ]. vm_compute. eauto.
Qed.

Lemma State_no_deadlock_witness :
  strict_run writer_waits (strict_initial old_state three_goroutines)
  = Some waiting_config
  /\ (finished (base waiting_config)
      \/ exists i c', strict_step i waiting_config = Some c').
Proof.
  split; [vm_compute; reflexivity | ].
  apply (State_no_deadlock old_state three_goroutines writer_waits waiting_config).
  vm_compute. reflexivity.
Defined.

End Instances.
